(** * Caption validator: shallow embedding of the parser and the coverage evaluator

    The development follows the Go sources of the caption validator:
    - [internal/utils/calc.go]      : [MaxDuration], [MinDuration]
    - [internal/utils] (validate)   : [ValidateCoverage]
    - [main.go]                     : [validateCoverage], [maxDuration], [minDuration]
    - [internal/parse/srt.go]       : [ParseSRT], [parseSRTTime]
    - [internal/parse/caption.go]   : [ParseCaptionFile], [ParseWebVTT], [parseWebVTTTime], [ExtractAllText]
    - [internal/utils] (validate)   : [IsValidFileType]
    - [internal/cmd/parse.go]       : [ParseFlags]

    Go values are represented as the program has them: a [time.Duration] and an
    [int] are 64-bit two's-complement integers (a [Z] with the wrap-around
    written out), a [float64] is a primitive binary64 float, a [string] is its
    sequence of bytes. *)

From Stdlib Require Import ZArith List Lia Bool Permutation.
From Stdlib Require Import Strings.Byte Strings.String Strings.Ascii.
From Stdlib Require Import Floats.PrimFloat Floats.SpecFloat Floats.FloatOps.
Import ListNotations.

Local Open Scope Z_scope.
Local Open Scope byte_scope.

(* ================================================================= *)
(** ** 64-bit signed integers *)

Module Int64.

Definition modulus : Z := 18446744073709551616.
Definition half_modulus : Z := 9223372036854775808.
Definition min_int : Z := -9223372036854775808.
Definition max_int : Z := 9223372036854775807.

  (** Two's-complement reduction of a mathematical integer. *)
Definition wrap (z : Z) : Z := (z + half_modulus) mod modulus - half_modulus.

Definition in_range (z : Z) : Prop := min_int <= z <= max_int.

Definition add (a b : Z) : Z := wrap (a + b).
Definition sub (a b : Z) : Z := wrap (a - b).
Definition mul (a b : Z) : Z := wrap (a * b).
Definition neg (a : Z) : Z := wrap (- a).

End Int64.

(* ================================================================= *)
(** ** [time.Duration] and [float64] *)

(** A duration is an [int64] count of nanoseconds. *)
Definition Duration : Type := Z.

Definition Nanosecond : Duration := 1.
Definition Microsecond : Duration := 1000.
Definition Millisecond : Duration := 1000000.
Definition Second : Duration := 1000000000.

(** The conversion [float64(d)] of an [int64]: the nearest binary64 value,
    ties to even. *)
Definition float64_of_int64 (z : Z) : float :=
  SF2Prim (binary_normalize prec emax z 0 false).

(* ================================================================= *)
(** ** Strings *)

(** A Go string is an immutable sequence of bytes. *)
Definition gostring : Type := list byte.

(** String literals. *)
Definition str (s : string) : gostring := list_byte_of_string s.

(* ================================================================= *)
(** ** [internal/models] *)

Record CaptionEntry : Type := mkCaptionEntry {
  StartTime : Duration;
  EndTime : Duration;
  Text : gostring
}.

(** The value of a [var currentEntry models.CaptionEntry] declaration. *)
Definition zeroCaptionEntry : CaptionEntry := mkCaptionEntry 0 0 [].

(** The fields of an entry hold [int64] values. *)
Definition wf_entry (c : CaptionEntry) : Prop :=
  Int64.in_range (StartTime c) /\ Int64.in_range (EndTime c).

(* ================================================================= *)
(** ** [internal/utils/calc.go] *)

Definition MaxDuration (a b : Duration) : Duration :=
  if a >? b then a else b.

Definition MinDuration (a b : Duration) : Duration :=
  if a <? b then a else b.

(* ================================================================= *)
(** ** The coverage evaluator *)

(** The body of the [for _, caption := range captions] loop, as a function of
    the accumulator [coveredDuration]; the maximum and the minimum of two
    durations are taken by the functions of [calc.go]. *)
Definition coverage_step (tStart tEnd : Duration)
    (coveredDuration : Duration) (caption : CaptionEntry) : Duration :=
  let overlapStart := MaxDuration (StartTime caption) tStart in
  let overlapEnd := MinDuration (EndTime caption) tEnd in
  if overlapStart <? overlapEnd
  then Int64.add coveredDuration (Int64.sub overlapEnd overlapStart)
  else coveredDuration.

(** The accumulator after the loop: [var coveredDuration time.Duration]
    starts at zero. *)
Definition coveredDuration (captions : list CaptionEntry)
    (tStart tEnd : Duration) : Duration :=
  fold_left (coverage_step tStart tEnd) captions 0.

Definition ValidateCoverage (captions : list CaptionEntry)
    (tStart tEnd : Duration) (requiredCoverage : float) : bool :=
  let totalRange := Int64.sub tEnd tStart in
  if totalRange <=? 0 then false
  else
    let actualCoverage :=
      PrimFloat.div (float64_of_int64 (coveredDuration captions tStart tEnd))
                    (float64_of_int64 totalRange) in
    PrimFloat.leb requiredCoverage actualCoverage.

(** [main.go] carries its own copies of the three functions. *)
Definition maxDuration (a b : Duration) : Duration :=
  if a >? b then a else b.

Definition minDuration (a b : Duration) : Duration :=
  if a <? b then a else b.

Definition validateCoverage (captions : list CaptionEntry)
    (tStart tEnd : Duration) (requiredCoverage : float) : bool :=
  let totalRange := Int64.sub tEnd tStart in
  if totalRange <=? 0 then false
  else
    let covered :=
      fold_left
        (fun coveredDuration caption =>
           let overlapStart := maxDuration (StartTime caption) tStart in
           let overlapEnd := minDuration (EndTime caption) tEnd in
           if overlapStart <? overlapEnd
           then Int64.add coveredDuration (Int64.sub overlapEnd overlapStart)
           else coveredDuration)
        captions 0 in
    let actualCoverage :=
      PrimFloat.div (float64_of_int64 covered) (float64_of_int64 totalRange) in
    PrimFloat.leb requiredCoverage actualCoverage.

(** *** The closed formula of the specification *)

(** The overlap of one entry with the window, as the specification writes it:
    [max(0, min(entry.end, window.end) - max(entry.start, window.start))],
    over the mathematical integers. *)
Definition entry_overlap (tStart tEnd : Z) (c : CaptionEntry) : Z :=
  Z.max 0 (Z.min (EndTime c) tEnd - Z.max (StartTime c) tStart).

(** The sum of the overlaps of all entries, no interval merged with another. *)
Definition overlap_sum (captions : list CaptionEntry) (tStart tEnd : Z) : Z :=
  fold_right Z.add 0 (map (entry_overlap tStart tEnd) captions).

(** An entry overlaps the window when their intersection is not empty. *)
Definition overlaps_window (tStart tEnd : Z) (c : CaptionEntry) : Prop :=
  Z.max (StartTime c) tStart < Z.min (EndTime c) tEnd.


(* ================================================================= *)
(** ** The packages [unicode], [strings] and [bufio] of the Go library *)

(** These are library functions the program calls; each is written after its
    documented behaviour, on the bytes of the string. *)

Definition byte_val (c : byte) : Z := Z.of_N (Byte.to_N c).

(** The table [asciiSpace] of package [strings]:
    ['\t'], ['\n'], ['\v'], ['\f'], ['\r'], [' ']. *)
Definition asciiSpace (c : byte) : bool :=
  Byte.eqb c x09 || Byte.eqb c x0a || Byte.eqb c x0b || Byte.eqb c x0c
  || Byte.eqb c x0d || Byte.eqb c x20.

(** [unicode.IsSpace] holds of the six ASCII characters above and of
    U+0085, U+00A0, U+1680, U+2000..U+200A, U+2028, U+2029, U+202F, U+205F
    and U+3000.  UTF-8 encodes each rune in exactly one way, so a white-space
    rune sits at a position of a string exactly when one of the following
    byte sequences does. *)

(** U+0085 = C2 85, U+00A0 = C2 A0. *)
Definition space2 (c1 c2 : byte) : bool :=
  Byte.eqb c1 xc2 && (Byte.eqb c2 x85 || Byte.eqb c2 xa0).

(** U+1680 = E1 9A 80; U+2000..U+200A = E2 80 80..8A; U+2028 = E2 80 A8;
    U+2029 = E2 80 A9; U+202F = E2 80 AF; U+205F = E2 81 9F;
    U+3000 = E3 80 80. *)
Definition space3 (c1 c2 c3 : byte) : bool :=
  (Byte.eqb c1 xe1 && Byte.eqb c2 x9a && Byte.eqb c3 x80)
  || (Byte.eqb c1 xe2 && Byte.eqb c2 x80
      && (((128 <=? byte_val c3) && (byte_val c3 <=? 138))
          || Byte.eqb c3 xa8 || Byte.eqb c3 xa9 || Byte.eqb c3 xaf))
  || (Byte.eqb c1 xe2 && Byte.eqb c2 x81 && Byte.eqb c3 x9f)
  || (Byte.eqb c1 xe3 && Byte.eqb c2 x80 && Byte.eqb c3 x80).

(** [strings.TrimLeftFunc(s, unicode.IsSpace)]: the runes are decoded from
    the front and dropped while they are white space. *)
Fixpoint TrimLeftSpace (s : gostring) : gostring :=
  match s with
  | [] => []
  | c1 :: t1 =>
      if asciiSpace c1 then TrimLeftSpace t1
      else
        match t1 with
        | [] => s
        | c2 :: t2 =>
            if space2 c1 c2 then TrimLeftSpace t2
            else
              match t2 with
              | [] => s
              | c3 :: t3 => if space3 c1 c2 c3 then TrimLeftSpace t3 else s
              end
        end
  end.

(** The same scan over the reversed string: [utf8.DecodeLastRuneInString]
    steps back over the continuation bytes to the start of the last rune, so
    a white-space rune ends the string exactly when its encoding does. *)
Fixpoint trimLeftSpace_rev (r : gostring) : gostring :=
  match r with
  | [] => []
  | c1 :: t1 =>
      if asciiSpace c1 then trimLeftSpace_rev t1
      else
        match t1 with
        | [] => r
        | c2 :: t2 =>
            if space2 c2 c1 then trimLeftSpace_rev t2
            else
              match t2 with
              | [] => r
              | c3 :: t3 =>
                  if space3 c3 c2 c1 then trimLeftSpace_rev t3 else r
              end
        end
  end.

(** [strings.TrimRightFunc(s, unicode.IsSpace)]. *)
Definition TrimRightSpace (s : gostring) : gostring :=
  rev (trimLeftSpace_rev (rev s)).

(** [strings.TrimSpace]: all leading and trailing white space removed, as
    defined by Unicode. *)
Definition TrimSpace (s : gostring) : gostring :=
  TrimRightSpace (TrimLeftSpace s).

(** The test that a string is the empty string. *)
Definition isEmpty (s : gostring) : bool :=
  match s with [] => true | _ :: _ => false end.

(** [strings.HasPrefix]. *)
Fixpoint HasPrefix (s prefix : gostring) : bool :=
  match prefix, s with
  | [], _ => true
  | _ :: _, [] => false
  | p :: prefix', c :: s' => Byte.eqb c p && HasPrefix s' prefix'
  end.

(** [strings.Join]. *)
Fixpoint Join (elems : list gostring) (sep : gostring) : gostring :=
  match elems with
  | [] => []
  | [e] => e
  | e :: rest => e ++ sep ++ Join rest sep
  end.

(** [strings.Split(s, sep)] for a separator of one byte, which is every use
    the program makes of it: the pieces between the occurrences of [sep],
    one more than there are occurrences. *)
Fixpoint Split (s : gostring) (sep : byte) : list gostring :=
  match s with
  | [] => [[]]
  | c :: t =>
      if Byte.eqb c sep then [] :: Split t sep
      else
        match Split t sep with
        | [] => [[c]]
        | piece :: pieces => (c :: piece) :: pieces
        end
  end.

(** [bufio.ScanLines]: the lines of the input without their end-of-line
    marker, which is one optional carriage return and one newline; a last
    line that is not empty is returned also without a newline. *)
Definition dropCR (data : gostring) : gostring :=
  match rev data with
  | c :: r => if Byte.eqb c x0d then rev r else data
  | [] => data
  end.

Fixpoint scanLines_from (data : gostring) (line_rev : gostring) : list gostring :=
  match data with
  | [] =>
      match line_rev with
      | [] => []
      | _ :: _ => [dropCR (rev line_rev)]
      end
  | c :: t =>
      if Byte.eqb c x0a then dropCR (rev line_rev) :: scanLines_from t []
      else scanLines_from t (c :: line_rev)
  end.

Definition ScanLines (data : gostring) : list gostring :=
  scanLines_from data [].

(* ================================================================= *)
(** ** Package [strconv] *)

Inductive strconv_error : Type :=
| ErrSyntax   (* "invalid syntax" *)
| ErrRange.   (* "value out of range" *)

(** [*strconv.NumError] *)
Record NumError : Type := mkNumError {
  Func : gostring;
  Num : gostring;
  Err : strconv_error
}.

(** A decimal digit, as [Atoi] tests it: [ch -= '0'; if ch > 9] on a byte. *)
Definition digit_of_byte (ch : byte) : option Z :=
  let d := (byte_val ch - 48) mod 256 in
  if d >? 9 then None else Some d.

(** The fast path of [Atoi], for strings of fewer than 19 bytes. *)
Fixpoint atoi_digits (s : gostring) (n : Z) : option Z :=
  match s with
  | [] => Some n
  | ch :: t =>
      match digit_of_byte ch with
      | None => None
      | Some d => atoi_digits t (Int64.add (Int64.mul n 10) d)
      end
  end.

Definition maxUint64 : Z := 18446744073709551615.

(** The loop of [ParseUint(s, 10, 64)]: the first byte that is no digit is a
    syntax error, the first digit that takes the value past [maxUint64] is a
    range error. *)
Fixpoint parseUint_digits (s : gostring) (n : Z) : Z + strconv_error :=
  match s with
  | [] => inl n
  | c :: t =>
      if (48 <=? byte_val c) && (byte_val c <=? 57) then
        let d := byte_val c - 48 in
        if n >=? maxUint64 / 10 + 1 then inr ErrRange
        else
          let n10 := n * 10 in
          let n1 := (n10 + d) mod Int64.modulus in
          if (n1 <? n10) || (n1 >? maxUint64) then inr ErrRange
          else parseUint_digits t n1
      else inr ErrSyntax
  end.

Definition ParseUint (s : gostring) : Z + strconv_error :=
  match s with
  | [] => inr ErrSyntax
  | _ :: _ => parseUint_digits s 0
  end.

(** [ParseInt(s, 10, 0)] with a 64-bit [int]. *)
Definition ParseInt (s : gostring) : Z + strconv_error :=
  match s with
  | [] => inr ErrSyntax
  | c :: t =>
      let neg := Byte.eqb c x2d in
      let digits := if Byte.eqb c x2b || Byte.eqb c x2d then t else s in
      match ParseUint digits with
      | inr e => inr e
      | inl un =>
          let cutoff := Int64.half_modulus in
          if negb neg && (un >=? cutoff) then inr ErrRange
          else if neg && (un >? cutoff) then inr ErrRange
          else
            let n := Int64.wrap un in
            inl (if neg then Int64.neg n else n)
      end
  end.

(** [strconv.Atoi], for an [int] of 64 bits: strings of 1 to 18 bytes take
    the fast path, all others go through [ParseInt]. *)
Definition Atoi (s : gostring) : Z + NumError :=
  let fnAtoi := str "Atoi" in
  let sLen := Z.of_nat (List.length s) in
  if (0 <? sLen) && (sLen <? 19) then
    match s with
    | [] => inr (mkNumError fnAtoi s ErrSyntax)
    | c :: t =>
        let signed := Byte.eqb c x2d || Byte.eqb c x2b in
        let digits := if signed then t else s in
        if signed && (Z.of_nat (List.length digits) <? 1)
        then inr (mkNumError fnAtoi s ErrSyntax)
        else
          match atoi_digits digits 0 with
          | None => inr (mkNumError fnAtoi s ErrSyntax)
          | Some n => inl (if Byte.eqb c x2d then Int64.neg n else n)
          end
    end
  else
    match ParseInt s with
    | inl i64 => inl i64
    | inr e => inr (mkNumError fnAtoi s e)
    end.

(* ================================================================= *)
(** ** Package [regexp] *)

(** The fragment of the syntax the two timing patterns are written in.  All
    of it is ASCII, and an ASCII byte is never part of a longer UTF-8
    sequence, so matching runs over the bytes. *)
Inductive regex : Type :=
| Empty                                  (* the empty pattern *)
| Class (p : byte -> bool)               (* a character class: [\d], [\s] *)
| Lit (c : byte)                         (* one literal character *)
| Seq (r1 r2 : regex)                    (* concatenation *)
| PlusClass (p : byte -> bool)           (* [c+] for a class [c], greedy *)
| Group (i : nat) (r : regex).           (* the i-th capturing group *)

(** [r{n}] *)
Fixpoint Repeat (n : nat) (r : regex) : regex :=
  match n with
  | O => Empty
  | S k => Seq r (Repeat k r)
  end.

(** [\d] is [[0-9]] and [\s] is [[\t\n\f\r ]]. *)
Definition perl_d (c : byte) : bool :=
  (48 <=? byte_val c) && (byte_val c <=? 57).

Definition perl_s (c : byte) : bool :=
  Byte.eqb c x09 || Byte.eqb c x0a || Byte.eqb c x0c || Byte.eqb c x0d
  || Byte.eqb c x20.

(** One way of matching a pattern at the start of a string: the text
    consumed, the text left, the captures made. *)
Definition captures : Type := list (nat * gostring).
Definition submatch : Type := (gostring * gostring * captures)%type.

(** The ways of matching [c+], longest first. *)
Fixpoint run_plus (p : byte -> bool) (s : gostring) : list (gostring * gostring) :=
  match s with
  | [] => []
  | c :: t =>
      if p c
      then map (fun m => (c :: fst m, snd m)) (run_plus p t) ++ [([c], t)]
      else []
  end.

(** All the ways of matching [r] at the start of [s], in the order in which
    a backtracking matcher tries them; the first one is the match the
    package reports (leftmost-first semantics). *)
Fixpoint run (r : regex) (s : gostring) : list submatch :=
  match r with
  | Empty => [([], s, [])]
  | Class p =>
      match s with
      | c :: t => if p c then [([c], t, [])] else []
      | [] => []
      end
  | Lit c0 =>
      match s with
      | c :: t => if Byte.eqb c c0 then [([c], t, [])] else []
      | [] => []
      end
  | Seq r1 r2 =>
      flat_map
        (fun m1 : submatch =>
           let '(w1, rest1, caps1) := m1 in
           map (fun m2 : submatch =>
                  let '(w2, rest2, caps2) := m2 in
                  (w1 ++ w2, rest2, caps1 ++ caps2))
               (run r2 rest1))
        (run r1 s)
  | PlusClass p => map (fun m => (fst m, snd m, [])) (run_plus p s)
  | Group i r0 =>
      map (fun m : submatch =>
             let '(w, rest, caps) := m in (w, rest, caps ++ [(i, w)]))
          (run r0 s)
  end.

(** The leftmost position at which the pattern matches. *)
Fixpoint find_leftmost (r : regex) (s : gostring) : option submatch :=
  match run r s with
  | m :: _ => Some m
  | [] =>
      match s with
      | [] => None
      | _ :: t => find_leftmost r t
      end
  end.

(** The last capture of group [i], if the group took part in the match. *)
Fixpoint lookup_capture (i : nat) (caps : captures) : option gostring :=
  match caps with
  | [] => None
  | (j, w) :: rest =>
      match lookup_capture i rest with
      | Some found => Some found
      | None => if Nat.eqb i j then Some w else None
      end
  end.

(** The text reported for group [i]: the empty string when the group took no
    part in the match. *)
Definition capture (i : nat) (caps : captures) : gostring :=
  match lookup_capture i caps with
  | Some w => w
  | None => []
  end.

(** [Regexp.NumSubexp] *)
Fixpoint NumSubexp (r : regex) : nat :=
  match r with
  | Seq r1 r2 => NumSubexp r1 + NumSubexp r2
  | Group _ r0 => S (NumSubexp r0)
  | _ => O
  end.

(** [Regexp.FindStringSubmatch]: [nil] when there is no match, otherwise
    the text of the leftmost match followed by the text of each group. *)
Definition FindStringSubmatch (r : regex) (s : gostring) : list gostring :=
  match find_leftmost r s with
  | None => []
  | Some (w, _, caps) =>
      w :: map (fun i => capture i caps) (seq 1 (NumSubexp r))
  end.

(* ================================================================= *)
(** ** Errors *)

(** The error values of the program, one constructor for each place that
    makes one. *)
Inductive error : Type :=
| ErrInvalidTimeFormat (timeStr : gostring)
    (* fmt.Errorf("invalid time format: %s", timeStr) *)
| ErrInvalidSecondsFormat (part : gostring)
    (* fmt.Errorf("invalid seconds format: %s", parts[2]) *)
| ErrNum (e : NumError)
    (* the *strconv.NumError of strconv.Atoi, returned as it is *)
| ErrParsingStartTime (cause : error)
    (* fmt.Errorf("error parsing start time: %v", err) *)
| ErrParsingEndTime (cause : error)
    (* fmt.Errorf("error parsing end time: %v", err) *)
| ErrScanner (msg : gostring).
    (* what scanner.Err() reports: a read error or bufio.ErrTooLong *)

Definition result (A : Type) : Type := (A + error)%type.

Definition ret {A : Type} (a : A) : result A := inl a.

Definition bind {A B : Type} (m : result A) (k : A -> result B) : result B :=
  match m with
  | inl a => k a
  | inr e => inr e
  end.

Notation "x <- m ;; k" := (bind m (fun x => k))
  (at level 61, m at next level, right associativity).

(** [v, err := strconv.Atoi(s); if err != nil { return 0, err }] *)
Definition atoi (s : gostring) : result Z :=
  match Atoi s with
  | inl n => inl n
  | inr e => inr (ErrNum e)
  end.

(** [parts[i]] of a slice whose length was checked. *)
Definition index (parts : list gostring) (i : nat) : gostring := nth i parts [].

(* ================================================================= *)
(** ** [internal/parse]: the timestamp codec *)

Definition parseSRTTime (timeStr : gostring) : result Duration :=
  let parts := Split timeStr ":" in
  if negb (Nat.eqb (List.length parts) 3) then inr (ErrInvalidTimeFormat timeStr)
  else
    hours <- atoi (index parts 0) ;;
    minutes <- atoi (index parts 1) ;;
    let secParts := Split (index parts 2) "," in
    if negb (Nat.eqb (List.length secParts) 2)
    then inr (ErrInvalidSecondsFormat (index parts 2))
    else
      seconds <- atoi (index secParts 0) ;;
      milliseconds <- atoi (index secParts 1) ;;
      let totalMilliseconds :=
        Int64.add
          (Int64.add
             (Int64.add (Int64.mul hours 3600000) (Int64.mul minutes 60000))
             (Int64.mul seconds 1000))
          milliseconds in
      ret (Int64.mul totalMilliseconds Millisecond).

Definition parseWebVTTTime (timeStr : gostring) : result Duration :=
  let parts := Split timeStr ":" in
  if negb (Nat.eqb (List.length parts) 3) then inr (ErrInvalidTimeFormat timeStr)
  else
    hours <- atoi (index parts 0) ;;
    minutes <- atoi (index parts 1) ;;
    let secParts := Split (index parts 2) "." in
    if negb (Nat.eqb (List.length secParts) 2)
    then inr (ErrInvalidSecondsFormat (index parts 2))
    else
      seconds <- atoi (index secParts 0) ;;
      milliseconds <- atoi (index secParts 1) ;;
      let totalMilliseconds :=
        Int64.add
          (Int64.add
             (Int64.add (Int64.mul hours 3600000) (Int64.mul minutes 60000))
             (Int64.mul seconds 1000))
          milliseconds in
      ret (Int64.mul totalMilliseconds Millisecond).

(* ================================================================= *)
(** ** [internal/parse]: the block scanners *)

(** [\d{2}:\d{2}:\d{2},\d{3}] and [\d{2}:\d{2}:\d{2}\.\d{3}] *)
Definition stampRegex (sep : byte) : regex :=
  Seq (Repeat 2 (Class perl_d))
    (Seq (Lit ":")
       (Seq (Repeat 2 (Class perl_d))
          (Seq (Lit ":")
             (Seq (Repeat 2 (Class perl_d))
                (Seq (Lit sep) (Repeat 3 (Class perl_d))))))).

(** [(stamp)\s+-->\s+(stamp)] *)
Definition timingRegex (sep : byte) : regex :=
  Seq (Group 1 (stampRegex sep))
    (Seq (PlusClass perl_s)
       (Seq (Lit "-")
          (Seq (Lit "-")
             (Seq (Lit ">")
                (Seq (PlusClass perl_s) (Group 2 (stampRegex sep))))))).

(** [regexp.MustCompile(`(\d{2}:\d{2}:\d{2},\d{3})\s+-->\s+(\d{2}:\d{2}:\d{2},\d{3})`)] *)
Definition srtTimeRegex : regex := timingRegex ",".

(** [regexp.MustCompile(`(\d{2}:\d{2}:\d{2}\.\d{3})\s+-->\s+(\d{2}:\d{2}:\d{2}\.\d{3})`)] *)
Definition vttTimeRegex : regex := timingRegex ".".

Definition setText (c : CaptionEntry) (text : gostring) : CaptionEntry :=
  mkCaptionEntry (StartTime c) (EndTime c) text.

Definition setStartTime (c : CaptionEntry) (t : Duration) : CaptionEntry :=
  mkCaptionEntry t (EndTime c) (Text c).

Definition setEndTime (c : CaptionEntry) (t : Duration) : CaptionEntry :=
  mkCaptionEntry (StartTime c) t (Text c).

(** The local variables of [ParseSRT] that live across the iterations of its
    loop. *)
Record srt_state : Type := mkSrtState {
  captions : list CaptionEntry;
  currentEntry : CaptionEntry;
  textLines : list gostring;
  expectingSequence : bool
}.

Definition srt_init : srt_state := mkSrtState [] zeroCaptionEntry [] true.

(** The body of [for scanner.Scan()] in [ParseSRT], on the text of one line:
    the next state, or the error the function returns with. *)
Definition ParseSRT_line (st : srt_state) (text : gostring) : result srt_state :=
  let line := TrimSpace text in
  if isEmpty line then
    if 0 <? Z.of_nat (List.length (textLines st)) then
      let entry := setText (currentEntry st) (Join (textLines st) (str " ")) in
      ret (mkSrtState (captions st ++ [entry]) entry [] true)
    else ret (mkSrtState (captions st) (currentEntry st) (textLines st) true)
  else if expectingSequence st then
    ret (mkSrtState (captions st) (currentEntry st) (textLines st) false)
  else
    let matches := FindStringSubmatch srtTimeRegex line in
    if Nat.eqb (List.length matches) 3 then
      match parseSRTTime (index matches 1) with
      | inr err => inr (ErrParsingStartTime err)
      | inl startTime =>
          match parseSRTTime (index matches 2) with
          | inr err => inr (ErrParsingEndTime err)
          | inl endTime =>
              ret (mkSrtState (captions st)
                     (setEndTime (setStartTime (currentEntry st) startTime) endTime)
                     (textLines st) (expectingSequence st))
          end
      end
    else
      ret (mkSrtState (captions st) (currentEntry st)
             (textLines st ++ [line]) (expectingSequence st)).

Fixpoint ParseSRT_loop (lines : list gostring) (st : srt_state) : result srt_state :=
  match lines with
  | [] => ret st
  | text :: rest =>
      st' <- ParseSRT_line st text ;;
      ParseSRT_loop rest st'
  end.

(** [ParseSRT]: the reader is given by the lines its scanner yields and by
    the error [scanner.Err()] reports when they are exhausted. *)
Definition ParseSRT (lines : list gostring) (scanErr : option error)
  : list CaptionEntry * option error :=
  match ParseSRT_loop lines srt_init with
  | inr err => ([], Some err)
  | inl st =>
      if 0 <? Z.of_nat (List.length (textLines st)) then
        let entry := setText (currentEntry st) (Join (textLines st) (str " ")) in
        (captions st ++ [entry], scanErr)
      else (captions st, scanErr)
  end.

(** The local variables of [ParseWebVTT]. *)
Record vtt_state : Type := mkVttState {
  vtt_captions : list CaptionEntry;
  vtt_currentEntry : CaptionEntry;
  vtt_textLines : list gostring;
  inHeader : bool
}.

Definition vtt_init : vtt_state := mkVttState [] zeroCaptionEntry [] true.

(** The part of the loop body of [ParseWebVTT] below the header test. *)
Definition ParseWebVTT_block (st : vtt_state) (line : gostring) : result vtt_state :=
  if isEmpty line then
    if 0 <? Z.of_nat (List.length (vtt_textLines st)) then
      let entry :=
        setText (vtt_currentEntry st) (Join (vtt_textLines st) (str " ")) in
      ret (mkVttState (vtt_captions st ++ [entry]) entry [] (inHeader st))
    else ret st
  else
    let matches := FindStringSubmatch vttTimeRegex line in
    if Nat.eqb (List.length matches) 3 then
      match parseWebVTTTime (index matches 1) with
      | inr err => inr (ErrParsingStartTime err)
      | inl startTime =>
          match parseWebVTTTime (index matches 2) with
          | inr err => inr (ErrParsingEndTime err)
          | inl endTime =>
              ret (mkVttState (vtt_captions st)
                     (setEndTime (setStartTime (vtt_currentEntry st) startTime)
                        endTime)
                     (vtt_textLines st) (inHeader st))
          end
      end
    else
      ret (mkVttState (vtt_captions st) (vtt_currentEntry st)
             (vtt_textLines st ++ [line]) (inHeader st)).

(** The body of [for scanner.Scan()] in [ParseWebVTT]. *)
Definition ParseWebVTT_line (st : vtt_state) (text : gostring) : result vtt_state :=
  let line := TrimSpace text in
  if inHeader st then
    if isEmpty line || HasPrefix line (str "WEBVTT") || HasPrefix line (str "NOTE")
    then ret st
    else
      ParseWebVTT_block
        (mkVttState (vtt_captions st) (vtt_currentEntry st) (vtt_textLines st)
           false)
        line
  else ParseWebVTT_block st line.

Fixpoint ParseWebVTT_loop (lines : list gostring) (st : vtt_state) : result vtt_state :=
  match lines with
  | [] => ret st
  | text :: rest =>
      st' <- ParseWebVTT_line st text ;;
      ParseWebVTT_loop rest st'
  end.

Definition ParseWebVTT (lines : list gostring) (scanErr : option error)
  : list CaptionEntry * option error :=
  match ParseWebVTT_loop lines vtt_init with
  | inr err => ([], Some err)
  | inl st =>
      if 0 <? Z.of_nat (List.length (vtt_textLines st)) then
        let entry :=
          setText (vtt_currentEntry st) (Join (vtt_textLines st) (str " ")) in
        (vtt_captions st ++ [entry], scanErr)
      else (vtt_captions st, scanErr)
  end.

(* ================================================================= *)
(** ** [internal/parse]: the text aggregator *)

Definition ExtractAllText (captions : list CaptionEntry) : gostring :=
  let textParts :=
    fold_left
      (fun (textParts : list gostring) (caption : CaptionEntry) =>
         if negb (isEmpty (TrimSpace (Text caption)))
         then textParts ++ [Text caption]
         else textParts)
      captions [] in
  Join textParts (str " ").

(** [extractAllText] of [main.go], the same loop. *)
Definition extractAllText (captions : list CaptionEntry) : gostring :=
  let textParts :=
    fold_left
      (fun (textParts : list gostring) (caption : CaptionEntry) =>
         if negb (isEmpty (TrimSpace (Text caption)))
         then textParts ++ [Text caption]
         else textParts)
      captions [] in
  Join textParts (str " ").

(* ================================================================= *)
(** ** Predicates used in the statements *)

(** A white-space rune starts the string. *)
Definition leading_space (s : gostring) : bool :=
  match s with
  | [] => false
  | c1 :: t1 =>
      asciiSpace c1
      || match t1 with
         | [] => false
         | c2 :: t2 =>
             space2 c1 c2
             || match t2 with
                | [] => false
                | c3 :: _ => space3 c1 c2 c3
                end
         end
  end.

(** A line as the scanners keep it: trimmed and not empty. *)
Definition text_line (l : gostring) : Prop :=
  l <> [] /\ leading_space l = false.

(** The text of an entry that the aggregator keeps. *)
Definition nonblank (c : CaptionEntry) : Prop := TrimSpace (Text c) <> [].


(** The test of the aggregator: the text is not empty after trimming. *)
Definition kept (c : CaptionEntry) : bool :=
  negb (isEmpty (TrimSpace (Text c))).

(** An entry that carries only a text. *)
Definition entry_of_text (text : gostring) : CaptionEntry :=
  mkCaptionEntry 0 0 text.

(** The strings a pattern matches. *)
Fixpoint lang (r : regex) (w : gostring) : Prop :=
  match r with
  | Empty => w = []
  | Class p => exists c, w = [c] /\ p c = true
  | Lit c => w = [c]
  | Seq r1 r2 => exists w1 w2, w = w1 ++ w2 /\ lang r1 w1 /\ lang r2 w2
  | PlusClass p => w <> [] /\ forallb p w = true
  | Group _ r0 => lang r0 w
  end.

(** The pattern matches somewhere in the line. *)
Definition matches_somewhere (r : regex) (line : gostring) : Prop :=
  exists before w after, line = before ++ w ++ after /\ lang r w.

(** The value of a decimal digit. *)
Definition digit_value (c : byte) : Z := byte_val c - 48.

(** A timestamp [HH:MM:SS,mmm] (or with [.]) written with the digits given. *)
Definition stamp_text (sep : byte) (h1 h2 m1 m2 s1 s2 k1 k2 k3 : byte) : gostring :=
  [h1; h2; ":"; m1; m2; ":"; s1; s2; sep; k1; k2; k3].

(** [HH*3600000 + MM*60000 + SS*1000 + mmm] *)
Definition stamp_ms (h1 h2 m1 m2 s1 s2 k1 k2 k3 : byte) : Z :=
  (10 * digit_value h1 + digit_value h2) * 3600000
  + (10 * digit_value m1 + digit_value m2) * 60000
  + (10 * digit_value s1 + digit_value s2) * 1000
  + (100 * digit_value k1 + 10 * digit_value k2 + digit_value k3).

Definition all_digits (ds : list byte) : Prop :=
  Forall (fun c => perl_d c = true) ds.

Definition is_stamp (sep : byte) (w : gostring) : Prop :=
  exists h1 h2 m1 m2 s1 s2 k1 k2 k3,
    all_digits [h1; h2; m1; m2; s1; s2; k1; k2; k3]
    /\ w = stamp_text sep h1 h2 m1 m2 s1 s2 k1 k2 k3.

(** The two codecs are one function of the separator. *)
Definition parseClock (sep : byte) (timeStr : gostring) : result Duration :=
  let parts := Split timeStr ":" in
  if negb (Nat.eqb (List.length parts) 3) then inr (ErrInvalidTimeFormat timeStr)
  else
    hours <- atoi (index parts 0) ;;
    minutes <- atoi (index parts 1) ;;
    let secParts := Split (index parts 2) sep in
    if negb (Nat.eqb (List.length secParts) 2)
    then inr (ErrInvalidSecondsFormat (index parts 2))
    else
      seconds <- atoi (index secParts 0) ;;
      milliseconds <- atoi (index secParts 1) ;;
      let totalMilliseconds :=
        Int64.add
          (Int64.add
             (Int64.add (Int64.mul hours 3600000) (Int64.mul minutes 60000))
             (Int64.mul seconds 1000))
          milliseconds in
      ret (Int64.mul totalMilliseconds Millisecond).

(** What the scanners maintain: every entry put out has a text that the
    aggregator keeps, and every accumulated line is a trimmed, non-empty
    line. *)
Definition srt_inv (st : srt_state) : Prop :=
  Forall nonblank (captions st) /\ Forall text_line (textLines st).

Definition vtt_inv (st : vtt_state) : Prop :=
  Forall nonblank (vtt_captions st) /\ Forall text_line (vtt_textLines st).

(** The malformed timing line of the third end-to-end scenario. *)
Definition missing_arrow : gostring := str "00:00:01-00:00:04".

(** The digits of a number, without the sign [Atoi] accepts in front. *)
Definition strip_sign (s : gostring) : gostring :=
  match s with
  | [] => []
  | c :: t => if Byte.eqb c "-" || Byte.eqb c "+" then t else s
  end.

(** The error of the first component that [Atoi] rejects. *)
Fixpoint first_failure (components : list gostring) : option NumError :=
  match components with
  | [] => None
  | s :: rest =>
      match Atoi s with
      | inr e => Some e
      | inl _ => first_failure rest
      end
  end.

(** The failure modes of a codec with sub-second separator [sep], in the
    order in which the code tests for them. *)
Definition codec_failure_modes (parse : gostring -> result Duration)
    (sep : byte) (timeStr : gostring) : Prop :=
  let parts := Split timeStr ":" in
  let secParts := Split (index parts 2) sep in
  (List.length parts <> 3%nat ->
   parse timeStr = inr (ErrInvalidTimeFormat timeStr))
  /\ (List.length parts = 3%nat ->
      forall e, first_failure [index parts 0; index parts 1] = Some e ->
      parse timeStr = inr (ErrNum e))
  /\ (List.length parts = 3%nat ->
      first_failure [index parts 0; index parts 1] = None ->
      List.length secParts <> 2%nat ->
      parse timeStr = inr (ErrInvalidSecondsFormat (index parts 2)))
  /\ (List.length parts = 3%nat ->
      first_failure [index parts 0; index parts 1] = None ->
      List.length secParts = 2%nat ->
      forall e, first_failure [index secParts 0; index secParts 1] = Some e ->
      parse timeStr = inr (ErrNum e))
  /\ (List.length parts = 3%nat ->
      first_failure [index parts 0; index parts 1] = None ->
      List.length secParts = 2%nat ->
      first_failure [index secParts 0; index secParts 1] = None ->
      exists d, parse timeStr = inl d).
(** *** Sample entries *)

Definition entry_0_2 : CaptionEntry := mkCaptionEntry 0 (2 * Second) (str "a").
Definition entry_1_3 : CaptionEntry := mkCaptionEntry Second (3 * Second) (str "b").

(** An entry of 2^62 ns, about 146 years. *)
Definition long_window : Duration := 4611686018427387904.
Definition long_entry : CaptionEntry := mkCaptionEntry 0 long_window (str "c").


(* ================================================================= *)
(** ** Further predicates used in the statements *)

(** The largest timestamp the timing patterns can capture, [99:99:99,999],
    in milliseconds. *)
Definition max_clock_ms : Z := 362439999.

(** A duration the codec returns on a captured timestamp: a whole number of
    milliseconds from 0 to [max_clock_ms]. *)
Definition clock_time (d : Duration) : Prop :=
  exists ms, 0 <= ms <= max_clock_ms /\ d = ms * Millisecond.

Definition clock_entry (c : CaptionEntry) : Prop :=
  clock_time (StartTime c) /\ clock_time (EndTime c).

(** The number of entries with clock times whose overlaps cannot wrap the
    accumulator of the evaluator: the quotient of 2^63 - 1 ns by
    [max_clock_ms] milliseconds. *)
Definition safe_entry_count : Z := 25447.

(** The test [overlapStart < overlapEnd] of the coverage loop, as a test on
    the entry. *)
Definition overlapsb (tStart tEnd : Duration) (c : CaptionEntry) : bool :=
  MaxDuration (StartTime c) tStart <? MinDuration (EndTime c) tEnd.

(** A white-space rune ends the string whose reversal is [r]. *)
Definition leading_space_rev (r : gostring) : bool :=
  match r with
  | [] => false
  | c1 :: t1 =>
      asciiSpace c1
      || match t1 with
         | [] => false
         | c2 :: t2 =>
             space2 c2 c1
             || match t2 with
                | [] => false
                | c3 :: _ => space3 c3 c2 c1
                end
         end
  end.

(** A string that is not empty and neither starts nor ends with white
    space. *)
Definition trimmed (s : gostring) : Prop :=
  s <> [] /\ leading_space s = false /\ leading_space_rev (rev s) = false.



(** The transitions of the loop of [ParseSRT], on the trimmed line. *)
Inductive srt_step (st : srt_state) (line : gostring) : srt_state -> Prop :=
| srt_finalize :
    line = [] -> textLines st <> [] ->
    srt_step st line
      (mkSrtState
         (captions st ++ [setText (currentEntry st) (Join (textLines st) [x20])])
         (setText (currentEntry st) (Join (textLines st) [x20])) [] true)
| srt_blank :
    line = [] -> textLines st = [] ->
    srt_step st line (mkSrtState (captions st) (currentEntry st) [] true)
| srt_sequence :
    line <> [] -> expectingSequence st = true ->
    srt_step st line
      (mkSrtState (captions st) (currentEntry st) (textLines st) false)
| srt_timing (w w1 w2 : gostring) (startTime endTime : Duration) :
    line <> [] -> expectingSequence st = false ->
    FindStringSubmatch srtTimeRegex line = [w; w1; w2] ->
    is_stamp "," w1 -> is_stamp "," w2 ->
    parseSRTTime w1 = inl startTime -> parseSRTTime w2 = inl endTime ->
    srt_step st line
      (mkSrtState (captions st)
         (setEndTime (setStartTime (currentEntry st) startTime) endTime)
         (textLines st) false)
| srt_text :
    line <> [] -> expectingSequence st = false ->
    FindStringSubmatch srtTimeRegex line = [] ->
    srt_step st line
      (mkSrtState (captions st) (currentEntry st) (textLines st ++ [line]) false).

(** The transitions of the loop of [ParseWebVTT] below the header test. *)
Inductive vtt_block_step (st : vtt_state) (line : gostring) : vtt_state -> Prop :=
| vtt_finalize :
    line = [] -> vtt_textLines st <> [] ->
    vtt_block_step st line
      (mkVttState
         (vtt_captions st
          ++ [setText (vtt_currentEntry st) (Join (vtt_textLines st) [x20])])
         (setText (vtt_currentEntry st) (Join (vtt_textLines st) [x20])) []
         (inHeader st))
| vtt_blank :
    line = [] -> vtt_textLines st = [] ->
    vtt_block_step st line st
| vtt_timing (w w1 w2 : gostring) (startTime endTime : Duration) :
    line <> [] ->
    FindStringSubmatch vttTimeRegex line = [w; w1; w2] ->
    is_stamp "." w1 -> is_stamp "." w2 ->
    parseWebVTTTime w1 = inl startTime -> parseWebVTTTime w2 = inl endTime ->
    vtt_block_step st line
      (mkVttState (vtt_captions st)
         (setEndTime (setStartTime (vtt_currentEntry st) startTime) endTime)
         (vtt_textLines st) (inHeader st))
| vtt_text :
    line <> [] ->
    FindStringSubmatch vttTimeRegex line = [] ->
    vtt_block_step st line
      (mkVttState (vtt_captions st) (vtt_currentEntry st)
         (vtt_textLines st ++ [line]) (inHeader st)).

(** A line the header phase of [ParseWebVTT] skips. *)
Definition header_line (line : gostring) : bool :=
  isEmpty line || HasPrefix line (str "WEBVTT") || HasPrefix line (str "NOTE").

Inductive vtt_step (st : vtt_state) (line : gostring) : vtt_state -> Prop :=
| vtt_skip_header :
    inHeader st = true -> header_line line = true -> vtt_step st line st
| vtt_leave_header (st' : vtt_state) :
    inHeader st = true -> header_line line = false ->
    vtt_block_step
      (mkVttState (vtt_captions st) (vtt_currentEntry st) (vtt_textLines st)
         false)
      line st' ->
    vtt_step st line st'
| vtt_in_body (st' : vtt_state) :
    inHeader st = false -> vtt_block_step st line st' -> vtt_step st line st'.

(** What a parser returns when its loop ends in state [st]. *)
Definition srt_result (st : srt_state) : list CaptionEntry :=
  match textLines st with
  | [] => captions st
  | _ :: _ =>
      captions st ++ [setText (currentEntry st) (Join (textLines st) [x20])]
  end.

Definition vtt_result (st : vtt_state) : list CaptionEntry :=
  match vtt_textLines st with
  | [] => vtt_captions st
  | _ :: _ =>
      vtt_captions st
      ++ [setText (vtt_currentEntry st) (Join (vtt_textLines st) [x20])]
  end.

(** A line that is empty once trimmed. *)
Definition blank_line (text : gostring) : Prop := TrimSpace text = [].

(** An entry without timing: both times are the zero value. *)
Definition zero_timed (c : CaptionEntry) : Prop :=
  StartTime c = 0 /\ EndTime c = 0.

(** The state after a blank line: the pending block is closed. *)
Definition srt_closed (st : srt_state) : Prop :=
  textLines st = [] /\ expectingSequence st = true.

(* ================================================================= *)
(** ** File types: [IsValidFileType] and [ParseCaptionFile] *)

(** [a == b] on strings. *)
Fixpoint eqString (a b : gostring) : bool :=
  match a, b with
  | [], [] => true
  | x :: a', y :: b' => Byte.eqb x y && eqString a' b'
  | _, _ => false
  end.

Definition isASCII (c : byte) : bool := byte_val c <? 128.

Definition isUpperASCII (c : byte) : bool :=
  (65 <=? byte_val c) && (byte_val c <=? 90).

Definition isLowerASCII (c : byte) : bool :=
  (97 <=? byte_val c) && (byte_val c <=? 122).

Definition byte_of_Z (z : Z) : byte :=
  match Byte.of_N (Z.to_N z) with
  | Some b => b
  | None => x00
  end.

(** [c += 'a' - 'A'] on an upper-case ASCII letter. *)
Definition lowerASCII (c : byte) : byte :=
  if isUpperASCII c then byte_of_Z (byte_val c + 32) else c.

(** The errors of [ParseCaptionFile]: the error of [os.Open], the error
    for an extension it does not know, or the error of a parser. *)
Inductive file_error : Type :=
| ErrOpen (msg : gostring)
| ErrUnsupportedFileType (ext : gostring)
    (* fmt.Errorf("unsupported file type: %s", ext) *)
| ErrParse (e : error).

(** An open file: the lines a scanner reads from it and the error the
    scanner ends with. *)
Definition reader : Type := (list gostring * option error)%type.

Section FileTypes.

(** [os.IsPathSeparator], which depends on the platform. *)
Variable isPathSeparator : byte -> bool.

(** [strings.Map(unicode.ToLower, s)], which [strings.ToLower] falls back on
    for a string that is not all ASCII; it depends on the case tables of
    Unicode. *)
Variable unicodeToLower : gostring -> gostring.

(** [os.Open]: the file system. *)
Variable open : gostring -> reader + gostring.

(** The loop of [filepath.Ext], from the last byte of the path backwards:
    [suffix] is what has been passed. *)
Fixpoint ext_scan (path_rev suffix : gostring) : gostring :=
  match path_rev with
  | [] => []
  | c :: before =>
      if isPathSeparator c then []
      else if Byte.eqb c "." then c :: suffix
      else ext_scan before (c :: suffix)
  end.

(** [filepath.Ext]: the suffix beginning at the final dot in the final
    element of the path, empty if there is no dot. *)
Definition Ext (path : gostring) : gostring := ext_scan (rev path) [].

(** [strings.ToLower]. *)
Definition ToLower (s : gostring) : gostring :=
  if forallb isASCII s then
    if existsb isUpperASCII s then map lowerASCII s else s
  else unicodeToLower s.

Definition IsValidFileType (filePath : gostring) : bool :=
  let ext := ToLower (Ext filePath) in
  eqString ext (str ".vtt") || eqString ext (str ".srt").

(** [isValidFileType] of [main.go]. *)
Definition isValidFileType (filePath : gostring) : bool :=
  let ext := ToLower (Ext filePath) in
  eqString ext (str ".vtt") || eqString ext (str ".srt").

(** The result of a parser as the result of [ParseCaptionFile]. *)
Definition parsed (r : list CaptionEntry * option error)
  : list CaptionEntry * option file_error :=
  (fst r, option_map ErrParse (snd r)).

Definition ParseCaptionFile (filePath : gostring)
  : list CaptionEntry * option file_error :=
  match open filePath with
  | inr err => ([], Some (ErrOpen err))
  | inl file =>
      let ext := ToLower (Ext filePath) in
      if eqString ext (str ".vtt") then parsed (ParseWebVTT (fst file) (snd file))
      else if eqString ext (str ".srt")
           then parsed (ParseSRT (fst file) (snd file))
           else ([], Some (ErrUnsupportedFileType ext))
  end.

End FileTypes.

(** The separator of Unix paths. *)
Definition unixPathSeparator (c : byte) : bool := Byte.eqb c "/".

(** An extension that is [target] but for the case of its letters. *)
Definition ext_like (target e : gostring) : Prop := map lowerASCII e = target.

(** The number a string of decimal digits denotes. *)
Definition decimal_from (n : Z) (ds : gostring) : Z :=
  fold_left (fun n c => n * 10 + digit_value c) ds n.

Definition decimal (ds : gostring) : Z := decimal_from 0 ds.

(** A number as [Atoi] takes it on its fast path without a sign: 1 to 18
    decimal digits. *)
Definition digit_string (ds : gostring) : Prop :=
  all_digits ds /\ (1 <= List.length ds <= 18)%nat.

(* ================================================================= *)
(** ** [internal/cmd]: the configuration *)

Record Config : Type := mkConfig {
  FilePath : gostring;
  TStart : Duration;
  TEnd : Duration;
  Coverage : float;
  Endpoint : gostring
}.

(** The errors of [ParseFlags], one for each [fmt.Errorf]. *)
Inductive flag_error : Type :=
| ErrFilePathRequired              (* "file path is required" *)
| ErrEndTimeRequired               (* "end time is required" *)
| ErrEndpointRequired              (* "endpoint URL is required" *)
| ErrInvalidStartTime (cause : gostring)
    (* fmt.Errorf("invalid start time format: %v", err) *)
| ErrInvalidEndTime (cause : gostring)
    (* fmt.Errorf("invalid end time format: %v", err) *)
| ErrStartNotBeforeEnd             (* "start time must be less than end time" *)
| ErrCoverageOutOfRange.           (* "coverage must be between 0.0 and 1.0" *)

Section Flags.

(** [time.ParseDuration] of the Go library. *)
Variable ParseDuration : gostring -> Duration + gostring.

(** [ParseFlags], from the values of the five flags as [flag.Parse] leaves
    them. *)
Definition ParseFlags (filePath tStart tEnd : gostring) (coverage : float)
    (endpoint : gostring) : Config + flag_error :=
  if isEmpty filePath then inr ErrFilePathRequired
  else if isEmpty tEnd then inr ErrEndTimeRequired
  else if isEmpty endpoint then inr ErrEndpointRequired
  else
    match ParseDuration tStart with
    | inr err => inr (ErrInvalidStartTime err)
    | inl startTime =>
        match ParseDuration tEnd with
        | inr err => inr (ErrInvalidEndTime err)
        | inl endTime =>
            if startTime >=? endTime then inr ErrStartNotBeforeEnd
            else if PrimFloat.ltb coverage 0 || PrimFloat.ltb 1 coverage
                 then inr ErrCoverageOutOfRange
                 else inl (mkConfig filePath startTime endTime coverage endpoint)
        end
    end.

End Flags.

(** *** Samples for the file types and the flags *)

(** The lines of a caption file with one cue, read without error. *)
Definition sample_file : reader :=
  ([str "1"; str "00:00:01,000 --> 00:00:04,000"; str "Hello"], None).

(** A file system that holds that file under every path. *)
Definition sample_open (path : gostring) : reader + gostring :=
  inl sample_file.

(** A stand-in for [time.ParseDuration] that knows two durations. *)
Definition sample_ParseDuration (s : gostring) : Duration + gostring :=
  if eqString s (str "0s") then inl 0
  else if eqString s (str "10s") then inl (10 * Second)
  else inr (str "invalid duration").
(* ================================================================= *)
(** * Properties *)

(** ** Arithmetic of [int64] *)

Section Int64Facts.

Import Int64.

Lemma int64_wrap_in_range (z : Z) : in_range (wrap z).
  Proof.
    unfold in_range, wrap, min_int, max_int, half_modulus, modulus.
    pose proof (Z.mod_pos_bound (z + 9223372036854775808) 18446744073709551616).
    lia.
  Qed.

Lemma int64_wrap_small (z : Z) : in_range z -> wrap z = z.
  Proof.
    unfold in_range, wrap, min_int, max_int, half_modulus, modulus.
    intros H. rewrite Z.mod_small; lia.
  Qed.

Lemma int64_wrap_add_l (a b : Z) : wrap (wrap a + b) = wrap (a + b).
  Proof.
    unfold wrap.
    replace ((a + half_modulus) mod modulus - half_modulus + b + half_modulus)
      with ((a + half_modulus) mod modulus + b) by lia.
    rewrite Zplus_mod_idemp_l.
    f_equal. f_equal. lia.
  Qed.

Lemma int64_add_0_r (a : Z) : in_range a -> add a 0 = a.
  Proof. intros H. unfold add. rewrite Z.add_0_r. now apply int64_wrap_small. Qed.

End Int64Facts.

(** ** The coverage loop *)

Section Coverage.

Variables tStart tEnd : Duration.
Hypothesis tStart_int64 : Int64.in_range tStart.
Hypothesis tEnd_int64 : Int64.in_range tEnd.

  (** The window passes the guard [totalRange <= 0] of the evaluator. *)
Hypothesis window_accepted : 0 < Int64.sub tEnd tStart.

Lemma window_accepted_length :
    tStart < tEnd -> tEnd - tStart <= Int64.max_int.
  Proof.
    intros Hlt. revert window_accepted. clear - tStart_int64 tEnd_int64 Hlt.
    unfold Int64.sub, Int64.wrap, Int64.in_range, Int64.min_int, Int64.max_int,
      Int64.half_modulus, Int64.modulus in *.
    intros Hw.
    destruct (Z_le_gt_dec (tEnd - tStart) 9223372036854775807) as [Hle | Hgt];
      [ exact Hle | exfalso ].
    replace (tEnd - tStart + 9223372036854775808)
      with (tEnd - tStart - 9223372036854775808 + 1 * 18446744073709551616)
      in Hw by lia.
    rewrite Z_mod_plus_full in Hw.
    rewrite Z.mod_small in Hw; lia.
  Qed.

  (** One iteration adds the entry's overlap, in [int64] arithmetic. *)
Lemma coverage_step_overlap (acc : Duration) (c : CaptionEntry) :
    wf_entry c -> Int64.in_range acc ->
    coverage_step tStart tEnd acc c
    = Int64.wrap (acc + entry_overlap tStart tEnd c).
  Proof.
    intros [Hs He] Hacc.
    unfold coverage_step, entry_overlap, MaxDuration, MinDuration.
    assert (Hmax : (if StartTime c >? tStart then StartTime c else tStart)
                   = Z.max (StartTime c) tStart).
    { destruct (Z.gtb_spec (StartTime c) tStart); lia. }
    assert (Hmin : (if EndTime c <? tEnd then EndTime c else tEnd)
                   = Z.min (EndTime c) tEnd).
    { destruct (Z.ltb_spec (EndTime c) tEnd); lia. }
    rewrite Hmax, Hmin.
    destruct (Z.ltb_spec (Z.max (StartTime c) tStart) (Z.min (EndTime c) tEnd))
      as [Hlt | Hge].
    - assert (Hw : tStart < tEnd) by lia.
      pose proof (window_accepted_length Hw) as Hlen.
      unfold Int64.add, Int64.sub.
      rewrite (int64_wrap_small
                 (Z.min (EndTime c) tEnd - Z.max (StartTime c) tStart)).
      + f_equal. lia.
      + unfold Int64.in_range, Int64.min_int, Int64.max_int in *. lia.
    - replace (Z.max 0 (Z.min (EndTime c) tEnd - Z.max (StartTime c) tStart))
        with 0 by lia.
      rewrite Z.add_0_r. symmetry. now apply int64_wrap_small.
  Qed.

End Coverage.

(** The loop computes the sum of the overlaps, reduced to [int64]. *)
Lemma coverage_fold_overlap_sum (tStart tEnd : Duration)
    (captions : list CaptionEntry) :
  Int64.in_range tStart -> Int64.in_range tEnd ->
  0 < Int64.sub tEnd tStart ->
  Forall wf_entry captions ->
  forall acc, Int64.in_range acc ->
    fold_left (coverage_step tStart tEnd) captions acc
    = Int64.wrap (acc + overlap_sum captions tStart tEnd).
Proof.
  intros Hs He Hw Hwf.
  induction Hwf as [| c l Hc Hl IH]; intros acc Hacc; simpl.
  - rewrite Z.add_0_r. symmetry. now apply int64_wrap_small.
  - rewrite (coverage_step_overlap tStart tEnd Hs He Hw acc c Hc Hacc).
    rewrite IH by apply int64_wrap_in_range.
    unfold overlap_sum. simpl.
    rewrite int64_wrap_add_l. f_equal. lia.
Qed.

Lemma entry_overlap_nonneg (tStart tEnd : Z) (c : CaptionEntry) :
  0 <= entry_overlap tStart tEnd c.
Proof. unfold entry_overlap. lia. Qed.

Lemma overlap_sum_nonneg (captions : list CaptionEntry) (tStart tEnd : Z) :
  0 <= overlap_sum captions tStart tEnd.
Proof.
  unfold overlap_sum.
  induction captions as [| c l IH]; simpl; [ lia | ].
  pose proof (entry_overlap_nonneg tStart tEnd c). lia.
Qed.

Lemma overlap_sum_app (l1 l2 : list CaptionEntry) (tStart tEnd : Z) :
  overlap_sum (l1 ++ l2) tStart tEnd
  = overlap_sum l1 tStart tEnd + overlap_sum l2 tStart tEnd.
Proof.
  unfold overlap_sum. induction l1 as [| c l IH]; simpl; [ reflexivity | ].
  rewrite IH. lia.
Qed.

Lemma coveredDuration_in_range (captions : list CaptionEntry)
    (tStart tEnd : Duration) :
  Int64.in_range tStart -> Int64.in_range tEnd ->
  0 < Int64.sub tEnd tStart ->
  Forall wf_entry captions ->
  Int64.in_range (coveredDuration captions tStart tEnd).
Proof.
  intros Hs He Hw Hwf. unfold coveredDuration.
  rewrite (coverage_fold_overlap_sum tStart tEnd captions Hs He Hw Hwf 0).
  - apply int64_wrap_in_range.
  - unfold Int64.in_range, Int64.min_int, Int64.max_int. lia.
Qed.

Lemma coveredDuration_snoc (captions : list CaptionEntry) (c : CaptionEntry)
    (tStart tEnd : Duration) :
  coveredDuration (captions ++ [c]) tStart tEnd
  = coverage_step tStart tEnd (coveredDuration captions tStart tEnd) c.
Proof. unfold coveredDuration. now rewrite fold_left_app. Qed.

(** The copy in [main.go] is the same function. *)
Lemma validateCoverage_eq (captions : list CaptionEntry)
    (tStart tEnd : Duration) (requiredCoverage : float) :
  validateCoverage captions tStart tEnd requiredCoverage
  = ValidateCoverage captions tStart tEnd requiredCoverage.
Proof. reflexivity. Qed.

(** An entry with [start >= end] leaves the accumulator as it is. *)
Lemma coverage_step_inverted (tStart tEnd acc : Duration) (c : CaptionEntry) :
  StartTime c >= EndTime c -> coverage_step tStart tEnd acc c = acc.
Proof.
  intros Hinv. unfold coverage_step, MaxDuration, MinDuration.
  destruct (Z.gtb_spec (StartTime c) tStart);
    destruct (Z.ltb_spec (EndTime c) tEnd);
    match goal with
    | |- (if ?a <? ?b then _ else _) = _ => destruct (Z.ltb_spec a b)
    end; solve [ reflexivity | lia ].
Qed.

(** *** Examples *)

Example coverage_double_count :
  coveredDuration [entry_0_2; entry_1_3] 0 (3 * Second) = 4 * Second.
Proof. reflexivity. Qed.

Example coverage_overlapping_captions_test :
  ValidateCoverage [entry_0_2; entry_1_3] 0 (3 * Second) 1%float = true.
Proof. vm_compute. reflexivity. Qed.

(** A window that is covered already still gains the whole overlap of one
    more entry. *)
Example coverage_full_window_still_grows :
  coveredDuration [mkCaptionEntry 0 (3 * Second) []] 0 (3 * Second) = 3 * Second
  /\ coveredDuration ([mkCaptionEntry 0 (3 * Second) []] ++ [entry_1_3])
       0 (3 * Second) = 5 * Second.
Proof. split; reflexivity. Qed.

(** A caption file of 25621 cues [00:00:00,000 --> 99:59:59,999] against the
    window from 0 to 100 hours already wraps the accumulator. *)
Example coverage_wraps_on_long_file :
  let cue := mkCaptionEntry 0 (359999999 * Millisecond) (str "x") in
  let captions := repeat cue (Z.to_nat 25621) in
  overlap_sum captions 0 (360000 * Second) = 9223559974379000000
  /\ coveredDuration captions 0 (360000 * Second) = -9223184099330551616.
Proof. vm_compute. split; reflexivity. Qed.

(* ================================================================= *)
(** ** White space and trimming *)

#[local] Arguments asciiSpace : simpl never.
#[local] Arguments space2 : simpl never.
#[local] Arguments space3 : simpl never.

Lemma TrimLeftSpace_fixed (s : gostring) :
  leading_space s = false -> TrimLeftSpace s = s.
Proof.
  destruct s as [| c1 [| c2 [| c3 t3]]]; cbn [leading_space TrimLeftSpace];
    try reflexivity.
  - destruct (asciiSpace c1); simpl; congruence.
  - destruct (asciiSpace c1), (space2 c1 c2); simpl; congruence.
  - destruct (asciiSpace c1), (space2 c1 c2), (space3 c1 c2 c3); simpl;
      congruence.
Qed.

Lemma leading_space_app_false (p q : gostring) :
  leading_space (p ++ q) = false -> leading_space p = false.
Proof.
  destruct p as [| c1 [| c2 [| c3 t3]]]; try reflexivity.
  - destruct q as [| c2 [| c3 t3]]; cbn [leading_space app];
      destruct (asciiSpace c1); simpl; congruence.
  - destruct q as [| c3 t3]; cbn [leading_space app];
      destruct (asciiSpace c1), (space2 c1 c2); simpl; congruence.
  - intros H. exact H.
Qed.

Lemma leading_space_app_true (p q : gostring) :
  leading_space p = true -> leading_space (p ++ q) = true.
Proof.
  intros H. destruct (leading_space (p ++ q)) eqn:E; [ reflexivity | ].
  apply leading_space_app_false in E. congruence.
Qed.

(** What is left of a left trim does not start with white space. *)
Lemma TrimLeftSpace_no_leading_space (s : gostring) :
  leading_space (TrimLeftSpace s) = false.
Proof.
  assert (H : forall n s, (List.length s <= n)%nat ->
                          leading_space (TrimLeftSpace s) = false).
  { clear s. induction n as [| n IH]; intros s Hlen.
    - destruct s; [ reflexivity | simpl in Hlen; lia ].
    - destruct s as [| c1 t1]; [ reflexivity | ].
      simpl in Hlen. simpl TrimLeftSpace.
      destruct (asciiSpace c1) eqn:E1; [ apply IH; lia | ].
      destruct t1 as [| c2 t2]; [ simpl; now rewrite E1 | ].
      simpl in Hlen.
      destruct (space2 c1 c2) eqn:E2; [ apply IH; lia | ].
      destruct t2 as [| c3 t3]; [ simpl; now rewrite E1, E2 | ].
      simpl in Hlen.
      destruct (space3 c1 c2 c3) eqn:E3; [ apply IH; lia | ].
      simpl. now rewrite E1, E2, E3. }
  apply (H (List.length s)). lia.
Qed.

(** The backward scan removes a suffix. *)
Lemma trimLeftSpace_rev_suffix (r : gostring) :
  exists k, r = k ++ trimLeftSpace_rev r.
Proof.
  assert (H : forall n r, (List.length r <= n)%nat ->
                          exists k, r = k ++ trimLeftSpace_rev r).
  { clear r. induction n as [| n IH]; intros r Hlen.
    - destruct r; [ now exists [] | simpl in Hlen; lia ].
    - destruct r as [| c1 t1]; [ now exists [] | ].
      simpl in Hlen. simpl trimLeftSpace_rev.
      destruct (asciiSpace c1).
      { destruct (IH t1) as [k Hk]; [ lia | ].
        exists (c1 :: k). simpl. now rewrite <- Hk. }
      destruct t1 as [| c2 t2]; [ now exists [] | ].
      simpl in Hlen.
      destruct (space2 c2 c1).
      { destruct (IH t2) as [k Hk]; [ lia | ].
        exists (c1 :: c2 :: k). simpl. now rewrite <- Hk. }
      destruct t2 as [| c3 t3]; [ now exists [] | ].
      simpl in Hlen.
      destruct (space3 c3 c2 c1).
      { destruct (IH t3) as [k Hk]; [ lia | ].
        exists (c1 :: c2 :: c3 :: k). simpl. now rewrite <- Hk. }
      now exists []. }
  apply (H (List.length r)). lia.
Qed.

Lemma TrimRightSpace_prefix (s : gostring) :
  exists q, s = TrimRightSpace s ++ q.
Proof.
  unfold TrimRightSpace.
  destruct (trimLeftSpace_rev_suffix (rev s)) as [k Hk].
  exists (rev k).
  rewrite <- rev_app_distr, <- Hk. now rewrite rev_involutive.
Qed.

(** When the backward scan eats the whole string, the string is made of
    white-space runes, and so it starts with one. *)
Lemma trimLeftSpace_rev_nil (r : gostring) :
  trimLeftSpace_rev r = [] -> r = [] \/ leading_space (rev r) = true.
Proof.
  assert (H : forall n r, (List.length r <= n)%nat ->
            trimLeftSpace_rev r = [] -> r = [] \/ leading_space (rev r) = true).
  { clear r. induction n as [| n IH]; intros r Hlen Hnil.
    - destruct r; [ now left | simpl in Hlen; lia ].
    - destruct r as [| c1 t1]; [ now left | right ].
      simpl in Hlen. simpl in Hnil.
      destruct (asciiSpace c1) eqn:E1.
      { destruct (IH t1) as [-> | Hlead]; [ lia | exact Hnil | | ].
        - simpl. now rewrite E1.
        - simpl. now apply leading_space_app_true. }
      destruct t1 as [| c2 t2]; [ discriminate | ].
      simpl in Hlen.
      destruct (space2 c2 c1) eqn:E2.
      { destruct (IH t2) as [-> | Hlead]; [ lia | exact Hnil | | ].
        - simpl. rewrite E2. now rewrite orb_true_r.
        - simpl. rewrite <- app_assoc. now apply leading_space_app_true. }
      destruct t2 as [| c3 t3]; [ discriminate | ].
      simpl in Hlen.
      destruct (space3 c3 c2 c1) eqn:E3; [ | discriminate ].
      destruct (IH t3) as [-> | Hlead]; [ lia | exact Hnil | | ].
      + simpl. rewrite E3. now rewrite !orb_true_r.
      + simpl. rewrite <- !app_assoc. now apply leading_space_app_true. }
  apply (H (List.length r)). lia.
Qed.

Lemma TrimSpace_no_leading_space (s : gostring) :
  leading_space (TrimSpace s) = false.
Proof.
  unfold TrimSpace.
  destruct (TrimRightSpace_prefix (TrimLeftSpace s)) as [q Hq].
  apply (leading_space_app_false _ q).
  rewrite <- Hq. apply TrimLeftSpace_no_leading_space.
Qed.

(** A string that is not empty and does not start with white space is not
    trimmed away. *)
Lemma TrimSpace_nonempty (s : gostring) :
  s <> [] -> leading_space s = false -> TrimSpace s <> [].
Proof.
  intros Hne Hlead Htrim. unfold TrimSpace in Htrim.
  rewrite (TrimLeftSpace_fixed s Hlead) in Htrim.
  unfold TrimRightSpace in Htrim.
  assert (Hnil : trimLeftSpace_rev (rev s) = []).
  { rewrite <- (rev_involutive (trimLeftSpace_rev (rev s))).
    now rewrite Htrim. }
  apply trimLeftSpace_rev_nil in Hnil.
  destruct Hnil as [Hrev | Hl].
  - apply Hne. rewrite <- (rev_involutive s). now rewrite Hrev.
  - rewrite rev_involutive in Hl. congruence.
Qed.

Lemma TrimSpace_text_line (text : gostring) :
  isEmpty (TrimSpace text) = false -> text_line (TrimSpace text).
Proof.
  intros H. split.
  - intros E. rewrite E in H. discriminate.
  - apply TrimSpace_no_leading_space.
Qed.

(** A space after a text line does not make it start with white space. *)
Lemma space2_blank (c1 : byte) : space2 c1 x20 = false.
Proof. unfold space2. simpl. now rewrite andb_false_r. Qed.

Lemma space3_blank_2 (c1 c3 : byte) : space3 c1 x20 c3 = false.
Proof.
  unfold space3. simpl. now rewrite !andb_false_r.
Qed.

Lemma space3_blank_3 (c1 c2 : byte) : space3 c1 c2 x20 = false.
Proof.
  unfold space3, byte_val. simpl. now rewrite !andb_false_r.
Qed.

Lemma leading_space_before_blank (l rest : gostring) :
  text_line l -> leading_space (l ++ x20 :: rest) = false.
Proof.
  intros [Hne Hlead].
  destruct l as [| c1 [| c2 [| c3 t3]]]; [ congruence | | | exact Hlead ].
  - cbn [leading_space app] in *.
    rewrite space2_blank.
    destruct rest as [| c3 t3]; [ | rewrite space3_blank_2 ];
      destruct (asciiSpace c1); simpl in *; congruence.
  - cbn [leading_space app] in *.
    rewrite space3_blank_3.
    destruct (asciiSpace c1), (space2 c1 c2); simpl in *; congruence.
Qed.

(** The join of text lines is kept by the aggregator. *)
Lemma Join_text_lines_nonblank (lines : list gostring) :
  lines <> [] -> Forall text_line lines ->
  TrimSpace (Join lines (str " ")) <> [].
Proof.
  intros Hne Hall.
  destruct lines as [| l rest]; [ congruence | ].
  inversion Hall as [| ? ? Hl Hrest]; subst.
  destruct rest as [| l2 rest].
  - simpl. destruct Hl as [Hl1 Hl2]. now apply TrimSpace_nonempty.
  - change (Join (l :: l2 :: rest) (str " "))
      with (l ++ x20 :: Join (l2 :: rest) (str " ")).
    apply TrimSpace_nonempty.
    + destruct Hl as [Hl1 _]. destruct l; [ congruence | discriminate ].
    + now apply leading_space_before_blank.
Qed.

(* ================================================================= *)
(** ** The text aggregator *)

Lemma extract_loop_filter (captions : list CaptionEntry) (textParts : list gostring) :
  fold_left
    (fun (textParts : list gostring) (caption : CaptionEntry) =>
       if negb (isEmpty (TrimSpace (Text caption)))
       then textParts ++ [Text caption]
       else textParts)
    captions textParts
  = textParts ++ map Text (filter kept captions).
Proof.
  revert textParts.
  induction captions as [| c l IH]; intros textParts; simpl.
  - now rewrite app_nil_r.
  - rewrite IH. unfold kept at 2.
    destruct (negb (isEmpty (TrimSpace (Text c)))); simpl.
    + now rewrite <- app_assoc.
    + reflexivity.
Qed.

Lemma ExtractAllText_filter (captions : list CaptionEntry) :
  ExtractAllText captions = Join (map Text (filter kept captions)) (str " ").
Proof. unfold ExtractAllText. now rewrite extract_loop_filter. Qed.

Lemma filter_kept_nonblank (captions : list CaptionEntry) :
  Forall nonblank captions -> filter kept captions = captions.
Proof.
  induction 1 as [| c l Hc Hl IH]; simpl; [ reflexivity | ].
  unfold kept at 1. unfold nonblank in Hc.
  destruct (TrimSpace (Text c)); [ congruence | ].
  simpl. now rewrite IH.
Qed.

Lemma filter_kept_blank (captions : list CaptionEntry) :
  Forall (fun c => TrimSpace (Text c) = []) captions ->
  filter kept captions = [].
Proof.
  induction 1 as [| c l Hc Hl IH]; simpl; [ reflexivity | ].
  unfold kept at 1. now rewrite Hc.
Qed.

Lemma kept_iff (c : CaptionEntry) :
  kept c = true <-> TrimSpace (Text c) <> [].
Proof.
  unfold kept. destruct (TrimSpace (Text c)); simpl; split; congruence.
Qed.

(* ================================================================= *)
(** ** The matcher and the language of a pattern *)

Lemma run_plus_sound (p : byte -> bool) (s w rest : gostring) :
  In (w, rest) (run_plus p s) ->
  s = w ++ rest /\ w <> [] /\ forallb p w = true.
Proof.
  revert w rest. induction s as [| c t IH]; intros w rest Hin; simpl in Hin.
  - contradiction.
  - destruct (p c) eqn:Ep; [ | contradiction ].
    apply in_app_or in Hin. destruct Hin as [Hin | Hin].
    + apply in_map_iff in Hin. destruct Hin as [[w' rest'] [Heq Hin']].
      simpl in Heq. inversion Heq; subst.
      destruct (IH _ _ Hin') as [Hs [Hne Hall]].
      split; [ simpl; now rewrite <- Hs | ].
      split; [ discriminate | ].
      simpl. now rewrite Ep, Hall.
    + destruct Hin as [Heq | []]. inversion Heq; subst.
      split; [ reflexivity | ].
      split; [ discriminate | ].
      simpl. now rewrite Ep.
Qed.

Lemma run_plus_complete (p : byte -> bool) (w rest : gostring) :
  w <> [] -> forallb p w = true -> In (w, rest) (run_plus p (w ++ rest)).
Proof.
  induction w as [| c t IH]; intros Hne Hall; [ congruence | ].
  simpl in Hall. apply andb_prop in Hall. destruct Hall as [Hc Ht].
  simpl. rewrite Hc. apply in_or_app.
  destruct t as [| c' t'].
  - right. simpl. now left.
  - left. apply in_map_iff. exists (c' :: t', rest). split; [ reflexivity | ].
    apply IH; [ discriminate | exact Ht ].
Qed.

Lemma run_Seq_inv (r1 r2 : regex) (s w rest : gostring) (caps : captures) :
  In (w, rest, caps) (run (Seq r1 r2) s) ->
  exists w1 rest1 caps1 w2 caps2,
    In (w1, rest1, caps1) (run r1 s)
    /\ In (w2, rest, caps2) (run r2 rest1)
    /\ w = w1 ++ w2 /\ caps = caps1 ++ caps2.
Proof.
  cbn [run]. intros Hin.
  apply in_flat_map in Hin. destruct Hin as [[[w1 rest1] caps1] [H1 Hin]].
  apply in_map_iff in Hin. destruct Hin as [[[w2 rest2] caps2] [Heq H2]].
  inversion Heq; subst.
  exists w1, rest1, caps1, w2, caps2. auto.
Qed.

Lemma run_Group_inv (i : nat) (r : regex) (s w rest : gostring) (caps : captures) :
  In (w, rest, caps) (run (Group i r) s) ->
  exists caps0, In (w, rest, caps0) (run r s) /\ caps = caps0 ++ [(i, w)].
Proof.
  cbn [run]. intros Hin.
  apply in_map_iff in Hin. destruct Hin as [[[w0 rest0] caps0] [Heq H0]].
  inversion Heq; subst. eauto.
Qed.

(** Every way of matching consumes a string of the language. *)
Lemma run_sound (r : regex) :
  forall s w rest caps,
    In (w, rest, caps) (run r s) -> s = w ++ rest /\ lang r w.
Proof.
  induction r as [| p | c0 | r1 IH1 r2 IH2 | p | i r0 IH0];
    intros s w rest caps Hin.
  - simpl in Hin. destruct Hin as [Heq | []]. inversion Heq; subst.
    split; reflexivity.
  - simpl in Hin. destruct s as [| c t]; [ contradiction | ].
    destruct (p c) eqn:Ep; [ | contradiction ].
    destruct Hin as [Heq | []]. inversion Heq; subst.
    split; [ reflexivity | ]. exists c. auto.
  - simpl in Hin. destruct s as [| c t]; [ contradiction | ].
    destruct (Byte.eqb c c0) eqn:Ec; [ | contradiction ].
    destruct Hin as [Heq | []]. inversion Heq; subst.
    apply Byte.byte_dec_bl in Ec. subst.
    split; reflexivity.
  - apply run_Seq_inv in Hin.
    destruct Hin as (w1 & rest1 & caps1 & w2 & caps2 & H1 & H2 & Hw & _).
    destruct (IH1 _ _ _ _ H1) as [Hs1 Hl1].
    destruct (IH2 _ _ _ _ H2) as [Hs2 Hl2].
    subst. split; [ now rewrite app_assoc | ].
    cbn [lang]. eauto.
  - cbn [run] in Hin. apply in_map_iff in Hin.
    destruct Hin as [[w0 rest0] [Heq H0]]. simpl in Heq.
    inversion Heq; subst.
    destruct (run_plus_sound _ _ _ _ H0) as [Hs [Hne Hall]].
    split; [ exact Hs | ]. cbn [lang]. auto.
  - apply run_Group_inv in Hin. destruct Hin as [caps0 [H0 _]].
    cbn [lang]. eauto.
Qed.

(** Every string of the language is found by the matcher. *)
Lemma run_complete (r : regex) :
  forall w rest, lang r w -> exists caps, In (w, rest, caps) (run r (w ++ rest)).
Proof.
  induction r as [| p | c0 | r1 IH1 r2 IH2 | p | i r0 IH0];
    intros w rest Hl; cbn [lang] in Hl.
  - subst. exists []. simpl. now left.
  - destruct Hl as [c [-> Hp]]. exists []. simpl. rewrite Hp. now left.
  - subst. exists []. simpl.
    rewrite (Byte.byte_dec_lb (eq_refl c0)). now left.
  - destruct Hl as (w1 & w2 & -> & Hl1 & Hl2).
    destruct (IH1 w1 (w2 ++ rest) Hl1) as [caps1 H1].
    destruct (IH2 w2 rest Hl2) as [caps2 H2].
    exists (caps1 ++ caps2). cbn [run].
    rewrite <- app_assoc.
    apply in_flat_map. exists (w1, w2 ++ rest, caps1). split; [ exact H1 | ].
    apply in_map_iff. exists (w2, rest, caps2). auto.
  - destruct Hl as [Hne Hall]. exists []. cbn [run].
    apply in_map_iff. exists (w, rest). split; [ reflexivity | ].
    now apply run_plus_complete.
  - destruct (IH0 w rest Hl) as [caps0 H0].
    exists (caps0 ++ [(i, w)]). cbn [run].
    apply in_map_iff. exists (w, rest, caps0). auto.
Qed.

(** A pattern without groups captures nothing. *)
Lemma run_no_group (r : regex) :
  NumSubexp r = O ->
  forall s w rest caps, In (w, rest, caps) (run r s) -> caps = [].
Proof.
  induction r as [| p | c0 | r1 IH1 r2 IH2 | p | i r0 IH0];
    intros Hn s w rest caps Hin.
  - simpl in Hin. destruct Hin as [Heq | []]. now inversion Heq.
  - simpl in Hin. destruct s as [| c t]; [ contradiction | ].
    destruct (p c); [ | contradiction ].
    destruct Hin as [Heq | []]. now inversion Heq.
  - simpl in Hin. destruct s as [| c t]; [ contradiction | ].
    destruct (Byte.eqb c c0); [ | contradiction ].
    destruct Hin as [Heq | []]. now inversion Heq.
  - simpl in Hn. apply Nat.eq_add_0 in Hn. destruct Hn as [Hn1 Hn2].
    apply run_Seq_inv in Hin.
    destruct Hin as (w1 & rest1 & caps1 & w2 & caps2 & H1 & H2 & _ & ->).
    rewrite (IH1 Hn1 _ _ _ _ H1), (IH2 Hn2 _ _ _ _ H2). reflexivity.
  - cbn [run] in Hin. apply in_map_iff in Hin.
    destruct Hin as [[w0 rest0] [Heq _]]. now inversion Heq.
  - simpl in Hn. discriminate.
Qed.

(** What [find_leftmost] returns is a way of matching at some position. *)
Lemma find_leftmost_some (r : regex) (s : gostring) (m : submatch) :
  find_leftmost r s = Some m ->
  exists before after, s = before ++ after /\ In m (run r after).
Proof.
  induction s as [| c t IH]; simpl.
  - destruct (run r []) as [| m0 l] eqn:E; [ discriminate | ].
    intros Heq. inversion Heq; subst. exists [], []. split; [ reflexivity | ].
    rewrite E. now left.
  - destruct (run r (c :: t)) as [| m0 l] eqn:E.
    + intros Hf. destruct (IH Hf) as (before & after & -> & Hin).
      exists (c :: before), after. auto.
    + intros Heq. inversion Heq; subst. exists [], (c :: t).
      split; [ reflexivity | ]. rewrite E. now left.
Qed.

Lemma find_leftmost_none (r : regex) (s : gostring) :
  find_leftmost r s = None ->
  forall before after, s = before ++ after -> run r after = [].
Proof.
  induction s as [| c t IH]; simpl.
  - destruct (run r []) as [| m0 l] eqn:E; [ | discriminate ].
    intros _ before after Heq. symmetry in Heq.
    apply app_eq_nil in Heq. destruct Heq as [_ ->]. exact E.
  - destruct (run r (c :: t)) as [| m0 l] eqn:E; [ | discriminate ].
    intros Hf before after Heq.
    destruct before as [| b before'].
    + simpl in Heq. now subst.
    + simpl in Heq. inversion Heq; subst. now apply (IH Hf before').
Qed.

(** [FindStringSubmatch] returns [nil] exactly when no part of the line is a
    string of the pattern. *)
Lemma FindStringSubmatch_nil_iff (r : regex) (line : gostring) :
  FindStringSubmatch r line = [] <-> ~ matches_somewhere r line.
Proof.
  unfold FindStringSubmatch, matches_somewhere. split.
  - destruct (find_leftmost r line) as [[[w rest] caps] |] eqn:E;
      [ discriminate | ].
    intros _ (before & w & after & Heq & Hl).
    destruct (run_complete r w after Hl) as [caps Hin].
    rewrite (find_leftmost_none r line E before (w ++ after) Heq) in Hin.
    contradiction.
  - intros Hno.
    destruct (find_leftmost r line) as [[[w rest] caps] |] eqn:E;
      [ | reflexivity ].
    exfalso. apply Hno.
    destruct (find_leftmost_some r line _ E) as (before & after & Heq & Hin).
    destruct (run_sound r _ _ _ _ Hin) as [Hs Hl].
    exists before, w, rest. subst. auto.
Qed.

(* ================================================================= *)
(** ** The timing pattern captures timestamps *)

Lemma lang_stamp (sep : byte) (w : gostring) :
  lang (stampRegex sep) w -> is_stamp sep w.
Proof.
  unfold stampRegex. cbn [lang Repeat]. intros H.
  repeat match goal with
         | H : exists _, _ |- _ => destruct H
         | H : _ /\ _ |- _ => destruct H
         end.
  subst. cbn [app].
  unfold is_stamp, all_digits, stamp_text.
  do 9 eexists. split; [ | reflexivity ].
  repeat constructor; assumption.
Qed.

Lemma stampRegex_no_group (sep : byte) : NumSubexp (stampRegex sep) = O.
Proof. reflexivity. Qed.

Lemma timing_run_captures (sep : byte) (s w rest : gostring) (caps : captures) :
  In (w, rest, caps) (run (timingRegex sep) s) ->
  exists w1 w2,
    caps = [(1%nat, w1); (2%nat, w2)] /\ is_stamp sep w1 /\ is_stamp sep w2.
Proof.
  unfold timingRegex. intros Hin.
  apply run_Seq_inv in Hin.
  destruct Hin as (w1 & rest1 & caps1 & wa & capsa & Hg1 & Hin & _ & ->).
  apply run_Group_inv in Hg1. destruct Hg1 as [c1 [Hs1 ->]].
  rewrite (run_no_group _ (stampRegex_no_group sep) _ _ _ _ Hs1).
  apply run_sound in Hs1. destruct Hs1 as [_ Hl1].
  apply run_Seq_inv in Hin.
  destruct Hin as (wb & restb & capsb & wc & capsc & Hb & Hin & _ & ->).
  rewrite (run_no_group (PlusClass perl_s) eq_refl _ _ _ _ Hb).
  apply run_Seq_inv in Hin.
  destruct Hin as (wd & restd & capsd & we & capse & Hd & Hin & _ & ->).
  rewrite (run_no_group (Lit "-") eq_refl _ _ _ _ Hd).
  apply run_Seq_inv in Hin.
  destruct Hin as (wf & restf & capsf & wg & capsg & Hf & Hin & _ & ->).
  rewrite (run_no_group (Lit "-") eq_refl _ _ _ _ Hf).
  apply run_Seq_inv in Hin.
  destruct Hin as (wh & resth & capsh & wi & capsi & Hh & Hin & _ & ->).
  rewrite (run_no_group (Lit ">") eq_refl _ _ _ _ Hh).
  apply run_Seq_inv in Hin.
  destruct Hin as (wj & restj & capsj & w2 & caps2 & Hj & Hg2 & _ & ->).
  rewrite (run_no_group (PlusClass perl_s) eq_refl _ _ _ _ Hj).
  apply run_Group_inv in Hg2. destruct Hg2 as [c2 [Hs2 ->]].
  rewrite (run_no_group _ (stampRegex_no_group sep) _ _ _ _ Hs2).
  apply run_sound in Hs2. destruct Hs2 as [_ Hl2].
  exists w1, w2. simpl.
  split; [ reflexivity | ].
  split; now apply lang_stamp.
Qed.

(** The result of [FindStringSubmatch] on a timing pattern is [nil] or the
    match and two timestamps. *)
Lemma FindStringSubmatch_timing (sep : byte) (line : gostring) :
  FindStringSubmatch (timingRegex sep) line = []
  \/ exists w w1 w2,
       FindStringSubmatch (timingRegex sep) line = [w; w1; w2]
       /\ is_stamp sep w1 /\ is_stamp sep w2.
Proof.
  unfold FindStringSubmatch.
  destruct (find_leftmost (timingRegex sep) line) as [[[w rest] caps] |] eqn:E;
    [ right | now left ].
  destruct (find_leftmost_some _ _ _ E) as (before & after & _ & Hin).
  destruct (timing_run_captures sep _ _ _ _ Hin) as (w1 & w2 & -> & H1 & H2).
  exists w, w1, w2. split; [ reflexivity | auto ].
Qed.

(* ================================================================= *)
(** ** Digits, [Split] and [Atoi] *)

#[local] Arguments Byte.eqb : simpl never.
#[local] Arguments byte_val : simpl never.
#[local] Arguments perl_d : simpl never.

Lemma perl_d_range (c : byte) :
  perl_d c = true -> 0 <= digit_value c <= 9.
Proof.
  unfold perl_d, digit_value. intros H.
  apply andb_prop in H. destruct H as [H1 H2].
  apply Z.leb_le in H1. apply Z.leb_le in H2. lia.
Qed.

Lemma perl_d_digit_of_byte (c : byte) :
  perl_d c = true -> digit_of_byte c = Some (digit_value c).
Proof.
  intros H. pose proof (perl_d_range c H) as Hr.
  unfold digit_of_byte. fold (digit_value c).
  rewrite Z.mod_small by lia.
  destruct (Z.gtb_spec (digit_value c) 9); [ lia | reflexivity ].
Qed.

(** A digit is none of the other characters of a timestamp. *)
Lemma perl_d_neq (c k : byte) :
  perl_d c = true -> perl_d k = false -> Byte.eqb c k = false.
Proof.
  intros Hc Hk. destruct (Byte.eqb c k) eqn:E; [ | reflexivity ].
  apply Byte.byte_dec_bl in E. subst. congruence.
Qed.

Lemma Split_no_sep (p : gostring) (sep : byte) :
  Forall (fun c => Byte.eqb c sep = false) p -> Split p sep = [p].
Proof.
  induction 1 as [| c t Hc Ht IH]; [ reflexivity | ].
  cbn [Split]. now rewrite Hc, IH.
Qed.

Lemma Split_at_sep (p t : gostring) (sep : byte) :
  Forall (fun c => Byte.eqb c sep = false) p ->
  Split (p ++ sep :: t) sep = p :: Split t sep.
Proof.
  induction 1 as [| c p' Hc Hp IH]; cbn [Split app].
  - now rewrite (Byte.byte_dec_lb (eq_refl sep)).
  - now rewrite Hc, IH.
Qed.

(** [Split] returns one piece more than there are separators. *)
Lemma Split_length (s : gostring) (sep : byte) :
  List.length (Split s sep)
  = S (List.length (filter (fun c => Byte.eqb c sep) s)).
Proof.
  induction s as [| c t IH]; [ reflexivity | ].
  cbn [Split filter]. destruct (Byte.eqb c sep).
  - simpl. now rewrite IH.
  - destruct (Split t sep) as [| piece pieces]; simpl in *; lia.
Qed.

Lemma int64_small_digit (z : Z) : 0 <= z <= 999 -> Int64.wrap z = z.
Proof.
  intros H. apply int64_wrap_small.
  unfold Int64.in_range, Int64.min_int, Int64.max_int. lia.
Qed.

Lemma Atoi_2_digits (a b : byte) :
  perl_d a = true -> perl_d b = true ->
  Atoi [a; b] = inl (10 * digit_value a + digit_value b).
Proof.
  intros Ha Hb.
  pose proof (perl_d_range a Ha). pose proof (perl_d_range b Hb).
  unfold Atoi. cbn [List.length Z.of_nat Pos.of_succ_nat Pos.succ].
  change ((0 <? 2) && (2 <? 19)) with true. cbv iota.
  rewrite (perl_d_neq a x2d Ha eq_refl), (perl_d_neq a x2b Ha eq_refl).
  cbn [orb andb atoi_digits].
  rewrite (perl_d_digit_of_byte a Ha), (perl_d_digit_of_byte b Hb).
  unfold Int64.add, Int64.mul.
  rewrite Z.mul_0_l.
  rewrite (int64_small_digit 0) by lia. rewrite Z.add_0_l.
  rewrite (int64_small_digit (digit_value a)) by lia.
  rewrite (int64_small_digit (digit_value a * 10)) by lia.
  rewrite (int64_small_digit (digit_value a * 10 + digit_value b)) by lia.
  f_equal. lia.
Qed.

Lemma Atoi_3_digits (a b c : byte) :
  perl_d a = true -> perl_d b = true -> perl_d c = true ->
  Atoi [a; b; c] = inl (100 * digit_value a + 10 * digit_value b + digit_value c).
Proof.
  intros Ha Hb Hc.
  pose proof (perl_d_range a Ha). pose proof (perl_d_range b Hb).
  pose proof (perl_d_range c Hc).
  unfold Atoi. cbn [List.length Z.of_nat Pos.of_succ_nat Pos.succ].
  change ((0 <? 3) && (3 <? 19)) with true. cbv iota.
  rewrite (perl_d_neq a x2d Ha eq_refl), (perl_d_neq a x2b Ha eq_refl).
  cbn [orb andb atoi_digits].
  rewrite (perl_d_digit_of_byte a Ha), (perl_d_digit_of_byte b Hb),
    (perl_d_digit_of_byte c Hc).
  unfold Int64.add, Int64.mul.
  rewrite Z.mul_0_l.
  rewrite (int64_small_digit 0) by lia. rewrite Z.add_0_l.
  rewrite (int64_small_digit (digit_value a)) by lia.
  rewrite (int64_small_digit (digit_value a * 10)) by lia.
  rewrite (int64_small_digit (digit_value a * 10 + digit_value b)) by lia.
  rewrite (int64_small_digit ((digit_value a * 10 + digit_value b) * 10)) by lia.
  rewrite (int64_small_digit
             ((digit_value a * 10 + digit_value b) * 10 + digit_value c)) by lia.
  f_equal. lia.
Qed.

(* ================================================================= *)
(** ** The codec on a timestamp *)

Lemma parseSRTTime_parseClock (timeStr : gostring) :
  parseSRTTime timeStr = parseClock "," timeStr.
Proof. reflexivity. Qed.

Lemma parseWebVTTTime_parseClock (timeStr : gostring) :
  parseWebVTTTime timeStr = parseClock "." timeStr.
Proof. reflexivity. Qed.

Ltac reduce_inner_wrap :=
  match goal with
  | |- context [Int64.wrap ?z] =>
      lazymatch z with
      | context [Int64.wrap _] => fail
      | _ =>
          rewrite (int64_wrap_small z)
            by (unfold Int64.in_range, Int64.min_int, Int64.max_int; lia)
      end
  end.

Lemma parseClock_stamp (sep h1 h2 m1 m2 s1 s2 k1 k2 k3 : byte) :
  perl_d sep = false -> Byte.eqb sep ":" = false ->
  all_digits [h1; h2; m1; m2; s1; s2; k1; k2; k3] ->
  parseClock sep (stamp_text sep h1 h2 m1 m2 s1 s2 k1 k2 k3)
  = inl (stamp_ms h1 h2 m1 m2 s1 s2 k1 k2 k3 * Millisecond).
Proof.
  intros Hsep Hsepc Hd.
  unfold all_digits in Hd.
  repeat match goal with
         | H : Forall _ (_ :: _) |- _ => inversion H; clear H; subst
         | H : Forall _ [] |- _ => clear H
         end.
  assert (Hcolon : forall c, perl_d c = true -> Byte.eqb c ":" = false)
    by (intros c Hc; now apply perl_d_neq).
  assert (Hs : forall c, perl_d c = true -> Byte.eqb c sep = false)
    by (intros c Hc; now apply perl_d_neq).
  unfold parseClock.
  change (stamp_text sep h1 h2 m1 m2 s1 s2 k1 k2 k3)
    with ([h1; h2] ++ ":" :: ([m1; m2] ++ ":" :: [s1; s2; sep; k1; k2; k3])).
  rewrite Split_at_sep by (repeat constructor; auto).
  rewrite Split_at_sep by (repeat constructor; auto).
  rewrite Split_no_sep by (repeat constructor; auto).
  cbn [List.length Nat.eqb negb index nth].
  unfold atoi. rewrite !Atoi_2_digits by assumption. cbn [bind].
  change [s1; s2; sep; k1; k2; k3] with ([s1; s2] ++ sep :: [k1; k2; k3]).
  rewrite Split_at_sep by (repeat constructor; auto).
  rewrite Split_no_sep by (repeat constructor; auto).
  cbn [List.length Nat.eqb negb index nth].
  rewrite Atoi_2_digits, Atoi_3_digits by assumption. cbn [bind].
  unfold ret, stamp_ms, Int64.add, Int64.mul, Millisecond.
  repeat match goal with
         | H : perl_d ?c = true |- _ =>
             pose proof (perl_d_range c H); clear H
         end.
  repeat reduce_inner_wrap.
  reflexivity.
Qed.

Lemma parseClock_is_stamp (sep : byte) (w : gostring) :
  perl_d sep = false -> Byte.eqb sep ":" = false -> is_stamp sep w ->
  exists d, parseClock sep w = inl d.
Proof.
  intros Hsep Hc (h1 & h2 & m1 & m2 & s1 & s2 & k1 & k2 & k3 & Hd & ->).
  eexists. now apply parseClock_stamp.
Qed.

(* ================================================================= *)
(** ** The block scanners *)

Lemma comma_not_digit : perl_d "," = false /\ Byte.eqb "," ":" = false.
Proof. split; reflexivity. Qed.

Lemma period_not_digit : perl_d "." = false /\ Byte.eqb "." ":" = false.
Proof. split; reflexivity. Qed.

Lemma parseSRTTime_is_stamp (w : gostring) :
  is_stamp "," w -> exists d, parseSRTTime w = inl d.
Proof.
  intros H. rewrite parseSRTTime_parseClock.
  now apply parseClock_is_stamp.
Qed.

Lemma parseWebVTTTime_is_stamp (w : gostring) :
  is_stamp "." w -> exists d, parseWebVTTTime w = inl d.
Proof.
  intros H. rewrite parseWebVTTTime_parseClock.
  now apply parseClock_is_stamp.
Qed.

(** The loop body of [ParseSRT] never takes an error exit. *)
Lemma ParseSRT_line_total (st : srt_state) (text : gostring) :
  exists st', ParseSRT_line st text = inl st'.
Proof.
  unfold ParseSRT_line, ret.
  destruct (isEmpty (TrimSpace text)).
  { destruct (0 <? Z.of_nat (List.length (textLines st))); eauto. }
  destruct (expectingSequence st); [ eauto | ].
  unfold srtTimeRegex.
  destruct (FindStringSubmatch_timing "," (TrimSpace text))
    as [-> | (w & w1 & w2 & -> & H1 & H2)].
  - cbn [List.length Nat.eqb]. eauto.
  - cbn [List.length Nat.eqb index nth].
    destruct (parseSRTTime_is_stamp w1 H1) as [d1 ->].
    destruct (parseSRTTime_is_stamp w2 H2) as [d2 ->].
    eauto.
Qed.

Lemma ParseSRT_loop_total (lines : list gostring) :
  forall st, exists st', ParseSRT_loop lines st = inl st'.
Proof.
  induction lines as [| text rest IH]; intros st; cbn [ParseSRT_loop].
  - unfold ret. eauto.
  - destruct (ParseSRT_line_total st text) as [st1 ->]. cbn [bind].
    apply IH.
Qed.

Lemma ParseWebVTT_block_total (st : vtt_state) (line : gostring) :
  exists st', ParseWebVTT_block st line = inl st'.
Proof.
  unfold ParseWebVTT_block, ret.
  destruct (isEmpty line).
  { destruct (0 <? Z.of_nat (List.length (vtt_textLines st))); eauto. }
  unfold vttTimeRegex.
  destruct (FindStringSubmatch_timing "." line)
    as [-> | (w & w1 & w2 & -> & H1 & H2)].
  - cbn [List.length Nat.eqb]. eauto.
  - cbn [List.length Nat.eqb index nth].
    destruct (parseWebVTTTime_is_stamp w1 H1) as [d1 ->].
    destruct (parseWebVTTTime_is_stamp w2 H2) as [d2 ->].
    eauto.
Qed.

Lemma ParseWebVTT_line_total (st : vtt_state) (text : gostring) :
  exists st', ParseWebVTT_line st text = inl st'.
Proof.
  unfold ParseWebVTT_line.
  destruct (inHeader st); [ | apply ParseWebVTT_block_total ].
  destruct (isEmpty (TrimSpace text) || HasPrefix (TrimSpace text) (str "WEBVTT")
            || HasPrefix (TrimSpace text) (str "NOTE")).
  - unfold ret. eauto.
  - apply ParseWebVTT_block_total.
Qed.

Lemma ParseWebVTT_loop_total (lines : list gostring) :
  forall st, exists st', ParseWebVTT_loop lines st = inl st'.
Proof.
  induction lines as [| text rest IH]; intros st; cbn [ParseWebVTT_loop].
  - unfold ret. eauto.
  - destruct (ParseWebVTT_line_total st text) as [st1 ->]. cbn [bind].
    apply IH.
Qed.

(** *** The invariant of the loops *)

Lemma length_pos_nonempty (A : Type) (l : list A) :
  (0 <? Z.of_nat (List.length l)) = true -> l <> [].
Proof. destruct l; [ discriminate | discriminate ]. Qed.

Lemma srt_inv_init : srt_inv srt_init.
Proof. split; constructor. Qed.

Lemma vtt_inv_init : vtt_inv vtt_init.
Proof. split; constructor. Qed.

Lemma finalized_entry_nonblank (entry : CaptionEntry) (lines : list gostring) :
  (0 <? Z.of_nat (List.length lines)) = true -> Forall text_line lines ->
  nonblank (setText entry (Join lines (str " "))).
Proof.
  intros Hlen Hall. unfold nonblank, setText. cbn [Text].
  apply Join_text_lines_nonblank; [ | exact Hall ].
  now apply length_pos_nonempty.
Qed.

Lemma ParseSRT_line_inv (st st' : srt_state) (text : gostring) :
  srt_inv st -> ParseSRT_line st text = inl st' -> srt_inv st'.
Proof.
  intros [Hcaps Hlines]. unfold ParseSRT_line, ret.
  destruct (isEmpty (TrimSpace text)) eqn:Eempty.
  { destruct (0 <? Z.of_nat (List.length (textLines st))) eqn:Elen;
      intros Heq; inversion Heq; subst; split; cbn; auto.
    apply Forall_app. split; [ exact Hcaps | ].
    constructor; [ | constructor ].
    now apply finalized_entry_nonblank. }
  destruct (expectingSequence st).
  { intros Heq; inversion Heq; subst; split; cbn; auto. }
  destruct (Nat.eqb (List.length (FindStringSubmatch srtTimeRegex (TrimSpace text))) 3).
  - destruct (parseSRTTime _); [ | discriminate ].
    destruct (parseSRTTime _); [ | discriminate ].
    intros Heq; inversion Heq; subst; split; cbn; auto.
  - intros Heq; inversion Heq; subst; split; cbn; auto.
    apply Forall_app. split; [ exact Hlines | ].
    constructor; [ | constructor ].
    now apply TrimSpace_text_line.
Qed.

Lemma ParseSRT_loop_inv (lines : list gostring) :
  forall st st', srt_inv st -> ParseSRT_loop lines st = inl st' -> srt_inv st'.
Proof.
  induction lines as [| text rest IH]; intros st st' Hinv; cbn [ParseSRT_loop].
  - unfold ret. intros Heq. inversion Heq; subst. exact Hinv.
  - destruct (ParseSRT_line st text) as [st1 | e] eqn:E; cbn [bind];
      [ | discriminate ].
    apply IH. now apply (ParseSRT_line_inv st st1 text).
Qed.

Lemma ParseWebVTT_block_inv (st st' : vtt_state) (line : gostring) :
  vtt_inv st -> (isEmpty line = false -> text_line line) ->
  ParseWebVTT_block st line = inl st' -> vtt_inv st'.
Proof.
  intros [Hcaps Hlines] Hline. unfold ParseWebVTT_block, ret.
  destruct (isEmpty line) eqn:Eempty.
  { destruct (0 <? Z.of_nat (List.length (vtt_textLines st))) eqn:Elen;
      intros Heq; inversion Heq; subst; split; cbn; auto.
    apply Forall_app. split; [ exact Hcaps | ].
    constructor; [ | constructor ].
    now apply finalized_entry_nonblank. }
  destruct (Nat.eqb (List.length (FindStringSubmatch vttTimeRegex line)) 3).
  - destruct (parseWebVTTTime _); [ | discriminate ].
    destruct (parseWebVTTTime _); [ | discriminate ].
    intros Heq; inversion Heq; subst; split; cbn; auto.
  - intros Heq; inversion Heq; subst; split; cbn; auto.
    apply Forall_app. split; [ exact Hlines | ].
    constructor; [ | constructor ].
    now apply Hline.
Qed.

Lemma ParseWebVTT_line_inv (st st' : vtt_state) (text : gostring) :
  vtt_inv st -> ParseWebVTT_line st text = inl st' -> vtt_inv st'.
Proof.
  intros Hinv. unfold ParseWebVTT_line.
  destruct (inHeader st).
  - destruct (isEmpty (TrimSpace text) || HasPrefix (TrimSpace text) (str "WEBVTT")
              || HasPrefix (TrimSpace text) (str "NOTE")).
    + unfold ret. intros Heq. inversion Heq; subst. exact Hinv.
    + apply ParseWebVTT_block_inv.
      * destruct Hinv as [H1 H2]. split; cbn; assumption.
      * apply TrimSpace_text_line.
  - apply ParseWebVTT_block_inv; [ exact Hinv | apply TrimSpace_text_line ].
Qed.

Lemma ParseWebVTT_loop_inv (lines : list gostring) :
  forall st st', vtt_inv st -> ParseWebVTT_loop lines st = inl st' -> vtt_inv st'.
Proof.
  induction lines as [| text rest IH]; intros st st' Hinv;
    cbn [ParseWebVTT_loop].
  - unfold ret. intros Heq. inversion Heq; subst. exact Hinv.
  - destruct (ParseWebVTT_line st text) as [st1 | e] eqn:E; cbn [bind];
      [ | discriminate ].
    apply IH. now apply (ParseWebVTT_line_inv st st1 text).
Qed.

Lemma ParseSRT_output_nonblank (lines : list gostring) (scanErr : option error) :
  Forall nonblank (fst (ParseSRT lines scanErr)).
Proof.
  unfold ParseSRT.
  destruct (ParseSRT_loop lines srt_init) as [st | e] eqn:E; [ | constructor ].
  destruct (ParseSRT_loop_inv lines _ _ srt_inv_init E) as [Hcaps Hlines].
  destruct (0 <? Z.of_nat (List.length (textLines st))) eqn:Elen; cbn [fst];
    [ | exact Hcaps ].
  apply Forall_app. split; [ exact Hcaps | ].
  constructor; [ | constructor ].
  now apply finalized_entry_nonblank.
Qed.

Lemma ParseWebVTT_output_nonblank (lines : list gostring) (scanErr : option error) :
  Forall nonblank (fst (ParseWebVTT lines scanErr)).
Proof.
  unfold ParseWebVTT.
  destruct (ParseWebVTT_loop lines vtt_init) as [st | e] eqn:E;
    [ | constructor ].
  destruct (ParseWebVTT_loop_inv lines _ _ vtt_inv_init E) as [Hcaps Hlines].
  destruct (0 <? Z.of_nat (List.length (vtt_textLines st))) eqn:Elen; cbn [fst];
    [ | exact Hcaps ].
  apply Forall_app. split; [ exact Hcaps | ].
  constructor; [ | constructor ].
  now apply finalized_entry_nonblank.
Qed.

Lemma ParseSRT_error_is_scanner_error (lines : list gostring) (scanErr : option error) :
  snd (ParseSRT lines scanErr) = scanErr.
Proof.
  unfold ParseSRT.
  destruct (ParseSRT_loop_total lines srt_init) as [st ->].
  destruct (0 <? Z.of_nat (List.length (textLines st))); reflexivity.
Qed.

Lemma ParseWebVTT_error_is_scanner_error (lines : list gostring) (scanErr : option error) :
  snd (ParseWebVTT lines scanErr) = scanErr.
Proof.
  unfold ParseWebVTT.
  destruct (ParseWebVTT_loop_total lines vtt_init) as [st ->].
  destruct (0 <? Z.of_nat (List.length (vtt_textLines st))); reflexivity.
Qed.

Lemma TrimSpace_nil_of_nonblank (c : CaptionEntry) :
  nonblank c -> Text c <> [].
Proof. unfold nonblank. intros H E. rewrite E in H. now apply H. Qed.

(** *** End-to-end scenarios *)

Example scenario_1 :
  ParseSRT
    [str "1"; str "00:00:01,000 --> 00:00:04,000"; str "Hello world"; [];
     str "2"; str "00:00:05,000 --> 00:00:08,000"; str "Second line"]
    None
  = ([mkCaptionEntry Second (4 * Second) (str "Hello world");
      mkCaptionEntry (5 * Second) (8 * Second) (str "Second line")], None).
Proof. vm_compute. reflexivity. Qed.

Example scenario_2 :
  ValidateCoverage
    [mkCaptionEntry Second (4 * Second) (str "Hello world");
     mkCaptionEntry (5 * Second) (8 * Second) (str "Second line")]
    0 (10 * Second) 0.5%float = true.
Proof. vm_compute. reflexivity. Qed.

Example scenario_3 :
  ParseSRT [str "1"; missing_arrow; str "Hello"] None
  = ([mkCaptionEntry 0 0 (str "00:00:01-00:00:04 Hello")], None).
Proof. vm_compute. reflexivity. Qed.

Example crlf_lines :
  ParseSRT
    (ScanLines
       (str "1" ++ [x0d; x0a] ++ str "00:00:01,000 --> 00:00:04,000"
        ++ [x0d; x0a] ++ str "Hello world" ++ [x0d; x0a; x0d; x0a]))
    None
  = ([mkCaptionEntry Second (4 * Second) (str "Hello world")], None).
Proof. vm_compute. reflexivity. Qed.

Example timing_only_block :
  ParseSRT [str "1"; str "00:00:01,000 --> 00:00:04,000"; []; str "2"] None
  = ([], None)
  /\ ParseWebVTT [str "WEBVTT"; []; str "00:00:01.000 --> 00:00:04.000"; []] None
     = ([], None).
Proof. split; vm_compute; reflexivity. Qed.

(* ================================================================= *)
(** ** What [Atoi] rejects *)

Lemma byte_val_range (c : byte) : 0 <= byte_val c < 256.
Proof.
  unfold byte_val. pose proof (Byte.to_N_bounded c) as H. lia.
Qed.

Lemma not_perl_d_digit_of_byte (c : byte) :
  perl_d c = false -> digit_of_byte c = None.
Proof.
  unfold perl_d, digit_of_byte. intros H.
  pose proof (byte_val_range c) as Hr.
  apply andb_false_iff in H.
  assert (Hv : byte_val c < 48 \/ 57 < byte_val c).
  { destruct H as [H | H]; apply Z.leb_gt in H; lia. }
  destruct Hv as [Hlt | Hgt].
  - replace (byte_val c - 48) with (byte_val c + 208 + (-1) * 256) by lia.
    rewrite Z_mod_plus_full. rewrite Z.mod_small by lia.
    destruct (Z.gtb_spec (byte_val c + 208) 9); [ reflexivity | lia ].
  - rewrite Z.mod_small by lia.
    destruct (Z.gtb_spec (byte_val c - 48) 9); [ reflexivity | lia ].
Qed.

Lemma atoi_digits_non_digit (s : gostring) (c : byte) :
  In c s -> perl_d c = false -> forall n, atoi_digits s n = None.
Proof.
  intros Hin Hc. induction s as [| ch t IH]; intros n; [ contradiction | ].
  cbn [atoi_digits]. destruct Hin as [-> | Hin].
  - now rewrite not_perl_d_digit_of_byte.
  - destruct (digit_of_byte ch); [ now apply IH | reflexivity ].
Qed.

Lemma parseUint_digits_non_digit (s : gostring) (c : byte) :
  In c s -> perl_d c = false ->
  forall n, exists e, parseUint_digits s n = inr e.
Proof.
  intros Hin Hc. induction s as [| ch t IH]; intros n; [ contradiction | ].
  cbn [parseUint_digits]. fold (perl_d ch).
  destruct Hin as [-> | Hin].
  - rewrite Hc. eauto.
  - destruct (perl_d ch); [ | eauto ].
    destruct (n >=? maxUint64 / 10 + 1); [ eauto | ].
    match goal with
    | |- context [if ?b then _ else _] => destruct b
    end; [ eauto | now apply IH ].
Qed.

(** A component with a byte that is no digit, a leading sign apart, is not
    numeric: [Atoi] returns a [NumError] for it. *)
Lemma Atoi_non_digit (s : gostring) (c : byte) :
  In c (strip_sign s) -> perl_d c = false ->
  exists e, Atoi s = inr (mkNumError (str "Atoi") s e).
Proof.
  intros Hin Hc. unfold Atoi.
  destruct ((0 <? Z.of_nat (List.length s)) && (Z.of_nat (List.length s) <? 19)).
  - destruct s as [| c0 t]; [ eauto | ].
    cbn [strip_sign] in Hin.
    rewrite (orb_comm (Byte.eqb c0 "-")) in Hin.
    change x2d with "-"%byte. change x2b with "+"%byte.
    rewrite (orb_comm (Byte.eqb c0 "-")).
    destruct (Byte.eqb c0 "+" || Byte.eqb c0 "-") eqn:Esign; cbn [andb].
    + destruct (Z.of_nat (List.length t) <? 1); [ eauto | ].
      rewrite (atoi_digits_non_digit t c Hin Hc). eauto.
    + rewrite (atoi_digits_non_digit (c0 :: t) c Hin Hc). eauto.
  - unfold ParseInt.
    destruct s as [| c0 t]; [ eauto | ].
    cbn [strip_sign] in Hin.
    change x2d with "-"%byte. change x2b with "+"%byte.
    rewrite (orb_comm (Byte.eqb c0 "-")) in Hin.
    destruct (Byte.eqb c0 "+" || Byte.eqb c0 "-") eqn:Esign.
    + unfold ParseUint. destruct t as [| c1 t1]; [ contradiction | ].
      destruct (parseUint_digits_non_digit (c1 :: t1) c Hin Hc 0) as [e ->].
      eauto.
    + unfold ParseUint.
      destruct (parseUint_digits_non_digit (c0 :: t) c Hin Hc 0) as [e ->].
      eauto.
Qed.

Ltac split_all := repeat match goal with |- _ /\ _ => split end.

Ltac close_mode :=
  intros;
  try discriminate; try contradiction;
  try match goal with
      | H : Some _ = Some _ |- _ => inversion H; subst
      end;
  try reflexivity.

(** The codec's outcomes, case by case. *)
Lemma parseClock_failure_modes (sep : byte) (timeStr : gostring) :
  codec_failure_modes (parseClock sep) sep timeStr.
Proof.
  unfold codec_failure_modes, parseClock, atoi, first_failure.
  set (parts := Split timeStr ":").
  set (secParts := Split (index parts 2) sep).
  destruct (Nat.eqb_spec (List.length parts) 3) as [Hlen | Hlen]; cbn [negb].
  2: { split_all; close_mode. }
  split; [ close_mode | ].
  destruct (Atoi (index parts 0)) as [h | e0]; cbn [bind].
  2: { split_all; close_mode. }
  destruct (Atoi (index parts 1)) as [m | e1]; cbn [bind].
  2: { split_all; close_mode. }
  split; [ close_mode | ].
  destruct (Nat.eqb_spec (List.length secParts) 2) as [Hlen2 | Hlen2]; cbn [negb].
  2: { split_all; close_mode. }
  split; [ close_mode | ].
  destruct (Atoi (index secParts 0)) as [sec | e2]; cbn [bind].
  2: { split_all; close_mode. }
  destruct (Atoi (index secParts 1)) as [ms | e3]; cbn [bind].
  2: { split_all; close_mode. }
  split; [ close_mode | ].
  intros. unfold ret. eauto.
Qed.

(* ================================================================= *)
(** * The coverage evaluator: naive sum, monotonicity, degenerate inputs *)

(** C1, as stated, fails: with two entries of 2^62 ns in the window
    [0, 2^62 ns) the [int64] accumulator wraps to -2^63 ns, while the sum of
    the two overlaps is 2^63 ns; the evaluator then rejects a required
    fraction of 1.0 although the window is covered twice. *)
Lemma coverage_sum_wraps :
  Forall wf_entry [long_entry; long_entry]
  /\ 0 < long_window - 0
  /\ overlap_sum [long_entry; long_entry] 0 long_window = 9223372036854775808
  /\ coveredDuration [long_entry; long_entry] 0 long_window = -9223372036854775808
  /\ coveredDuration [long_entry; long_entry] 0 long_window
     <> overlap_sum [long_entry; long_entry] 0 long_window
  /\ ValidateCoverage [long_entry; long_entry] 0 long_window 1%float = false.
Proof.
  split; [ repeat constructor; vm_compute; congruence | ].
  split; [ vm_compute; reflexivity | ].
  split; [ vm_compute; reflexivity | ].
  split; [ vm_compute; reflexivity | ].
  split; [ vm_compute; congruence | ].
  vm_compute; reflexivity.
Qed.

(** C1 (amended): for every sequence of entries and every window the
    evaluator accepts (its length [tEnd - tStart] is positive as an [int64]),
    the covered duration is the sum over all entries of
    [max(0, min(entry.end, window.end) - max(entry.start, window.start))]
    reduced to [int64] by two's-complement wrap-around; it is exactly that
    sum whenever the sum does not exceed 2^63 - 1 ns; no overlapping entries
    are merged, and the verdict of [ValidateCoverage] (and of its copy in
    [main.go]) is taken on that value.  The entries [0s,2s) and [1s,3s)
    against the window [0s,3s) give 4s, not 3s. *)
Theorem coverage_is_naive_sum (captions : list CaptionEntry)
    (tStart tEnd : Duration) (requiredCoverage : float) :
  Forall wf_entry captions ->
  Int64.in_range tStart -> Int64.in_range tEnd ->
  0 < Int64.sub tEnd tStart ->
  coveredDuration captions tStart tEnd
  = Int64.wrap (overlap_sum captions tStart tEnd)
  /\ (overlap_sum captions tStart tEnd <= Int64.max_int ->
      coveredDuration captions tStart tEnd = overlap_sum captions tStart tEnd)
  /\ ValidateCoverage captions tStart tEnd requiredCoverage
     = PrimFloat.leb requiredCoverage
         (PrimFloat.div
            (float64_of_int64 (Int64.wrap (overlap_sum captions tStart tEnd)))
            (float64_of_int64 (Int64.sub tEnd tStart)))
  /\ validateCoverage captions tStart tEnd requiredCoverage
     = ValidateCoverage captions tStart tEnd requiredCoverage
  /\ coveredDuration [entry_0_2; entry_1_3] 0 (3 * Second) = 4 * Second
  /\ 4 * Second <> 3 * Second.
Proof.
  intros Hwf Hs He Hw.
  assert (Hsum : coveredDuration captions tStart tEnd
                 = Int64.wrap (overlap_sum captions tStart tEnd)).
  { unfold coveredDuration.
    rewrite (coverage_fold_overlap_sum tStart tEnd captions Hs He Hw Hwf 0).
    - reflexivity.
    - unfold Int64.in_range, Int64.min_int, Int64.max_int. lia. }
  split; [ exact Hsum | ].
  split.
  { intros Hfit. rewrite Hsum. apply int64_wrap_small.
    pose proof (overlap_sum_nonneg captions tStart tEnd).
    unfold Int64.in_range, Int64.min_int, Int64.max_int in *. lia. }
  split.
  { unfold ValidateCoverage.
    destruct (Z.leb_spec (Int64.sub tEnd tStart) 0) as [Hle | _]; [ lia | ].
    now rewrite Hsum. }
  split; [ apply validateCoverage_eq | ].
  split; [ reflexivity | discriminate ].
Qed.

Lemma coverage_is_naive_sum_witness :
  coveredDuration [entry_0_2; entry_1_3] 0 (3 * Second)
  = overlap_sum [entry_0_2; entry_1_3] 0 (3 * Second).
Proof.
  refine (proj1 (proj2 (coverage_is_naive_sum [entry_0_2; entry_1_3]
                          0 (3 * Second) 1%float _ _ _ _)) _).
  - repeat constructor; vm_compute; congruence.
  - split; vm_compute; congruence.
  - split; vm_compute; congruence.
  - vm_compute. reflexivity.
  - vm_compute. congruence.
Defined.

(** C3, as stated, fails: when the running total passes 2^63 - 1 ns the
    accumulator wraps, so appending an entry that overlaps the window neither
    increases the covered duration nor leaves it unchanged. *)
Lemma coverage_append_not_monotone :
  ~ (overlaps_window 0 long_window long_entry ->
     coveredDuration [long_entry] 0 long_window
     < coveredDuration ([long_entry] ++ [long_entry]) 0 long_window
     \/ coveredDuration ([long_entry] ++ [long_entry]) 0 long_window
        = coveredDuration [long_entry] 0 long_window).
Proof.
  intros H.
  assert (Hov : overlaps_window 0 long_window long_entry)
    by (vm_compute; reflexivity).
  destruct (H Hov) as [Hlt | Heq]; vm_compute in Hlt || vm_compute in Heq;
    discriminate.
Qed.

(** C3 (amended): for every sequence of entries, every window the evaluator
    accepts and every further entry whose interval overlaps the window,
    appending that entry adds exactly its overlap with the window to the
    covered duration, and so strictly increases it (also when the window is
    covered already: nothing is left unchanged), provided the new total does
    not exceed 2^63 - 1 ns. *)
Theorem coverage_append_increases (captions : list CaptionEntry)
    (c : CaptionEntry) (tStart tEnd : Duration) :
  Forall wf_entry captions -> wf_entry c ->
  Int64.in_range tStart -> Int64.in_range tEnd ->
  0 < Int64.sub tEnd tStart ->
  overlaps_window tStart tEnd c ->
  coveredDuration captions tStart tEnd + entry_overlap tStart tEnd c
    <= Int64.max_int ->
  coveredDuration (captions ++ [c]) tStart tEnd
  = coveredDuration captions tStart tEnd + entry_overlap tStart tEnd c
  /\ coveredDuration captions tStart tEnd
     < coveredDuration (captions ++ [c]) tStart tEnd.
Proof.
  intros Hwf Hc Hs He Hw Hov Hfit.
  pose proof (coveredDuration_in_range captions tStart tEnd Hs He Hw Hwf)
    as Hacc.
  assert (Hpos : 0 < entry_overlap tStart tEnd c).
  { unfold overlaps_window in Hov. unfold entry_overlap. lia. }
  rewrite coveredDuration_snoc.
  rewrite (coverage_step_overlap tStart tEnd Hs He Hw _ c Hc Hacc).
  rewrite int64_wrap_small.
  - split; [ reflexivity | lia ].
  - unfold Int64.in_range, Int64.min_int, Int64.max_int in *. lia.
Qed.

Lemma coverage_append_increases_witness :
  coveredDuration ([entry_0_2] ++ [entry_1_3]) 0 (3 * Second)
  = coveredDuration [entry_0_2] 0 (3 * Second)
    + entry_overlap 0 (3 * Second) entry_1_3
  /\ coveredDuration [entry_0_2] 0 (3 * Second)
     < coveredDuration ([entry_0_2] ++ [entry_1_3]) 0 (3 * Second).
Proof.
  apply (coverage_append_increases [entry_0_2] entry_1_3 0 (3 * Second)).
  - repeat constructor; vm_compute; congruence.
  - split; split; vm_compute; congruence.
  - split; vm_compute; congruence.
  - split; vm_compute; congruence.
  - vm_compute. reflexivity.
  - vm_compute. reflexivity.
  - vm_compute. congruence.
Defined.

(** C7: an entry with [entry.start >= entry.end] contributes exactly zero to
    the covered-duration accumulator, for every window and required
    fraction: the loop iteration leaves the accumulator as it is, and neither
    the covered duration nor the verdict changes when the entry is removed
    from the sequence. *)
Theorem coverage_inverted_entry_contributes_zero
    (before after : list CaptionEntry) (c : CaptionEntry)
    (tStart tEnd acc : Duration) (requiredCoverage : float) :
  StartTime c >= EndTime c ->
  coverage_step tStart tEnd acc c = acc
  /\ coveredDuration (before ++ c :: after) tStart tEnd
     = coveredDuration (before ++ after) tStart tEnd
  /\ ValidateCoverage (before ++ c :: after) tStart tEnd requiredCoverage
     = ValidateCoverage (before ++ after) tStart tEnd requiredCoverage.
Proof.
  intros Hinv.
  assert (Hcov : coveredDuration (before ++ c :: after) tStart tEnd
                 = coveredDuration (before ++ after) tStart tEnd).
  { unfold coveredDuration. rewrite !fold_left_app. simpl.
    now rewrite coverage_step_inverted. }
  split; [ now apply coverage_step_inverted | ].
  split; [ exact Hcov | ].
  unfold ValidateCoverage. now rewrite Hcov.
Qed.

Lemma coverage_inverted_entry_contributes_zero_witness :
  coveredDuration ([entry_0_2] ++ mkCaptionEntry (2 * Second) Second [] :: [entry_1_3])
    0 (3 * Second)
  = coveredDuration ([entry_0_2] ++ [entry_1_3]) 0 (3 * Second).
Proof.
  refine (proj1 (proj2 (coverage_inverted_entry_contributes_zero
            [entry_0_2] [entry_1_3] (mkCaptionEntry (2 * Second) Second [])
            0 (3 * Second) 0 1%float _))).
  vm_compute. congruence.
Defined.

(** C8, as stated, fails: for the inverted window from 2^62 + 1 ns to
    -2^62 ns the difference [tEnd - tStart] is -2^63 - 1, which wraps to
    2^63 - 1 in [int64]; the guard lets it pass and a required fraction of 0
    is met. *)
Lemma coverage_inverted_window_accepted :
  Int64.in_range 4611686018427387905
  /\ Int64.in_range (-4611686018427387904)
  /\ (-4611686018427387904) - 4611686018427387905 <= 0
  /\ ValidateCoverage [] 4611686018427387905 (-4611686018427387904) 0%float
     = true.
Proof.
  split; [ split; vm_compute; congruence | ].
  split; [ split; vm_compute; congruence | ].
  split; [ vm_compute; congruence | ].
  vm_compute; reflexivity.
Qed.

(** C8 (amended): for every sequence of entries and every required fraction,
    if the length of the window as the evaluator computes it, [tEnd - tStart]
    in wrapping [int64] arithmetic, is at most zero, the evaluator returns
    false; this covers every degenerate window and every inverted window
    whose difference is not below -2^63 ns. *)
Theorem coverage_degenerate_window (captions : list CaptionEntry)
    (tStart tEnd : Duration) (requiredCoverage : float) :
  (Int64.sub tEnd tStart <= 0 ->
   ValidateCoverage captions tStart tEnd requiredCoverage = false)
  /\ (tEnd - tStart <= 0 -> Int64.min_int <= tEnd - tStart ->
      ValidateCoverage captions tStart tEnd requiredCoverage = false)
  /\ ValidateCoverage captions tStart tStart requiredCoverage = false.
Proof.
  assert (Hguard : forall a b, Int64.sub b a <= 0 ->
            ValidateCoverage captions a b requiredCoverage = false).
  { intros a b Hle. unfold ValidateCoverage.
    destruct (Z.leb_spec (Int64.sub b a) 0); [ reflexivity | lia ]. }
  split; [ apply Hguard | ].
  split.
  - intros Hle Hmin. apply Hguard. unfold Int64.sub.
    rewrite int64_wrap_small; [ exact Hle | ].
    unfold Int64.in_range, Int64.min_int, Int64.max_int in *. lia.
  - apply Hguard. unfold Int64.sub. rewrite Z.sub_diag. vm_compute. congruence.
Qed.

Lemma coverage_degenerate_window_witness :
  ValidateCoverage [entry_0_2] (2 * Second) 0 0.5%float = false.
Proof.
  refine (proj1 (coverage_degenerate_window [entry_0_2] (2 * Second) 0
                   0.5%float) _).
  vm_compute. congruence.
Defined.

(* ================================================================= *)
(** * The text aggregator *)

(** C9: for every sequence of entries, [ExtractAllText] drops exactly the
    entries whose text is empty after white-space trimming ([kept] is false
    on them and on no others), joins the untrimmed texts of the remaining
    entries with a single ASCII space in input order, and returns the empty
    string for an empty (or nil) input and for an input whose texts are all
    blank; the empty text, two spaces, Hello and World aggregate to
    Hello World, joined by one space.  The copy [extractAllText] of [main.go] agrees. *)
Theorem extract_all_text_drops_blank_joins_rest (captions : list CaptionEntry) :
  ExtractAllText captions
  = Join (map Text (filter kept captions)) [x20]
  /\ (forall c, kept c = true <-> TrimSpace (Text c) <> [])
  /\ ExtractAllText [] = []
  /\ (Forall (fun c => TrimSpace (Text c) = []) captions ->
      ExtractAllText captions = [])
  /\ ExtractAllText
       [entry_of_text []; entry_of_text (str "  ");
        entry_of_text (str "Hello"); entry_of_text (str "World")]
     = str "Hello World"
  /\ extractAllText captions = ExtractAllText captions.
Proof.
  split; [ apply ExtractAllText_filter | ].
  split; [ apply kept_iff | ].
  split; [ reflexivity | ].
  split.
  { intros Hblank. rewrite ExtractAllText_filter.
    now rewrite filter_kept_blank. }
  split; reflexivity.
Qed.

Lemma extract_all_text_drops_blank_joins_rest_witness :
  ExtractAllText [entry_of_text (str " "); entry_of_text [x09; x0d]] = [].
Proof.
  refine (proj1 (proj2 (proj2 (proj2
            (extract_all_text_drops_blank_joins_rest
               [entry_of_text (str " "); entry_of_text [x09; x0d]])))) _).
  repeat constructor.
Defined.

(* ================================================================= *)
(** * The timestamp codec *)

(** C2: for every timestamp [HH:MM:SS,mmm] (SRT) or [HH:MM:SS.mmm] (VTT)
    whose [HH], [MM], [SS] are two ASCII digits and whose [mmm] is three
    ASCII digits, [parseSRTTime] (resp. [parseWebVTTTime]) succeeds and
    returns the duration of [HH*3600000 + MM*60000 + SS*1000 + mmm]
    milliseconds. *)
Theorem codec_parses_timestamps (h1 h2 m1 m2 s1 s2 k1 k2 k3 : byte) :
  all_digits [h1; h2; m1; m2; s1; s2; k1; k2; k3] ->
  parseSRTTime (stamp_text "," h1 h2 m1 m2 s1 s2 k1 k2 k3)
  = inl (stamp_ms h1 h2 m1 m2 s1 s2 k1 k2 k3 * Millisecond)
  /\ parseWebVTTTime (stamp_text "." h1 h2 m1 m2 s1 s2 k1 k2 k3)
     = inl (stamp_ms h1 h2 m1 m2 s1 s2 k1 k2 k3 * Millisecond).
Proof.
  intros Hd. split.
  - rewrite parseSRTTime_parseClock.
    apply parseClock_stamp; [ reflexivity | reflexivity | exact Hd ].
  - rewrite parseWebVTTTime_parseClock.
    apply parseClock_stamp; [ reflexivity | reflexivity | exact Hd ].
Qed.

Lemma codec_parses_timestamps_witness :
  parseSRTTime (str "01:23:45,678") = inl (5025678 * Millisecond)
  /\ parseWebVTTTime (str "01:23:45.678") = inl (5025678 * Millisecond).
Proof.
  apply (codec_parses_timestamps "0" "1" "2" "3" "4" "5" "6" "7" "8").
  repeat constructor.
Defined.

(** C6, as stated, fails: in ["ab:00:00"] there are three components and the
    seconds component has one sub-second part only, yet the codec reports
    the numeric-conversion error of the hours and not the seconds-format
    error: hours and minutes are converted before the seconds are split. *)
Lemma codec_hours_checked_before_seconds_format :
  List.length (Split (str "ab:00:00") ":") = 3%nat
  /\ List.length (Split (index (Split (str "ab:00:00") ":") 2) ",") <> 2%nat
  /\ parseSRTTime (str "ab:00:00")
     = inr (ErrNum (mkNumError (str "Atoi") (str "ab") ErrSyntax))
  /\ parseSRTTime (str "ab:00:00")
     <> inr (ErrInvalidSecondsFormat (str "00"))
  /\ parseWebVTTTime (str "ab:00:00")
     = inr (ErrNum (mkNumError (str "Atoi") (str "ab") ErrSyntax))
  /\ parseWebVTTTime (str "ab:00:00")
     <> inr (ErrInvalidSecondsFormat (str "00")).
Proof.
  split; [ reflexivity | ].
  split; [ vm_compute; congruence | ].
  split; [ vm_compute; reflexivity | ].
  split; [ vm_compute; congruence | ].
  split; [ vm_compute; reflexivity | ].
  vm_compute; congruence.
Qed.

(** C6 (amended): for every timestamp string, the codec fails with
    "invalid time format" if the number of [:]-separated components is not
    3; otherwise with the numeric-conversion error of [Atoi] if the hours
    or the minutes component is not numeric; otherwise with "invalid seconds
    format" if the seconds component does not have 2 sub-second parts;
    otherwise with the numeric-conversion error if the seconds or the
    milliseconds part is not numeric; otherwise it succeeds.  The three
    kinds of error are distinct, and a component with a byte that is no
    digit (a leading sign apart) is not numeric. *)
Theorem codec_failure_modes_in_code_order (timeStr : gostring) :
  codec_failure_modes parseSRTTime "," timeStr
  /\ codec_failure_modes parseWebVTTTime "." timeStr
  /\ (forall s part e,
        ErrInvalidTimeFormat s <> ErrInvalidSecondsFormat part
        /\ ErrInvalidTimeFormat s <> ErrNum e
        /\ ErrInvalidSecondsFormat part <> ErrNum e)
  /\ (forall s c,
        In c (strip_sign s) -> perl_d c = false ->
        exists e, Atoi s = inr (mkNumError (str "Atoi") s e)).
Proof.
  split; [ apply (parseClock_failure_modes ",") | ].
  split; [ apply (parseClock_failure_modes ".") | ].
  split.
  - intros s part e. repeat split; discriminate.
  - intros s c. apply Atoi_non_digit.
Qed.

Lemma codec_failure_modes_in_code_order_witness :
  parseSRTTime (str "00:00:01.000")
  = inr (ErrInvalidSecondsFormat (index (Split (str "00:00:01.000") ":") 2)).
Proof.
  refine (proj1 (proj2 (proj2 (proj1
            (codec_failure_modes_in_code_order (str "00:00:01.000")))))
            _ _ _).
  - reflexivity.
  - vm_compute. reflexivity.
  - vm_compute. congruence.
Defined.

(* ================================================================= *)
(** * The block scanners *)

(** C4, as stated, fails: the line [00:00:01-00:00:04] does not match the
    timing pattern, but where an SRT block begins it is consumed as the
    sequence number and is not appended to the text of the block. *)
Lemma scanner_discards_line_in_sequence_position :
  ~ (~ matches_somewhere srtTimeRegex (TrimSpace missing_arrow) ->
     exists st',
       ParseSRT_line srt_init missing_arrow = inl st'
       /\ textLines st' = textLines srt_init ++ [TrimSpace missing_arrow]).
Proof.
  intros H.
  destruct H as (st' & Hstep & Htext).
  - apply FindStringSubmatch_nil_iff. vm_compute. reflexivity.
  - vm_compute in Hstep. inversion Hstep; subst.
    vm_compute in Htext. discriminate.
Qed.

(** C4 (amended): a line that does not match the timing regular expression
    never makes the scanner return an error; if moreover the trimmed line
    is not blank and is not consumed as the sequence number of an SRT block
    (resp. not skipped as part of the WebVTT header), it is appended, as
    trimmed, to the text lines of the current block.  The scanner returns a
    timing error only when a line that matches the timing regular expression
    fails the conversion by the timestamp codec. *)
Theorem scanner_keeps_unmatched_line_as_text
    (st : srt_state) (vst : vtt_state) (text : gostring) :
  (~ matches_somewhere srtTimeRegex (TrimSpace text) ->
   (exists st', ParseSRT_line st text = inl st')
   /\ (TrimSpace text <> [] -> expectingSequence st = false ->
       ParseSRT_line st text
       = inl (mkSrtState (captions st) (currentEntry st)
                (textLines st ++ [TrimSpace text]) false)))
  /\ (~ matches_somewhere vttTimeRegex (TrimSpace text) ->
      (exists vst', ParseWebVTT_line vst text = inl vst')
      /\ (TrimSpace text <> [] ->
          inHeader vst = false
          \/ (HasPrefix (TrimSpace text) (str "WEBVTT") = false
              /\ HasPrefix (TrimSpace text) (str "NOTE") = false) ->
          ParseWebVTT_line vst text
          = inl (mkVttState (vtt_captions vst) (vtt_currentEntry vst)
                   (vtt_textLines vst ++ [TrimSpace text]) false)))
  /\ (forall e, ParseSRT_line st text = inr e ->
      exists w w1 w2,
        FindStringSubmatch srtTimeRegex (TrimSpace text) = [w; w1; w2]
        /\ ((exists cause, parseSRTTime w1 = inr cause
                           /\ e = ErrParsingStartTime cause)
            \/ (exists cause, parseSRTTime w2 = inr cause
                              /\ e = ErrParsingEndTime cause)))
  /\ (forall e, ParseWebVTT_line vst text = inr e ->
      exists w w1 w2,
        FindStringSubmatch vttTimeRegex (TrimSpace text) = [w; w1; w2]
        /\ ((exists cause, parseWebVTTTime w1 = inr cause
                           /\ e = ErrParsingStartTime cause)
            \/ (exists cause, parseWebVTTTime w2 = inr cause
                              /\ e = ErrParsingEndTime cause))).
Proof.
  split; [ | split; [ | split ] ].
  - intros Hno. split; [ apply ParseSRT_line_total | ].
    intros Hne Hseq.
    apply FindStringSubmatch_nil_iff in Hno.
    unfold ParseSRT_line. rewrite Hno, Hseq.
    destruct (TrimSpace text); [ congruence | reflexivity ].
  - intros Hno. split; [ apply ParseWebVTT_line_total | ].
    intros Hne Hhead.
    apply FindStringSubmatch_nil_iff in Hno.
    assert (Hblock :
      forall h, ParseWebVTT_block
                  (mkVttState (vtt_captions vst) (vtt_currentEntry vst)
                     (vtt_textLines vst) h) (TrimSpace text)
                = inl (mkVttState (vtt_captions vst) (vtt_currentEntry vst)
                         (vtt_textLines vst ++ [TrimSpace text]) h)).
    { intros h. unfold ParseWebVTT_block. rewrite Hno.
      destruct (TrimSpace text); [ congruence | reflexivity ]. }
    unfold ParseWebVTT_line.
    destruct (inHeader vst) eqn:Eh.
    + destruct Hhead as [Hh | [Hw Hn]]; [ discriminate | ].
      assert (He : isEmpty (TrimSpace text) = false)
        by (destruct (TrimSpace text); [ congruence | reflexivity ]).
      rewrite Hw, Hn, He. cbn [orb]. apply Hblock.
    + destruct vst as [vc ve vt vh]. cbn in Eh. subst vh. apply Hblock.
  - intros e. unfold ParseSRT_line, ret.
    destruct (isEmpty (TrimSpace text)).
    { destruct (0 <? Z.of_nat (List.length (textLines st))); discriminate. }
    destruct (expectingSequence st); [ discriminate | ].
    unfold srtTimeRegex.
    destruct (FindStringSubmatch_timing "," (TrimSpace text))
      as [-> | (w & w1 & w2 & -> & _ & _)];
      cbn [List.length Nat.eqb index nth]; [ discriminate | ].
    destruct (parseSRTTime w1) as [d1 | c1] eqn:E1.
    + destruct (parseSRTTime w2) as [d2 | c2] eqn:E2; [ discriminate | ].
      intros Heq. inversion Heq; subst. exists w, w1, w2.
      split; [ reflexivity | right; eauto ].
    + intros Heq. inversion Heq; subst. exists w, w1, w2.
      split; [ reflexivity | left; eauto ].
  - intros e.
    assert (Hblock : forall vs, ParseWebVTT_block vs (TrimSpace text) = inr e ->
      exists w w1 w2,
        FindStringSubmatch vttTimeRegex (TrimSpace text) = [w; w1; w2]
        /\ ((exists cause, parseWebVTTTime w1 = inr cause
                           /\ e = ErrParsingStartTime cause)
            \/ (exists cause, parseWebVTTTime w2 = inr cause
                              /\ e = ErrParsingEndTime cause))).
    { intros vs. unfold ParseWebVTT_block, ret.
      destruct (isEmpty (TrimSpace text)).
      { destruct (0 <? Z.of_nat (List.length (vtt_textLines vs))); discriminate. }
      unfold vttTimeRegex.
      destruct (FindStringSubmatch_timing "." (TrimSpace text))
        as [-> | (w & w1 & w2 & -> & _ & _)];
        cbn [List.length Nat.eqb index nth]; [ discriminate | ].
      destruct (parseWebVTTTime w1) as [d1 | c1] eqn:E1.
      + destruct (parseWebVTTTime w2) as [d2 | c2] eqn:E2; [ discriminate | ].
        intros Heq. inversion Heq; subst. exists w, w1, w2.
        split; [ reflexivity | right; eauto ].
      + intros Heq. inversion Heq; subst. exists w, w1, w2.
        split; [ reflexivity | left; eauto ]. }
    unfold ParseWebVTT_line.
    destruct (inHeader vst); [ | apply Hblock ].
    destruct (isEmpty (TrimSpace text) || HasPrefix (TrimSpace text) (str "WEBVTT")
              || HasPrefix (TrimSpace text) (str "NOTE"));
      [ discriminate | apply Hblock ].
Qed.

Lemma scanner_keeps_unmatched_line_as_text_witness :
  ParseSRT_line (mkSrtState [] zeroCaptionEntry [] false) missing_arrow
  = inl (mkSrtState [] zeroCaptionEntry [missing_arrow] false).
Proof.
  refine (proj2 (proj1 (scanner_keeps_unmatched_line_as_text
            (mkSrtState [] zeroCaptionEntry [] false) vtt_init missing_arrow)
            _) _ _).
  - apply FindStringSubmatch_nil_iff. vm_compute. reflexivity.
  - vm_compute. congruence.
  - reflexivity.
Defined.

(** C5: the start-time and end-time error branches of [ParseSRT] and
    [ParseWebVTT] are unreachable.  Whatever the timing regular expression
    captures is a timestamp of two, two, two and three digits, on which the
    codec of the format succeeds; so no iteration of either loop takes an
    error exit, and the error the parsers return is the scanner's own, never
    a timing error. *)
Theorem scanners_never_report_timing_error
    (lines : list gostring) (scanErr : option error) :
  (forall line,
     FindStringSubmatch srtTimeRegex line = []
     \/ exists w w1 w2 d1 d2,
          FindStringSubmatch srtTimeRegex line = [w; w1; w2]
          /\ is_stamp "," w1 /\ is_stamp "," w2
          /\ parseSRTTime w1 = inl d1 /\ parseSRTTime w2 = inl d2)
  /\ (forall line,
        FindStringSubmatch vttTimeRegex line = []
        \/ exists w w1 w2 d1 d2,
             FindStringSubmatch vttTimeRegex line = [w; w1; w2]
             /\ is_stamp "." w1 /\ is_stamp "." w2
             /\ parseWebVTTTime w1 = inl d1 /\ parseWebVTTTime w2 = inl d2)
  /\ (forall st text, exists st', ParseSRT_line st text = inl st')
  /\ (forall vst text, exists vst', ParseWebVTT_line vst text = inl vst')
  /\ snd (ParseSRT lines scanErr) = scanErr
  /\ snd (ParseWebVTT lines scanErr) = scanErr.
Proof.
  split.
  { intros line. unfold srtTimeRegex.
    destruct (FindStringSubmatch_timing "," line)
      as [Hnil | (w & w1 & w2 & Heq & H1 & H2)]; [ now left | right ].
    destruct (parseSRTTime_is_stamp w1 H1) as [d1 Hd1].
    destruct (parseSRTTime_is_stamp w2 H2) as [d2 Hd2].
    exists w, w1, w2, d1, d2. auto. }
  split.
  { intros line. unfold vttTimeRegex.
    destruct (FindStringSubmatch_timing "." line)
      as [Hnil | (w & w1 & w2 & Heq & H1 & H2)]; [ now left | right ].
    destruct (parseWebVTTTime_is_stamp w1 H1) as [d1 Hd1].
    destruct (parseWebVTTTime_is_stamp w2 H2) as [d2 Hd2].
    exists w, w1, w2, d1, d2. auto. }
  split; [ apply ParseSRT_line_total | ].
  split; [ apply ParseWebVTT_line_total | ].
  split; [ apply ParseSRT_error_is_scanner_error | ].
  apply ParseWebVTT_error_is_scanner_error.
Qed.

(** C10: every entry in the output of [ParseSRT] or [ParseWebVTT] has a text
    that is not empty and stays not empty after white-space trimming (an
    entry is finalized only from accumulated lines, each trimmed and not
    blank; a block that has a timing line only puts out no entry); so
    [ExtractAllText] filters no entry out of the output of a parser. *)
Theorem scanner_entries_have_text
    (lines : list gostring) (scanErr : option error) :
  Forall (fun c => Text c <> [] /\ TrimSpace (Text c) <> [])
    (fst (ParseSRT lines scanErr))
  /\ Forall (fun c => Text c <> [] /\ TrimSpace (Text c) <> [])
       (fst (ParseWebVTT lines scanErr))
  /\ filter kept (fst (ParseSRT lines scanErr)) = fst (ParseSRT lines scanErr)
  /\ filter kept (fst (ParseWebVTT lines scanErr))
     = fst (ParseWebVTT lines scanErr)
  /\ ExtractAllText (fst (ParseSRT lines scanErr))
     = Join (map Text (fst (ParseSRT lines scanErr))) [x20]
  /\ ExtractAllText (fst (ParseWebVTT lines scanErr))
     = Join (map Text (fst (ParseWebVTT lines scanErr))) [x20]
  /\ ParseSRT [str "1"; str "00:00:01,000 --> 00:00:04,000"; []; str "2"] None
     = ([], None)
  /\ ParseWebVTT [str "WEBVTT"; []; str "00:00:01.000 --> 00:00:04.000"; []] None
     = ([], None).
Proof.
  pose proof (ParseSRT_output_nonblank lines scanErr) as Hs.
  pose proof (ParseWebVTT_output_nonblank lines scanErr) as Hv.
  assert (Hboth : forall l, Forall nonblank l ->
            Forall (fun c => Text c <> [] /\ TrimSpace (Text c) <> []) l).
  { intros l Hl. eapply Forall_impl; [ | exact Hl ].
    intros c Hc. split; [ now apply TrimSpace_nil_of_nonblank | exact Hc ]. }
  split; [ now apply Hboth | ].
  split; [ now apply Hboth | ].
  split; [ now apply filter_kept_nonblank | ].
  split; [ now apply filter_kept_nonblank | ].
  split.
  { rewrite ExtractAllText_filter. now rewrite filter_kept_nonblank. }
  split.
  { rewrite ExtractAllText_filter. now rewrite filter_kept_nonblank. }
  split; vm_compute; reflexivity.
Qed.

(* ================================================================= *)
(** * Further properties of the coverage evaluator *)

Lemma overlap_sum_Permutation (l1 l2 : list CaptionEntry) (tStart tEnd : Z) :
  Permutation l1 l2 -> overlap_sum l1 tStart tEnd = overlap_sum l2 tStart tEnd.
Proof.
  unfold overlap_sum.
  induction 1 as [| c l l' Hp IH | c1 c2 l | l l' l'' H1 IH1 H2 IH2]; simpl.
  - reflexivity.
  - now rewrite IH.
  - lia.
  - now rewrite IH1.
Qed.

Lemma MaxDuration_max (a b : Duration) : MaxDuration a b = Z.max a b.
Proof. unfold MaxDuration. destruct (Z.gtb_spec a b); lia. Qed.

Lemma MinDuration_min (a b : Duration) : MinDuration a b = Z.min a b.
Proof. unfold MinDuration. destruct (Z.ltb_spec a b); lia. Qed.

(** What one entry adds is what it adds to an empty accumulator. *)
Lemma coverage_step_from_zero (tStart tEnd acc : Duration) (c : CaptionEntry) :
  Int64.in_range acc ->
  coverage_step tStart tEnd acc c
  = Int64.wrap (acc + coverage_step tStart tEnd 0 c).
Proof.
  intros Hacc. unfold coverage_step.
  destruct (MaxDuration (StartTime c) tStart <? MinDuration (EndTime c) tEnd).
  - unfold Int64.add, Int64.sub. rewrite Z.add_0_l.
    rewrite (int64_wrap_small (Int64.wrap _)) by apply int64_wrap_in_range.
    reflexivity.
  - rewrite Z.add_0_r. symmetry. now apply int64_wrap_small.
Qed.

Lemma coverage_fold_from_zero (tStart tEnd : Duration) (l : list CaptionEntry) :
  forall acc, Int64.in_range acc ->
    fold_left (coverage_step tStart tEnd) l acc
    = Int64.wrap
        (acc + fold_right Z.add 0 (map (coverage_step tStart tEnd 0) l)).
Proof.
  induction l as [| c l IH]; intros acc Hacc; simpl.
  - rewrite Z.add_0_r. symmetry. now apply int64_wrap_small.
  - rewrite (coverage_step_from_zero tStart tEnd acc c Hacc).
    rewrite IH by apply int64_wrap_in_range.
    rewrite int64_wrap_add_l. f_equal. lia.
Qed.

Lemma sum_map_Permutation (A : Type) (f : A -> Z) (l1 l2 : list A) :
  Permutation l1 l2 ->
  fold_right Z.add 0 (map f l1) = fold_right Z.add 0 (map f l2).
Proof.
  induction 1 as [| c l l' Hp IH | c1 c2 l | l l' l'' H1 IH1 H2 IH2]; simpl.
  - reflexivity.
  - now rewrite IH.
  - lia.
  - now rewrite IH1.
Qed.

Lemma zero_in_range : Int64.in_range 0.
Proof. unfold Int64.in_range, Int64.min_int, Int64.max_int. lia. Qed.

(** X12: the covered duration and the verdict do not depend on the order of
    the entries, whatever the entries and the window are (the accumulator
    adds modulo 2^64, which is commutative). *)
Theorem coverage_order_independent (l1 l2 : list CaptionEntry)
    (tStart tEnd : Duration) (requiredCoverage : float) :
  Permutation l1 l2 ->
  coveredDuration l1 tStart tEnd = coveredDuration l2 tStart tEnd
  /\ ValidateCoverage l1 tStart tEnd requiredCoverage
     = ValidateCoverage l2 tStart tEnd requiredCoverage.
Proof.
  intros Hp.
  assert (Hcov : coveredDuration l1 tStart tEnd = coveredDuration l2 tStart tEnd).
  { unfold coveredDuration.
    rewrite !coverage_fold_from_zero by apply zero_in_range.
    now rewrite (sum_map_Permutation _ _ l1 l2 Hp). }
  split; [ exact Hcov | ].
  unfold ValidateCoverage. now rewrite Hcov.
Qed.

Lemma coverage_order_independent_witness :
  ValidateCoverage [entry_0_2; entry_1_3] 0 (3 * Second) 1%float
  = ValidateCoverage [entry_1_3; entry_0_2] 0 (3 * Second) 1%float.
Proof.
  refine (proj2 (coverage_order_independent [entry_0_2; entry_1_3]
                   [entry_1_3; entry_0_2] 0 (3 * Second) 1%float _)).
  apply perm_swap.
Defined.

Lemma overlapsb_iff (tStart tEnd : Duration) (c : CaptionEntry) :
  overlapsb tStart tEnd c = true <-> overlaps_window tStart tEnd c.
Proof.
  unfold overlapsb, overlaps_window.
  rewrite MaxDuration_max, MinDuration_min. apply Z.ltb_lt.
Qed.

Lemma coverage_step_no_overlap (tStart tEnd acc : Duration) (c : CaptionEntry) :
  overlapsb tStart tEnd c = false -> coverage_step tStart tEnd acc c = acc.
Proof. unfold overlapsb, coverage_step. now intros ->. Qed.

Lemma coverage_fold_filter (tStart tEnd : Duration) (l : list CaptionEntry) :
  forall acc,
    fold_left (coverage_step tStart tEnd) (filter (overlapsb tStart tEnd) l) acc
    = fold_left (coverage_step tStart tEnd) l acc.
Proof.
  induction l as [| c l IH]; intros acc; simpl; [ reflexivity | ].
  destruct (overlapsb tStart tEnd c) eqn:E; simpl.
  - apply IH.
  - rewrite (coverage_step_no_overlap _ _ _ _ E). apply IH.
Qed.

(** X13: only the entries that overlap the window count.  An entry changes the
    accumulator exactly when its interval meets the window, and the covered
    duration and the verdict are those of the overlapping entries alone:
    entries before the window, after it, or with [start >= end] are
    ignored. *)
Theorem coverage_counts_overlapping_entries_only
    (captions : list CaptionEntry) (c : CaptionEntry)
    (tStart tEnd acc : Duration) (requiredCoverage : float) :
  wf_entry c -> Int64.in_range tStart -> Int64.in_range tEnd ->
  Int64.in_range acc ->
  (coverage_step tStart tEnd acc c = acc <-> ~ overlaps_window tStart tEnd c)
  /\ coveredDuration (filter (overlapsb tStart tEnd) captions) tStart tEnd
     = coveredDuration captions tStart tEnd
  /\ ValidateCoverage (filter (overlapsb tStart tEnd) captions) tStart tEnd
       requiredCoverage
     = ValidateCoverage captions tStart tEnd requiredCoverage.
Proof.
  intros [Hcs Hce] Hs He Hacc.
  assert (Hcov : coveredDuration (filter (overlapsb tStart tEnd) captions)
                   tStart tEnd
                 = coveredDuration captions tStart tEnd)
    by apply coverage_fold_filter.
  split; [ | split; [ exact Hcov | unfold ValidateCoverage; now rewrite Hcov ] ].
  rewrite <- overlapsb_iff.
  destruct (overlapsb tStart tEnd c) eqn:E.
  - split; [ | intros H; now elim H ].
    intros Hstep _.
    assert (Hov : overlaps_window tStart tEnd c) by now apply overlapsb_iff.
    unfold overlaps_window in Hov.
    revert Hstep. unfold coverage_step. fold (overlapsb tStart tEnd c).
    rewrite E, MaxDuration_max, MinDuration_min.
    unfold Int64.add, Int64.sub, Int64.wrap, Int64.in_range, Int64.min_int,
      Int64.max_int, Int64.half_modulus, Int64.modulus in *.
    set (d := Z.min (EndTime c) tEnd - Z.max (StartTime c) tStart) in *.
    assert (Hd : 0 < d < 18446744073709551616) by (subst d; lia).
    pose proof (Z.div_mod (d + 9223372036854775808) 18446744073709551616
                  ltac:(lia)) as E1.
    pose proof (Z.mod_pos_bound (d + 9223372036854775808) 18446744073709551616
                  ltac:(lia)) as B1.
    set (w := (d + 9223372036854775808) mod 18446744073709551616) in *.
    pose proof (Z.div_mod (acc + (w - 9223372036854775808) + 9223372036854775808)
                  18446744073709551616 ltac:(lia)) as E2.
    pose proof (Z.mod_pos_bound
                  (acc + (w - 9223372036854775808) + 9223372036854775808)
                  18446744073709551616 ltac:(lia)) as B2.
    intros Hstep. lia.
  - split; [ intros _ H; discriminate | ].
    intros _. now apply coverage_step_no_overlap.
Qed.

Lemma coverage_counts_overlapping_entries_only_witness :
  coveredDuration
    (filter (overlapsb 0 (2 * Second))
       [entry_0_2; mkCaptionEntry (3 * Second) (4 * Second) (str "late")])
    0 (2 * Second)
  = coveredDuration
      [entry_0_2; mkCaptionEntry (3 * Second) (4 * Second) (str "late")]
      0 (2 * Second).
Proof.
  refine (proj1 (proj2 (coverage_counts_overlapping_entries_only
            [entry_0_2; mkCaptionEntry (3 * Second) (4 * Second) (str "late")]
            entry_0_2 0 (2 * Second) 0 1%float _ _ _ _))).
  - split; split; vm_compute; congruence.
  - split; vm_compute; congruence.
  - split; vm_compute; congruence.
  - split; vm_compute; congruence.
Defined.

(* ================================================================= *)
(** * Further properties of trimming *)

Lemma asciiSpace_cases (c : byte) :
  asciiSpace c = true ->
  c = x09 \/ c = x0a \/ c = x0b \/ c = x0c \/ c = x0d \/ c = x20.
Proof.
  unfold asciiSpace. intros H.
  repeat (apply orb_true_iff in H; destruct H as [H | H]);
    apply Byte.byte_dec_bl in H; auto 10.
Qed.


Lemma space2_ascii_l (c1 c2 : byte) : asciiSpace c1 = true -> space2 c1 c2 = false.
Proof.
  intros H. apply asciiSpace_cases in H.
  unfold space2.
  destruct H as [-> | [-> | [-> | [-> | [-> | ->]]]]]; reflexivity.
Qed.

Lemma space3_ascii_1 (c1 c2 c3 : byte) :
  asciiSpace c1 = true -> space3 c1 c2 c3 = false.
Proof.
  intros H. apply asciiSpace_cases in H.
  unfold space3.
  destruct H as [-> | [-> | [-> | [-> | [-> | ->]]]]]; reflexivity.
Qed.

Lemma space3_ascii_2 (c1 c2 c3 : byte) :
  asciiSpace c2 = true -> space3 c1 c2 c3 = false.
Proof.
  intros H. apply asciiSpace_cases in H.
  unfold space3.
  destruct H as [-> | [-> | [-> | [-> | [-> | ->]]]]];
    change (Byte.eqb ?a ?b) with (Byte.eqb a b);
    repeat rewrite andb_false_r; reflexivity.
Qed.









(** What is left of the backward scan does not start with the reversal of a
    white-space rune. *)
Lemma trimLeftSpace_rev_no_leading_space (r : gostring) :
  leading_space_rev (trimLeftSpace_rev r) = false.
Proof.
  assert (H : forall n r, (List.length r <= n)%nat ->
                          leading_space_rev (trimLeftSpace_rev r) = false).
  { clear r. induction n as [| n IH]; intros r Hlen.
    - destruct r; [ reflexivity | simpl in Hlen; lia ].
    - destruct r as [| c1 t1]; [ reflexivity | ].
      simpl in Hlen. cbn [trimLeftSpace_rev].
      destruct (asciiSpace c1) eqn:E1; [ apply IH; lia | ].
      destruct t1 as [| c2 t2]; [ simpl; now rewrite E1 | ].
      simpl in Hlen.
      destruct (space2 c2 c1) eqn:E2; [ apply IH; lia | ].
      destruct t2 as [| c3 t3]; [ simpl; now rewrite E1, E2 | ].
      simpl in Hlen.
      destruct (space3 c3 c2 c1) eqn:E3; [ apply IH; lia | ].
      simpl. now rewrite E1, E2, E3. }
  apply (H (List.length r)). lia.
Qed.

Lemma trimLeftSpace_rev_fixed (r : gostring) :
  leading_space_rev r = false -> trimLeftSpace_rev r = r.
Proof.
  destruct r as [| c1 [| c2 [| c3 t3]]];
    cbn [leading_space_rev trimLeftSpace_rev]; try reflexivity.
  - destruct (asciiSpace c1); simpl; congruence.
  - destruct (asciiSpace c1), (space2 c2 c1); simpl; congruence.
  - destruct (asciiSpace c1), (space2 c2 c1), (space3 c3 c2 c1); simpl;
      congruence.
Qed.

Lemma TrimSpace_fixed (s : gostring) :
  leading_space s = false -> leading_space_rev (rev s) = false ->
  TrimSpace s = s.
Proof.
  intros Hl Hr. unfold TrimSpace, TrimRightSpace.
  rewrite (TrimLeftSpace_fixed s Hl).
  rewrite (trimLeftSpace_rev_fixed (rev s) Hr).
  apply rev_involutive.
Qed.

(** A trimmed line that is not empty is [trimmed]. *)
Lemma TrimSpace_trimmed (text : gostring) :
  TrimSpace text <> [] -> trimmed (TrimSpace text).
Proof.
  intros Hne. split; [ exact Hne | ].
  split; [ apply TrimSpace_no_leading_space | ].
  unfold TrimSpace, TrimRightSpace. rewrite rev_involutive.
  apply trimLeftSpace_rev_no_leading_space.
Qed.

Lemma leading_space_rev_before_blank (r rest : gostring) :
  r <> [] -> leading_space_rev r = false ->
  leading_space_rev (r ++ x20 :: rest) = false.
Proof.
  intros Hne Hlead.
  destruct r as [| c1 [| c2 [| c3 t3]]]; [ congruence | | | exact Hlead ].
  - cbn [leading_space_rev app] in *.
    rewrite (space2_ascii_l x20 c1 eq_refl).
    destruct rest as [| c3 t3];
      [ | rewrite (space3_ascii_2 c3 x20 c1 eq_refl) ];
      destruct (asciiSpace c1); simpl in *; congruence.
  - cbn [leading_space_rev app] in *.
    rewrite (space3_ascii_1 x20 c2 c1 eq_refl).
    destruct (asciiSpace c1), (space2 c2 c1); simpl in *; congruence.
Qed.

Lemma Join_cons_cons (l l2 : gostring) (rest : list gostring) (sep : gostring) :
  Join (l :: l2 :: rest) sep = l ++ sep ++ Join (l2 :: rest) sep.
Proof. reflexivity. Qed.

(** The join of trimmed lines with single spaces is trimmed. *)
Lemma Join_trimmed (lines : list gostring) :
  lines <> [] -> Forall trimmed lines -> trimmed (Join lines [x20]).
Proof.
  induction lines as [| l rest IH]; intros Hne Hall; [ congruence | ].
  inversion Hall as [| ? ? Hl Hrest]; subst.
  destruct rest as [| l2 rest]; [ exact Hl | ].
  rewrite Join_cons_cons.
  destruct (IH ltac:(discriminate) Hrest) as (Jne & Jlead & Jtrail).
  destruct Hl as (Hlne & Hllead & Hltrail).
  split; [ destruct l; [ congruence | discriminate ] | ].
  split.
  - cbn [app]. apply leading_space_before_blank. now split.
  - cbn [app]. rewrite rev_app_distr. cbn [rev]. rewrite <- app_assoc.
    cbn [app]. apply leading_space_rev_before_blank; [ | exact Jtrail ].
    intros E. apply Jne. rewrite <- (rev_involutive (Join _ _)).
    now rewrite E.
Qed.

Lemma trimmed_TrimSpace (s : gostring) : trimmed s -> TrimSpace s = s.
Proof. intros (_ & Hl & Hr). now apply TrimSpace_fixed. Qed.

(* ================================================================= *)
(** * Further properties of the block scanners *)

Lemma isEmpty_true (s : gostring) : isEmpty s = true -> s = [].
Proof. destruct s; [ reflexivity | discriminate ]. Qed.

Lemma isEmpty_false (s : gostring) : isEmpty s = false -> s <> [].
Proof. destruct s; [ discriminate | discriminate ]. Qed.

Lemma length_pos_true (A : Type) (l : list A) :
  (0 <? Z.of_nat (List.length l)) = true -> l <> [].
Proof. destruct l; discriminate. Qed.

Lemma length_pos_false (A : Type) (l : list A) :
  (0 <? Z.of_nat (List.length l)) = false -> l = [].
Proof. destruct l; [ reflexivity | discriminate ]. Qed.

(** Every iteration of the loop of [ParseSRT] is one of the transitions. *)
Lemma ParseSRT_line_step (st : srt_state) (text : gostring) :
  exists st', ParseSRT_line st text = inl st'
              /\ srt_step st (TrimSpace text) st'.
Proof.
  unfold ParseSRT_line, ret.
  destruct (isEmpty (TrimSpace text)) eqn:Eempty.
  { apply isEmpty_true in Eempty.
    destruct (0 <? Z.of_nat (List.length (textLines st))) eqn:Elen.
    - eexists. split; [ reflexivity | ].
      apply srt_finalize; [ exact Eempty | now apply length_pos_true ].
    - eexists. split; [ reflexivity | ].
      pose proof (length_pos_false _ _ Elen) as Hnil. rewrite Hnil.
      apply srt_blank; assumption. }
  apply isEmpty_false in Eempty.
  destruct (expectingSequence st) eqn:Eseq.
  { eexists. split; [ reflexivity | now apply srt_sequence ]. }
  unfold srtTimeRegex.
  destruct (FindStringSubmatch_timing "," (TrimSpace text))
    as [Hnil | (w & w1 & w2 & Heq & H1 & H2)].
  - rewrite Hnil. cbn [List.length Nat.eqb].
    eexists. split; [ reflexivity | now apply srt_text ].
  - rewrite Heq. cbn [List.length Nat.eqb index nth].
    destruct (parseSRTTime_is_stamp w1 H1) as [d1 Hd1].
    destruct (parseSRTTime_is_stamp w2 H2) as [d2 Hd2].
    rewrite Hd1, Hd2.
    eexists. split; [ reflexivity | ].
    now apply (srt_timing st (TrimSpace text) w w1 w2 d1 d2).
Qed.

Lemma ParseWebVTT_block_step (st : vtt_state) (line : gostring) :
  exists st', ParseWebVTT_block st line = inl st' /\ vtt_block_step st line st'.
Proof.
  unfold ParseWebVTT_block, ret.
  destruct (isEmpty line) eqn:Eempty.
  { apply isEmpty_true in Eempty.
    destruct (0 <? Z.of_nat (List.length (vtt_textLines st))) eqn:Elen.
    - eexists. split; [ reflexivity | ].
      apply vtt_finalize; [ exact Eempty | now apply length_pos_true ].
    - eexists. split; [ reflexivity | ].
      apply vtt_blank; [ exact Eempty | now apply length_pos_false ]. }
  apply isEmpty_false in Eempty.
  unfold vttTimeRegex.
  destruct (FindStringSubmatch_timing "." line)
    as [Hnil | (w & w1 & w2 & Heq & H1 & H2)].
  - rewrite Hnil. cbn [List.length Nat.eqb].
    eexists. split; [ reflexivity | now apply vtt_text ].
  - rewrite Heq. cbn [List.length Nat.eqb index nth].
    destruct (parseWebVTTTime_is_stamp w1 H1) as [d1 Hd1].
    destruct (parseWebVTTTime_is_stamp w2 H2) as [d2 Hd2].
    rewrite Hd1, Hd2.
    eexists. split; [ reflexivity | ].
    now apply (vtt_timing st line w w1 w2 d1 d2).
Qed.

Lemma ParseWebVTT_line_step (st : vtt_state) (text : gostring) :
  exists st', ParseWebVTT_line st text = inl st'
              /\ vtt_step st (TrimSpace text) st'.
Proof.
  unfold ParseWebVTT_line.
  destruct (inHeader st) eqn:Eh.
  - fold (header_line (TrimSpace text)).
    destruct (header_line (TrimSpace text)) eqn:Ehl.
    + exists st. split; [ reflexivity | now apply vtt_skip_header ].
    + destruct (ParseWebVTT_block_step
                  (mkVttState (vtt_captions st) (vtt_currentEntry st)
                     (vtt_textLines st) false) (TrimSpace text))
        as [st' [Heq Hstep]].
      exists st'. split; [ exact Heq | now apply vtt_leave_header ].
  - destruct (ParseWebVTT_block_step st (TrimSpace text)) as [st' [Heq Hstep]].
    exists st'. split; [ exact Heq | now apply vtt_in_body ].
Qed.

(** The result of a parser is the result of the state its loop ends in. *)
Lemma ParseSRT_result (lines : list gostring) (scanErr : option error) :
  exists st, ParseSRT_loop lines srt_init = inl st
             /\ ParseSRT lines scanErr = (srt_result st, scanErr).
Proof.
  destruct (ParseSRT_loop_total lines srt_init) as [st Hst].
  exists st. split; [ exact Hst | ].
  unfold ParseSRT, srt_result. rewrite Hst.
  destruct (textLines st); reflexivity.
Qed.

Lemma ParseWebVTT_result (lines : list gostring) (scanErr : option error) :
  exists st, ParseWebVTT_loop lines vtt_init = inl st
             /\ ParseWebVTT lines scanErr = (vtt_result st, scanErr).
Proof.
  destruct (ParseWebVTT_loop_total lines vtt_init) as [st Hst].
  exists st. split; [ exact Hst | ].
  unfold ParseWebVTT, vtt_result. rewrite Hst.
  destruct (vtt_textLines st); reflexivity.
Qed.

(** A property of states that every transition keeps holds when the loop
    ends. *)
Lemma ParseSRT_loop_invariant (I : srt_state -> Prop) (lines : list gostring) :
  (forall st text st', In text lines -> I st ->
                       srt_step st (TrimSpace text) st' -> I st') ->
  forall st st', I st -> ParseSRT_loop lines st = inl st' -> I st'.
Proof.
  induction lines as [| text rest IH]; intros Hstep st st' Hst;
    cbn [ParseSRT_loop].
  - unfold ret. intros Heq. inversion Heq; subst. exact Hst.
  - destruct (ParseSRT_line_step st text) as [st1 [Heq Hs]].
    rewrite Heq. cbn [bind].
    apply IH.
    + intros s t s' Hin. apply Hstep. now right.
    + apply (Hstep st text st1); [ now left | exact Hst | exact Hs ].
Qed.

Lemma ParseWebVTT_loop_invariant (I : vtt_state -> Prop) (lines : list gostring) :
  (forall st text st', In text lines -> I st ->
                       vtt_step st (TrimSpace text) st' -> I st') ->
  forall st st', I st -> ParseWebVTT_loop lines st = inl st' -> I st'.
Proof.
  induction lines as [| text rest IH]; intros Hstep st st' Hst;
    cbn [ParseWebVTT_loop].
  - unfold ret. intros Heq. inversion Heq; subst. exact Hst.
  - destruct (ParseWebVTT_line_step st text) as [st1 [Heq Hs]].
    rewrite Heq. cbn [bind].
    apply IH.
    + intros s t s' Hin. apply Hstep. now right.
    + apply (Hstep st text st1); [ now left | exact Hst | exact Hs ].
Qed.

(** ** The times of the entries *)

Lemma stamp_ms_range (h1 h2 m1 m2 s1 s2 k1 k2 k3 : byte) :
  all_digits [h1; h2; m1; m2; s1; s2; k1; k2; k3] ->
  0 <= stamp_ms h1 h2 m1 m2 s1 s2 k1 k2 k3 <= max_clock_ms.
Proof.
  intros Hd. unfold all_digits in Hd.
  repeat match goal with
         | H : Forall _ (_ :: _) |- _ => inversion H; clear H; subst
         | H : Forall _ [] |- _ => clear H
         end.
  repeat match goal with
         | H : perl_d ?c = true |- _ =>
             pose proof (perl_d_range c H); clear H
         end.
  unfold stamp_ms, max_clock_ms. lia.
Qed.

Lemma parseClock_clock_time (sep : byte) (w : gostring) (d : Duration) :
  perl_d sep = false -> Byte.eqb sep ":" = false -> is_stamp sep w ->
  parseClock sep w = inl d -> clock_time d.
Proof.
  intros Hsep Hc (h1 & h2 & m1 & m2 & s1 & s2 & k1 & k2 & k3 & Hd & ->) Hp.
  rewrite (parseClock_stamp sep _ _ _ _ _ _ _ _ _ Hsep Hc Hd) in Hp.
  inversion Hp; subst.
  exists (stamp_ms h1 h2 m1 m2 s1 s2 k1 k2 k3).
  split; [ now apply stamp_ms_range | reflexivity ].
Qed.

Lemma clock_time_zero : clock_time 0.
Proof. exists 0. unfold max_clock_ms. split; [ lia | reflexivity ]. Qed.

Lemma clock_entry_wf (c : CaptionEntry) : clock_entry c -> wf_entry c.
Proof.
  intros [(ms1 & H1 & E1) (ms2 & H2 & E2)].
  unfold wf_entry, Int64.in_range, Int64.min_int, Int64.max_int.
  rewrite E1, E2. unfold max_clock_ms, Millisecond in *. lia.
Qed.

Lemma srt_step_clock (st st' : srt_state) (line : gostring) :
  Forall clock_entry (captions st) /\ clock_entry (currentEntry st) ->
  srt_step st line st' ->
  Forall clock_entry (captions st') /\ clock_entry (currentEntry st').
Proof.
  intros [Hcaps Hcur] Hstep.
  inversion Hstep; subst; cbn; try (split; assumption).
  - split; [ | exact Hcur ].
    apply Forall_app. split; [ exact Hcaps | ].
    constructor; [ exact Hcur | constructor ].
  - split; [ exact Hcaps | ].
    split; cbn.
    + apply (parseClock_clock_time "," w1 startTime);
        [ reflexivity | reflexivity | assumption | ].
      now rewrite <- parseSRTTime_parseClock.
    + apply (parseClock_clock_time "," w2 endTime);
        [ reflexivity | reflexivity | assumption | ].
      now rewrite <- parseSRTTime_parseClock.
Qed.

Lemma vtt_block_step_clock (st st' : vtt_state) (line : gostring) :
  Forall clock_entry (vtt_captions st) /\ clock_entry (vtt_currentEntry st) ->
  vtt_block_step st line st' ->
  Forall clock_entry (vtt_captions st') /\ clock_entry (vtt_currentEntry st').
Proof.
  intros [Hcaps Hcur] Hstep.
  inversion Hstep; subst; cbn; try (split; assumption).
  - split; [ | exact Hcur ].
    apply Forall_app. split; [ exact Hcaps | ].
    constructor; [ exact Hcur | constructor ].
  - split; [ exact Hcaps | ].
    split; cbn.
    + apply (parseClock_clock_time "." w1 startTime);
        [ reflexivity | reflexivity | assumption | ].
      now rewrite <- parseWebVTTTime_parseClock.
    + apply (parseClock_clock_time "." w2 endTime);
        [ reflexivity | reflexivity | assumption | ].
      now rewrite <- parseWebVTTTime_parseClock.
Qed.

Lemma vtt_step_lift (I : vtt_state -> Prop) (line : gostring) :
  (forall c e t h h', I (mkVttState c e t h) -> I (mkVttState c e t h')) ->
  (forall st st', I st -> vtt_block_step st line st' -> I st') ->
  forall st st', I st -> vtt_step st line st' -> I st'.
Proof.
  intros Hh Hb st st' Hst Hstep.
  inversion Hstep; subst.
  - exact Hst.
  - eapply Hb; [ | eassumption ].
    destruct st as [c e t h]. cbn. now apply (Hh c e t h false).
  - eapply Hb; eassumption.
Qed.

Lemma ParseSRT_output_clock (lines : list gostring) (scanErr : option error) :
  Forall clock_entry (fst (ParseSRT lines scanErr)).
Proof.
  destruct (ParseSRT_result lines scanErr) as [st [Hloop ->]]. cbn [fst].
  assert (Hinv : Forall clock_entry (captions st)
                 /\ clock_entry (currentEntry st)).
  { apply (ParseSRT_loop_invariant
             (fun st => Forall clock_entry (captions st)
                        /\ clock_entry (currentEntry st))
             lines) with (st := srt_init); [ | | exact Hloop ].
    - intros s t s' _. apply srt_step_clock.
    - split; [ constructor | split; apply clock_time_zero ]. }
  destruct Hinv as [Hcaps Hcur]. unfold srt_result.
  destruct (textLines st); [ exact Hcaps | ].
  apply Forall_app. split; [ exact Hcaps | ].
  constructor; [ exact Hcur | constructor ].
Qed.

Lemma ParseWebVTT_output_clock (lines : list gostring) (scanErr : option error) :
  Forall clock_entry (fst (ParseWebVTT lines scanErr)).
Proof.
  destruct (ParseWebVTT_result lines scanErr) as [st [Hloop ->]]. cbn [fst].
  assert (Hinv : Forall clock_entry (vtt_captions st)
                 /\ clock_entry (vtt_currentEntry st)).
  { apply (ParseWebVTT_loop_invariant
             (fun st => Forall clock_entry (vtt_captions st)
                        /\ clock_entry (vtt_currentEntry st))
             lines) with (st := vtt_init); [ | | exact Hloop ].
    - intros s t s' _.
      apply (vtt_step_lift
               (fun st => Forall clock_entry (vtt_captions st)
                          /\ clock_entry (vtt_currentEntry st))).
      + intros c e tl h h' H. exact H.
      + intros s0 s0'. apply vtt_block_step_clock.
    - split; [ constructor | split; apply clock_time_zero ]. }
  destruct Hinv as [Hcaps Hcur]. unfold vtt_result.
  destruct (vtt_textLines st); [ exact Hcaps | ].
  apply Forall_app. split; [ exact Hcaps | ].
  constructor; [ exact Hcur | constructor ].
Qed.

(** X1: every entry a parser puts out has a start and an end time that are
    whole milliseconds from 0 to 99:99:99,999 (362439999 ms); in particular
    both fit [int64] and neither is negative. *)
Theorem parser_times_are_clock_times
    (lines : list gostring) (scanErr : option error) :
  Forall (fun c => clock_entry c /\ wf_entry c
                   /\ 0 <= StartTime c <= max_clock_ms * Millisecond
                   /\ 0 <= EndTime c <= max_clock_ms * Millisecond)
    (fst (ParseSRT lines scanErr))
  /\ Forall (fun c => clock_entry c /\ wf_entry c
                      /\ 0 <= StartTime c <= max_clock_ms * Millisecond
                      /\ 0 <= EndTime c <= max_clock_ms * Millisecond)
       (fst (ParseWebVTT lines scanErr)).
Proof.
  assert (H : forall c, clock_entry c ->
            clock_entry c /\ wf_entry c
            /\ 0 <= StartTime c <= max_clock_ms * Millisecond
            /\ 0 <= EndTime c <= max_clock_ms * Millisecond).
  { intros c Hc. split; [ exact Hc | ].
    split; [ now apply clock_entry_wf | ].
    destruct Hc as [(ms1 & H1 & E1) (ms2 & H2 & E2)].
    rewrite E1, E2. unfold Millisecond. lia. }
  split; (eapply Forall_impl; [ exact H | ]).
  - apply ParseSRT_output_clock.
  - apply ParseWebVTT_output_clock.
Qed.

Lemma overlap_sum_clock_bound (l : list CaptionEntry) (tStart tEnd : Z) :
  Forall clock_entry l ->
  overlap_sum l tStart tEnd
  <= Z.of_nat (List.length l) * (max_clock_ms * Millisecond).
Proof.
  unfold overlap_sum.
  induction 1 as [| c l Hc Hl IH]; [ simpl; lia | ].
  cbn [map fold_right List.length]. rewrite Nat2Z.inj_succ.
  destruct Hc as [(ms1 & H1 & E1) (ms2 & H2 & E2)].
  set (rest := fold_right Z.add 0 (map (entry_overlap tStart tEnd) l)) in *.
  unfold entry_overlap. rewrite E1, E2.
  unfold max_clock_ms, Millisecond in *. lia.
Qed.

Lemma coveredDuration_clock_exact (l : list CaptionEntry) (tStart tEnd : Duration) :
  Forall clock_entry l ->
  Int64.in_range tStart -> Int64.in_range tEnd ->
  0 < Int64.sub tEnd tStart ->
  Z.of_nat (List.length l) <= safe_entry_count ->
  coveredDuration l tStart tEnd = overlap_sum l tStart tEnd.
Proof.
  intros Hc Hs He Hw Hn.
  assert (Hwf : Forall wf_entry l)
    by (eapply Forall_impl; [ apply clock_entry_wf | exact Hc ]).
  unfold coveredDuration.
  rewrite (coverage_fold_overlap_sum tStart tEnd l Hs He Hw Hwf 0)
    by (unfold Int64.in_range, Int64.min_int, Int64.max_int; lia).
  rewrite Z.add_0_l. apply int64_wrap_small.
  pose proof (overlap_sum_nonneg l tStart tEnd).
  pose proof (overlap_sum_clock_bound l tStart tEnd Hc).
  unfold Int64.in_range, Int64.min_int, Int64.max_int, safe_entry_count,
    max_clock_ms, Millisecond in *.
  nia.
Qed.

(** X2: on the output of a parser with at most 25447 entries, the covered
    duration of the evaluator is the exact sum of the overlaps, for every
    window the evaluator accepts: the accumulator cannot wrap. *)
Theorem coverage_of_parsed_file_is_exact
    (lines : list gostring) (scanErr : option error) (tStart tEnd : Duration) :
  Int64.in_range tStart -> Int64.in_range tEnd ->
  0 < Int64.sub tEnd tStart ->
  (Z.of_nat (List.length (fst (ParseSRT lines scanErr))) <= safe_entry_count ->
   coveredDuration (fst (ParseSRT lines scanErr)) tStart tEnd
   = overlap_sum (fst (ParseSRT lines scanErr)) tStart tEnd)
  /\ (Z.of_nat (List.length (fst (ParseWebVTT lines scanErr)))
      <= safe_entry_count ->
      coveredDuration (fst (ParseWebVTT lines scanErr)) tStart tEnd
      = overlap_sum (fst (ParseWebVTT lines scanErr)) tStart tEnd).
Proof.
  intros Hs He Hw. split; intros Hn.
  - apply coveredDuration_clock_exact; auto. apply ParseSRT_output_clock.
  - apply coveredDuration_clock_exact; auto. apply ParseWebVTT_output_clock.
Qed.

(** ** The texts of the entries *)

Lemma srt_step_trimmed (st st' : srt_state) (line : gostring) :
  (line <> [] -> trimmed line) ->
  Forall (fun c => trimmed (Text c)) (captions st)
  /\ Forall trimmed (textLines st) ->
  srt_step st line st' ->
  Forall (fun c => trimmed (Text c)) (captions st')
  /\ Forall trimmed (textLines st').
Proof.
  intros Hline [Hcaps Hlines] Hstep.
  inversion Hstep; subst; cbn; try (split; assumption).
  - split; [ | constructor ].
    apply Forall_app. split; [ exact Hcaps | ].
    constructor; [ | constructor ].
    now apply (Join_trimmed (textLines st)).
  - split; [ exact Hcaps | constructor ].
  - split; [ exact Hcaps | ].
    apply Forall_app. split; [ exact Hlines | ].
    constructor; [ now apply Hline | constructor ].
Qed.

Lemma vtt_block_step_trimmed (st st' : vtt_state) (line : gostring) :
  (line <> [] -> trimmed line) ->
  Forall (fun c => trimmed (Text c)) (vtt_captions st)
  /\ Forall trimmed (vtt_textLines st) ->
  vtt_block_step st line st' ->
  Forall (fun c => trimmed (Text c)) (vtt_captions st')
  /\ Forall trimmed (vtt_textLines st').
Proof.
  intros Hline [Hcaps Hlines] Hstep.
  inversion Hstep; subst; cbn; try (split; assumption).
  - split; [ | constructor ].
    apply Forall_app. split; [ exact Hcaps | ].
    constructor; [ | constructor ].
    now apply (Join_trimmed (vtt_textLines st)).
  - split; [ exact Hcaps | ].
    apply Forall_app. split; [ exact Hlines | ].
    constructor; [ now apply Hline | constructor ].
Qed.

Lemma ParseSRT_output_trimmed (lines : list gostring) (scanErr : option error) :
  Forall (fun c => trimmed (Text c)) (fst (ParseSRT lines scanErr)).
Proof.
  destruct (ParseSRT_result lines scanErr) as [st [Hloop ->]]. cbn [fst].
  assert (Hinv : Forall (fun c => trimmed (Text c)) (captions st)
                 /\ Forall trimmed (textLines st)).
  { apply (ParseSRT_loop_invariant
             (fun st => Forall (fun c => trimmed (Text c)) (captions st)
                        /\ Forall trimmed (textLines st))
             lines) with (st := srt_init); [ | | exact Hloop ].
    - intros s t s' _. apply srt_step_trimmed. apply TrimSpace_trimmed.
    - split; constructor. }
  destruct Hinv as [Hcaps Hlines]. unfold srt_result.
  destruct (textLines st) as [| l ls] eqn:E; [ exact Hcaps | ].
  apply Forall_app. split; [ exact Hcaps | ].
  constructor; [ | constructor ].
  apply (Join_trimmed (l :: ls)); [ discriminate | exact Hlines ].
Qed.

Lemma ParseWebVTT_output_trimmed (lines : list gostring) (scanErr : option error) :
  Forall (fun c => trimmed (Text c)) (fst (ParseWebVTT lines scanErr)).
Proof.
  destruct (ParseWebVTT_result lines scanErr) as [st [Hloop ->]]. cbn [fst].
  assert (Hinv : Forall (fun c => trimmed (Text c)) (vtt_captions st)
                 /\ Forall trimmed (vtt_textLines st)).
  { apply (ParseWebVTT_loop_invariant
             (fun st => Forall (fun c => trimmed (Text c)) (vtt_captions st)
                        /\ Forall trimmed (vtt_textLines st))
             lines) with (st := vtt_init); [ | | exact Hloop ].
    - intros s t s' _.
      apply (vtt_step_lift
               (fun st => Forall (fun c => trimmed (Text c)) (vtt_captions st)
                          /\ Forall trimmed (vtt_textLines st))).
      + intros c e tl h h' H. exact H.
      + intros s0 s0'. apply vtt_block_step_trimmed.
        apply TrimSpace_trimmed.
    - split; constructor. }
  destruct Hinv as [Hcaps Hlines]. unfold vtt_result.
  destruct (vtt_textLines st) as [| l ls] eqn:E; [ exact Hcaps | ].
  apply Forall_app. split; [ exact Hcaps | ].
  constructor; [ | constructor ].
  apply (Join_trimmed (l :: ls)); [ discriminate | exact Hlines ].
Qed.

Lemma Join_map_trimmed (l : list CaptionEntry) :
  l <> [] -> Forall (fun c => trimmed (Text c)) l ->
  trimmed (Join (map Text l) [x20]).
Proof.
  intros Hne Hall. apply Join_trimmed.
  - destruct l; [ congruence | discriminate ].
  - now apply Forall_map.
Qed.

Lemma trimmed_nonblank (c : CaptionEntry) : trimmed (Text c) -> nonblank c.
Proof.
  intros Ht. unfold nonblank. rewrite (trimmed_TrimSpace _ Ht).
  now destruct Ht.
Qed.

Lemma ExtractAllText_trimmed_entries (l : list CaptionEntry) :
  Forall (fun c => trimmed (Text c)) l ->
  TrimSpace (ExtractAllText l) = ExtractAllText l.
Proof.
  intros Hall. rewrite ExtractAllText_filter.
  rewrite filter_kept_nonblank
    by (eapply Forall_impl; [ apply trimmed_nonblank | exact Hall ]).
  destruct l as [| c l']; [ reflexivity | ].
  apply trimmed_TrimSpace. apply Join_map_trimmed; [ discriminate | exact Hall ].
Qed.

(** X3: the text of every entry a parser puts out is not empty and has no
    white space at its start or at its end ([TrimSpace] leaves it as it is),
    and so has the text [ExtractAllText] aggregates from the output. *)
Theorem parser_texts_are_trimmed
    (lines : list gostring) (scanErr : option error) :
  Forall (fun c => Text c <> [] /\ TrimSpace (Text c) = Text c)
    (fst (ParseSRT lines scanErr))
  /\ Forall (fun c => Text c <> [] /\ TrimSpace (Text c) = Text c)
       (fst (ParseWebVTT lines scanErr))
  /\ TrimSpace (ExtractAllText (fst (ParseSRT lines scanErr)))
     = ExtractAllText (fst (ParseSRT lines scanErr))
  /\ TrimSpace (ExtractAllText (fst (ParseWebVTT lines scanErr)))
     = ExtractAllText (fst (ParseWebVTT lines scanErr)).
Proof.
  pose proof (ParseSRT_output_trimmed lines scanErr) as Hs.
  pose proof (ParseWebVTT_output_trimmed lines scanErr) as Hv.
  assert (H : forall c, trimmed (Text c) ->
                        Text c <> [] /\ TrimSpace (Text c) = Text c).
  { intros c Ht. split; [ now destruct Ht | now apply trimmed_TrimSpace ]. }
  split; [ eapply Forall_impl; [ exact H | exact Hs ] | ].
  split; [ eapply Forall_impl; [ exact H | exact Hv ] | ].
  split; now apply ExtractAllText_trimmed_entries.
Qed.


(** ** Blank lines, header lines and white space around lines *)

Lemma ParseSRT_loop_app (l1 l2 : list gostring) :
  forall st,
    ParseSRT_loop (l1 ++ l2) st
    = bind (ParseSRT_loop l1 st) (ParseSRT_loop l2).
Proof.
  induction l1 as [| text rest IH]; intros st; [ reflexivity | ].
  cbn [app ParseSRT_loop].
  destruct (ParseSRT_line st text) as [st1 | e]; cbn [bind]; [ apply IH | ].
  reflexivity.
Qed.

Lemma ParseWebVTT_loop_app (l1 l2 : list gostring) :
  forall st,
    ParseWebVTT_loop (l1 ++ l2) st
    = bind (ParseWebVTT_loop l1 st) (ParseWebVTT_loop l2).
Proof.
  induction l1 as [| text rest IH]; intros st; [ reflexivity | ].
  cbn [app ParseWebVTT_loop].
  destruct (ParseWebVTT_line st text) as [st1 | e]; cbn [bind]; [ apply IH | ].
  reflexivity.
Qed.

Lemma ParseSRT_line_blank (st : srt_state) (text : gostring) :
  blank_line text ->
  exists st', ParseSRT_line st text = inl st'
              /\ srt_closed st' /\ srt_result st' = srt_result st.
Proof.
  intros Hb. unfold blank_line in Hb.
  unfold ParseSRT_line, ret. rewrite Hb. cbn [isEmpty].
  destruct (textLines st) as [| l ls] eqn:E; cbn [List.length Z.of_nat Z.ltb Z.compare].
  - eexists. split; [ reflexivity | ].
    split; [ split; reflexivity | ].
    unfold srt_result. cbn. now rewrite E.
  - eexists. split; [ reflexivity | ].
    split; [ split; reflexivity | ].
    unfold srt_result. cbn. now rewrite E.
Qed.




Lemma ParseSRT_of_loop (lines : list gostring) (scanErr : option error)
    (st : srt_state) :
  ParseSRT_loop lines srt_init = inl st ->
  ParseSRT lines scanErr = (srt_result st, scanErr).
Proof.
  intros H. unfold ParseSRT, srt_result. rewrite H.
  destruct (textLines st); reflexivity.
Qed.

Lemma vtt_block_blank (st : vtt_state) :
  exists st', ParseWebVTT_block st [] = inl st'
              /\ vtt_textLines st' = [] /\ inHeader st' = inHeader st
              /\ vtt_result st' = vtt_result st.
Proof.
  unfold ParseWebVTT_block, ret. cbn [isEmpty].
  destruct (vtt_textLines st) as [| l ls] eqn:E;
    cbn [List.length Z.of_nat Z.ltb Z.compare].
  - exists st. auto.
  - eexists. split; [ reflexivity | ].
    cbn. split; [ reflexivity | ]. split; [ reflexivity | ].
    unfold vtt_result. cbn. now rewrite E.
Qed.

Lemma ParseWebVTT_line_blank (st : vtt_state) (text : gostring) :
  blank_line text ->
  exists st', ParseWebVTT_line st text = inl st'
              /\ (inHeader st = false -> vtt_textLines st' = [])
              /\ inHeader st' = inHeader st
              /\ vtt_result st' = vtt_result st.
Proof.
  intros Hb. unfold blank_line in Hb.
  unfold ParseWebVTT_line. rewrite Hb. cbn [isEmpty orb].
  destruct (inHeader st) eqn:Eh.
  - exists st. unfold ret. repeat split; auto. discriminate.
  - destruct (vtt_block_blank st) as [st' (H1 & H2 & H3 & H4)].
    exists st'. rewrite H3, Eh. auto.
Qed.

Lemma ParseWebVTT_line_blank_closed (st : vtt_state) (text : gostring) :
  blank_line text -> inHeader st = true \/ vtt_textLines st = [] ->
  ParseWebVTT_line st text = inl st.
Proof.
  intros Hb Hc. unfold blank_line in Hb.
  unfold ParseWebVTT_line. rewrite Hb. cbn [isEmpty orb].
  destruct (inHeader st) eqn:Eh; [ reflexivity | ].
  destruct Hc as [Hc | Hc]; [ discriminate | ].
  unfold ParseWebVTT_block. cbn [isEmpty]. now rewrite Hc.
Qed.



Lemma ParseWebVTT_of_loop (lines : list gostring) (scanErr : option error)
    (st : vtt_state) :
  ParseWebVTT_loop lines vtt_init = inl st ->
  ParseWebVTT lines scanErr = (vtt_result st, scanErr).
Proof.
  intros H. unfold ParseWebVTT, vtt_result. rewrite H.
  destruct (vtt_textLines st); reflexivity.
Qed.








(** ** White space around the lines *)







(** ** Lines that cannot be timing lines *)

Lemma TrimLeftSpace_suffix (s : gostring) :
  exists k, s = k ++ TrimLeftSpace s.
Proof.
  assert (H : forall n s, (List.length s <= n)%nat ->
                          exists k, s = k ++ TrimLeftSpace s).
  { clear s. induction n as [| n IH]; intros s Hlen.
    - destruct s; [ now exists [] | simpl in Hlen; lia ].
    - destruct s as [| c1 t1]; [ now exists [] | ].
      simpl in Hlen. cbn [TrimLeftSpace].
      destruct (asciiSpace c1).
      { destruct (IH t1) as [k Hk]; [ lia | ].
        exists (c1 :: k). simpl. now rewrite <- Hk. }
      destruct t1 as [| c2 t2]; [ now exists [] | ].
      simpl in Hlen.
      destruct (space2 c1 c2).
      { destruct (IH t2) as [k Hk]; [ lia | ].
        exists (c1 :: c2 :: k). simpl. now rewrite <- Hk. }
      destruct t2 as [| c3 t3]; [ now exists [] | ].
      simpl in Hlen.
      destruct (space3 c1 c2 c3).
      { destruct (IH t3) as [k Hk]; [ lia | ].
        exists (c1 :: c2 :: c3 :: k). simpl. now rewrite <- Hk. }
      now exists []. }
  apply (H (List.length s)). lia.
Qed.

(** [TrimSpace] returns a piece of its argument. *)
Lemma TrimSpace_piece (s : gostring) :
  exists before after, s = before ++ TrimSpace s ++ after.
Proof.
  destruct (TrimLeftSpace_suffix s) as [k Hk].
  destruct (TrimRightSpace_prefix (TrimLeftSpace s)) as [q Hq].
  exists k, q. unfold TrimSpace. now rewrite <- Hq.
Qed.

Lemma In_TrimSpace (c : byte) (s : gostring) :
  In c (TrimSpace s) -> In c s.
Proof.
  intros H. destruct (TrimSpace_piece s) as (a & b & E). rewrite E.
  apply in_or_app. right. apply in_or_app. now left.
Qed.

Lemma is_stamp_has_sep (sep : byte) (w : gostring) :
  is_stamp sep w -> In sep w.
Proof.
  intros (h1 & h2 & m1 & m2 & s1 & s2 & k1 & k2 & k3 & _ & ->).
  unfold stamp_text. simpl. auto 12.
Qed.

Lemma lang_timing_has_sep (sep : byte) (w : gostring) :
  lang (timingRegex sep) w -> In sep w.
Proof.
  unfold timingRegex. cbn [lang].
  intros (w1 & w2 & -> & H1 & _).
  apply in_or_app. left.
  apply is_stamp_has_sep. now apply lang_stamp.
Qed.

(** A line without the sub-second separator of the format does not match
    the timing pattern. *)
Lemma FindStringSubmatch_without_sep (sep : byte) (line : gostring) :
  ~ In sep line -> FindStringSubmatch (timingRegex sep) line = [].
Proof.
  intros Hno. apply FindStringSubmatch_nil_iff.
  intros (before & w & after & -> & Hl).
  apply Hno. apply in_or_app. right. apply in_or_app. left.
  now apply lang_timing_has_sep.
Qed.

Lemma srt_step_zero_timed (st st' : srt_state) (line : gostring) :
  ~ In "," line ->
  Forall zero_timed (captions st) /\ zero_timed (currentEntry st) ->
  srt_step st line st' ->
  Forall zero_timed (captions st') /\ zero_timed (currentEntry st').
Proof.
  intros Hno [Hcaps Hcur] Hstep.
  inversion Hstep; subst; cbn; try (split; assumption).
  - split; [ | exact Hcur ].
    apply Forall_app. split; [ exact Hcaps | ].
    constructor; [ exact Hcur | constructor ].
  - exfalso.
    match goal with
    | H : FindStringSubmatch srtTimeRegex line = _ :: _ |- _ =>
        unfold srtTimeRegex in H;
        rewrite (FindStringSubmatch_without_sep "," line Hno) in H;
        discriminate
    end.
Qed.

Lemma vtt_block_step_zero_timed (st st' : vtt_state) (line : gostring) :
  ~ In "." line ->
  Forall zero_timed (vtt_captions st) /\ zero_timed (vtt_currentEntry st) ->
  vtt_block_step st line st' ->
  Forall zero_timed (vtt_captions st') /\ zero_timed (vtt_currentEntry st').
Proof.
  intros Hno [Hcaps Hcur] Hstep.
  inversion Hstep; subst; cbn; try (split; assumption).
  - split; [ | exact Hcur ].
    apply Forall_app. split; [ exact Hcaps | ].
    constructor; [ exact Hcur | constructor ].
  - exfalso.
    match goal with
    | H : FindStringSubmatch vttTimeRegex line = _ :: _ |- _ =>
        unfold vttTimeRegex in H;
        rewrite (FindStringSubmatch_without_sep "." line Hno) in H;
        discriminate
    end.
Qed.

(** X9: a line without a comma is never taken as an SRT timing line, and a
    line without a period never as a WebVTT one.  When no line of the input
    has the separator of the format (a WebVTT file given to [ParseSRT], say),
    the parser reports no error and every entry keeps the zero start and
    end time. *)
Theorem parser_without_timing_lines
    (lines : list gostring) (scanErr : option error) :
  (forall line, ~ In "," line -> FindStringSubmatch srtTimeRegex line = [])
  /\ (forall line, ~ In "." line -> FindStringSubmatch vttTimeRegex line = [])
  /\ (Forall (fun text => ~ In "," text) lines ->
      Forall zero_timed (fst (ParseSRT lines scanErr))
      /\ snd (ParseSRT lines scanErr) = scanErr)
  /\ (Forall (fun text => ~ In "." text) lines ->
      Forall zero_timed (fst (ParseWebVTT lines scanErr))
      /\ snd (ParseWebVTT lines scanErr) = scanErr).
Proof.
  split; [ intros line; apply FindStringSubmatch_without_sep | ].
  split; [ intros line; apply FindStringSubmatch_without_sep | ].
  split; intros Hno; rewrite Forall_forall in Hno.
  - split; [ | apply ParseSRT_error_is_scanner_error ].
    destruct (ParseSRT_result lines scanErr) as [st [Hloop ->]]. cbn [fst].
    assert (Hinv : Forall zero_timed (captions st)
                   /\ zero_timed (currentEntry st)).
    { apply (ParseSRT_loop_invariant
               (fun st => Forall zero_timed (captions st)
                          /\ zero_timed (currentEntry st))
               lines) with (st := srt_init); [ | | exact Hloop ].
      - intros s t s' Hin. apply srt_step_zero_timed.
        intros Hc. apply (Hno t Hin). now apply In_TrimSpace.
      - split; [ constructor | split; reflexivity ]. }
    destruct Hinv as [Hcaps Hcur]. unfold srt_result.
    destruct (textLines st); [ exact Hcaps | ].
    apply Forall_app. split; [ exact Hcaps | ].
    constructor; [ exact Hcur | constructor ].
  - split; [ | apply ParseWebVTT_error_is_scanner_error ].
    destruct (ParseWebVTT_result lines scanErr) as [st [Hloop ->]]. cbn [fst].
    assert (Hinv : Forall zero_timed (vtt_captions st)
                   /\ zero_timed (vtt_currentEntry st)).
    { apply (ParseWebVTT_loop_invariant
               (fun st => Forall zero_timed (vtt_captions st)
                          /\ zero_timed (vtt_currentEntry st))
               lines) with (st := vtt_init); [ | | exact Hloop ].
      - intros s t s' Hin.
        apply (vtt_step_lift
                 (fun st => Forall zero_timed (vtt_captions st)
                            /\ zero_timed (vtt_currentEntry st))).
        + intros c e tl h h' H. exact H.
        + intros s0 s0'. apply vtt_block_step_zero_timed.
          intros Hc. apply (Hno t Hin). now apply In_TrimSpace.
      - split; [ constructor | split; reflexivity ]. }
    destruct Hinv as [Hcaps Hcur]. unfold vtt_result.
    destruct (vtt_textLines st); [ exact Hcaps | ].
    apply Forall_app. split; [ exact Hcaps | ].
    constructor; [ exact Hcur | constructor ].
Qed.

Lemma parser_without_timing_lines_witness :
  Forall zero_timed
    (fst (ParseSRT [str "1"; str "00:00:01.000 --> 00:00:04.000"; str "Hello"]
            None)).
Proof.
  refine (proj1 (proj1 (proj2 (proj2 (parser_without_timing_lines
            [str "1"; str "00:00:01.000 --> 00:00:04.000"; str "Hello"] None)))
            _)).
  repeat constructor; vm_compute; intuition discriminate.
Defined.

(** ** The codec of one format on a timestamp of the other *)

Lemma parseClock_other_separator
    (sep other h1 h2 m1 m2 s1 s2 k1 k2 k3 : byte) :
  perl_d sep = false -> Byte.eqb other sep = false ->
  Byte.eqb other ":" = false ->
  all_digits [h1; h2; m1; m2; s1; s2; k1; k2; k3] ->
  parseClock sep (stamp_text other h1 h2 m1 m2 s1 s2 k1 k2 k3)
  = inr (ErrInvalidSecondsFormat [s1; s2; other; k1; k2; k3]).
Proof.
  intros Hsep Hos Hoc Hd.
  unfold all_digits in Hd.
  repeat match goal with
         | H : Forall _ (_ :: _) |- _ => inversion H; clear H; subst
         | H : Forall _ [] |- _ => clear H
         end.
  assert (Hcolon : forall c, perl_d c = true -> Byte.eqb c ":" = false)
    by (intros c Hc; now apply perl_d_neq).
  assert (Hs : forall c, perl_d c = true -> Byte.eqb c sep = false)
    by (intros c Hc; now apply perl_d_neq).
  unfold parseClock.
  change (stamp_text other h1 h2 m1 m2 s1 s2 k1 k2 k3)
    with ([h1; h2] ++ ":" :: ([m1; m2] ++ ":" :: [s1; s2; other; k1; k2; k3])).
  rewrite Split_at_sep by (repeat constructor; auto).
  rewrite Split_at_sep by (repeat constructor; auto).
  rewrite Split_no_sep by (repeat constructor; auto).
  cbn [List.length Nat.eqb negb index nth].
  unfold atoi. rewrite !Atoi_2_digits by assumption. cbn [bind].
  rewrite Split_no_sep by (repeat constructor; auto).
  reflexivity.
Qed.

(** X10: each codec rejects the timestamps of the other format.  On
    [HH:MM:SS.mmm], whatever the digits, [parseSRTTime] fails with "invalid
    seconds format" (the seconds have no comma), and so does
    [parseWebVTTTime] on [HH:MM:SS,mmm]. *)
Theorem codec_rejects_other_format (h1 h2 m1 m2 s1 s2 k1 k2 k3 : byte) :
  all_digits [h1; h2; m1; m2; s1; s2; k1; k2; k3] ->
  parseSRTTime (stamp_text "." h1 h2 m1 m2 s1 s2 k1 k2 k3)
  = inr (ErrInvalidSecondsFormat [s1; s2; "."; k1; k2; k3])
  /\ parseWebVTTTime (stamp_text "," h1 h2 m1 m2 s1 s2 k1 k2 k3)
     = inr (ErrInvalidSecondsFormat [s1; s2; ","; k1; k2; k3]).
Proof.
  intros Hd. split.
  - rewrite parseSRTTime_parseClock.
    apply parseClock_other_separator; [ reflexivity .. | exact Hd ].
  - rewrite parseWebVTTTime_parseClock.
    apply parseClock_other_separator; [ reflexivity .. | exact Hd ].
Qed.

Lemma codec_rejects_other_format_witness :
  parseSRTTime (str "00:00:01.000")
  = inr (ErrInvalidSecondsFormat (str "01.000"))
  /\ parseWebVTTTime (str "00:00:01,000")
     = inr (ErrInvalidSecondsFormat (str "01,000")).
Proof.
  apply (codec_rejects_other_format "0" "0" "0" "0" "0" "1" "0" "0" "0").
  repeat constructor.
Defined.

(** ** More on the text aggregator *)

Lemma Join_app (a b : list gostring) (sep : gostring) :
  a <> [] -> b <> [] -> Join (a ++ b) sep = Join a sep ++ sep ++ Join b sep.
Proof.
  intros Ha Hb. induction a as [| x a' IH]; [ congruence | ].
  destruct a' as [| y a''].
  - destruct b as [| z b']; [ congruence | reflexivity ].
  - change ((x :: y :: a'') ++ b) with (x :: (y :: a'') ++ b).
    change ((y :: a'') ++ b) with (y :: a'' ++ b) at 1.
    rewrite Join_cons_cons.
    change (y :: a'' ++ b) with ((y :: a'') ++ b).
    rewrite IH by discriminate.
    rewrite Join_cons_cons. now rewrite <- !app_assoc.
Qed.

Lemma Join_nonempty (l : list gostring) (sep : gostring) :
  l <> [] -> Forall (fun s => s <> []) l -> Join l sep <> [].
Proof.
  intros Hne Hall. destruct l as [| x l']; [ congruence | ].
  inversion Hall as [| ? ? Hx _]; subst.
  destruct l' as [| y l'']; [ exact Hx | ].
  rewrite Join_cons_cons. destruct x; [ congruence | discriminate ].
Qed.

Lemma kept_text_nonempty (l : list CaptionEntry) :
  Forall (fun s => s <> []) (map Text (filter kept l)).
Proof.
  apply Forall_map. apply Forall_forall. intros c Hin.
  apply filter_In in Hin. destruct Hin as [_ Hk].
  apply kept_iff in Hk. intros E. rewrite E in Hk. now apply Hk.
Qed.

(** X14: the aggregated text is empty exactly when no entry is kept, that is
    when every entry is blank; on the output of a parser, exactly when the
    parser put out no entry at all. *)
Theorem extract_all_text_empty_iff (captions : list CaptionEntry)
    (lines : list gostring) (scanErr : option error) :
  (ExtractAllText captions = []
   <-> Forall (fun c => TrimSpace (Text c) = []) captions)
  /\ (ExtractAllText (fst (ParseSRT lines scanErr)) = []
      <-> fst (ParseSRT lines scanErr) = [])
  /\ (ExtractAllText (fst (ParseWebVTT lines scanErr)) = []
      <-> fst (ParseWebVTT lines scanErr) = []).
Proof.
  assert (Hgen : forall l, ExtractAllText l = [] <-> filter kept l = []).
  { intros l. rewrite ExtractAllText_filter. split.
    - intros HJ. destruct (filter kept l) as [| c f] eqn:E; [ reflexivity | ].
      exfalso. revert HJ. apply Join_nonempty; [ discriminate | ].
      rewrite <- E. apply kept_text_nonempty.
    - intros ->. reflexivity. }
  split; [ | split ].
  - rewrite Hgen. split.
    + intros Hf. apply Forall_forall. intros c Hin.
      destruct (TrimSpace (Text c)) as [| b t] eqn:E; [ reflexivity | ].
      exfalso.
      assert (Hk : In c (filter kept captions)).
      { apply filter_In. split; [ exact Hin | ]. apply kept_iff.
        rewrite E. discriminate. }
      rewrite Hf in Hk. contradiction.
    + apply filter_kept_blank.
  - rewrite Hgen.
    now rewrite (filter_kept_nonblank _ (ParseSRT_output_nonblank lines scanErr)).
  - rewrite Hgen.
    now rewrite (filter_kept_nonblank _
                   (ParseWebVTT_output_nonblank lines scanErr)).
Qed.

(** X15: aggregation distributes over the concatenation of two sequences of
    entries: the two aggregated texts, joined by one space when both are not
    empty. *)
Theorem extract_all_text_app (l1 l2 : list CaptionEntry) :
  ExtractAllText (l1 ++ l2)
  = match ExtractAllText l1, ExtractAllText l2 with
    | [], t2 => t2
    | t1, [] => t1
    | t1, t2 => t1 ++ [x20] ++ t2
    end.
Proof.
  rewrite !ExtractAllText_filter, filter_app, map_app.
  destruct (filter kept l1) as [| c1 f1] eqn:E1.
  { reflexivity. }
  destruct (filter kept l2) as [| c2 f2] eqn:E2.
  { rewrite app_nil_r.
    change (Join (map Text []) (str " ")) with (@nil byte).
    destruct (Join (map Text (c1 :: f1)) (str " ")); reflexivity. }
  assert (H1 : Join (map Text (c1 :: f1)) (str " ") <> []).
  { apply Join_nonempty; [ discriminate | ].
    rewrite <- E1. apply kept_text_nonempty. }
  assert (H2 : Join (map Text (c2 :: f2)) (str " ") <> []).
  { apply Join_nonempty; [ discriminate | ].
    rewrite <- E2. apply kept_text_nonempty. }
  rewrite Join_app by discriminate.
  destruct (Join (map Text (c1 :: f1)) (str " ")) as [| a1 t1];
    [ congruence | ].
  destruct (Join (map Text (c2 :: f2)) (str " ")) as [| a2 t2];
    [ congruence | ].
  reflexivity.
Qed.

(* ================================================================= *)
(** * File types *)

Lemma eqString_refl (s : gostring) : eqString s s = true.
Proof.
  induction s as [| c t IH]; [ reflexivity | ].
  cbn [eqString]. now rewrite (Byte.byte_dec_lb (eq_refl c)), IH.
Qed.

Lemma eqString_eq (a b : gostring) : eqString a b = true -> a = b.
Proof.
  revert b. induction a as [| x a' IH]; intros [| y b'] H;
    try reflexivity; try discriminate.
  cbn [eqString] in H. apply andb_prop in H. destruct H as [H1 H2].
  apply Byte.byte_dec_bl in H1. subst. f_equal. now apply IH.
Qed.

Lemma lowerASCII_dot (c : byte) :
  Byte.eqb (lowerASCII c) "." = Byte.eqb c ".".
Proof. destruct c; reflexivity. Qed.

(** A byte that lower-cases to a letter is an ASCII letter: no dot, no
    slash, no backslash. *)
Lemma lowerASCII_letter (c : byte) :
  isLowerASCII (lowerASCII c) = true ->
  isASCII c = true /\ Byte.eqb c "." = false /\ c <> x2f /\ c <> x5c.
Proof.
  destruct c; intros H; try discriminate H;
    (split; [ reflexivity | split; [ reflexivity | split; discriminate ] ]).
Qed.

Lemma lowerASCII_idem_not_upper (s : gostring) :
  existsb isUpperASCII s = false -> map lowerASCII s = s.
Proof.
  induction s as [| c t IH]; [ reflexivity | ].
  cbn [existsb map]. intros H. apply orb_false_elim in H.
  destruct H as [Hc Ht]. unfold lowerASCII at 1. rewrite Hc.
  now rewrite IH.
Qed.

Section FileTypeFacts.

Variable isPathSeparator : byte -> bool.
Variable unicodeToLower : gostring -> gostring.
Variable open : gostring -> reader + gostring.

(** On every platform the path separators are among [/] and [\]. *)
Hypothesis separators :
  forall c, isPathSeparator c = true -> c = x2f \/ c = x5c.

Lemma ToLower_ascii (s : gostring) :
  forallb isASCII s = true -> ToLower unicodeToLower s = map lowerASCII s.
Proof.
  intros H. unfold ToLower. rewrite H.
  destruct (existsb isUpperASCII s) eqn:E; [ reflexivity | ].
  symmetry. now apply lowerASCII_idem_not_upper.
Qed.

Lemma ext_scan_found (letters_rev before suffix : gostring) :
  isPathSeparator "." = false ->
  Forall (fun c => isPathSeparator c = false /\ Byte.eqb c "." = false)
    letters_rev ->
  ext_scan isPathSeparator (letters_rev ++ "." :: before) suffix
  = "." :: rev letters_rev ++ suffix.
Proof.
  intros Hdot Hall. revert suffix.
  induction Hall as [| c r [Hs Hd] Hr IH]; intros suffix.
  - cbn [app ext_scan rev]. rewrite Hdot. reflexivity.
  - cbn [app ext_scan rev]. rewrite Hs, Hd, IH.
    now rewrite <- app_assoc.
Qed.

Lemma ext_scan_no_dot (name_rev before suffix : gostring) (s : byte) :
  isPathSeparator s = true -> ~ In "."%byte name_rev ->
  ext_scan isPathSeparator (name_rev ++ s :: before) suffix = [].
Proof.
  intros Hs. revert suffix.
  induction name_rev as [| c r IH]; intros suffix Hno.
  - cbn [app ext_scan]. now rewrite Hs.
  - cbn [app ext_scan]. destruct (isPathSeparator c); [ reflexivity | ].
    destruct (Byte.eqb c ".") eqn:Ed.
    + apply Byte.byte_dec_bl in Ed. subst. exfalso. apply Hno. now left.
    + apply IH. intros Hin. apply Hno. now right.
Qed.

Lemma ext_scan_no_dot_at_all (path_rev suffix : gostring) :
  ~ In "."%byte path_rev -> ext_scan isPathSeparator path_rev suffix = [].
Proof.
  revert suffix.
  induction path_rev as [| c r IH]; intros suffix Hno; [ reflexivity | ].
  cbn [ext_scan]. destruct (isPathSeparator c); [ reflexivity | ].
  destruct (Byte.eqb c ".") eqn:Ed.
  - apply Byte.byte_dec_bl in Ed. subst. exfalso. apply Hno. now left.
  - apply IH. intros Hin. apply Hno. now right.
Qed.

Lemma not_separator (c : byte) :
  c <> x2f -> c <> x5c -> isPathSeparator c = false.
Proof.
  intros H1 H2. destruct (isPathSeparator c) eqn:E; [ | reflexivity ].
  destruct (separators c E); congruence.
Qed.

(** The extension of a path that ends in a dot and three letters. *)
Lemma Ext_three_letters (p : gostring) (c0 c1 c2 c3 : byte) :
  Byte.eqb (lowerASCII c0) "." = true ->
  isLowerASCII (lowerASCII c1) = true ->
  isLowerASCII (lowerASCII c2) = true ->
  isLowerASCII (lowerASCII c3) = true ->
  Ext isPathSeparator (p ++ [c0; c1; c2; c3]) = [c0; c1; c2; c3]
  /\ forallb isASCII [c0; c1; c2; c3] = true.
Proof.
  intros H0 H1 H2 H3.
  rewrite lowerASCII_dot in H0. apply Byte.byte_dec_bl in H0. subst c0.
  destruct (lowerASCII_letter c1 H1) as (A1 & D1 & S1 & B1).
  destruct (lowerASCII_letter c2 H2) as (A2 & D2 & S2 & B2).
  destruct (lowerASCII_letter c3 H3) as (A3 & D3 & S3 & B3).
  split.
  - unfold Ext. rewrite rev_app_distr.
    change (rev ["."; c1; c2; c3]) with ([c3; c2; c1] ++ "." :: []).
    rewrite <- app_assoc. cbn [app].
    change (c3 :: c2 :: c1 :: "." :: rev p)
      with ([c3; c2; c1] ++ "." :: rev p).
    rewrite ext_scan_found.
    + reflexivity.
    + apply not_separator; discriminate.
    + repeat constructor; auto using not_separator.
  - cbn [forallb]. rewrite A1, A2, A3. reflexivity.
Qed.

Lemma ext_like_bytes (target e : gostring) (t0 t1 t2 t3 : byte) :
  target = [t0; t1; t2; t3] -> ext_like target e ->
  exists c0 c1 c2 c3,
    e = [c0; c1; c2; c3]
    /\ lowerASCII c0 = t0 /\ lowerASCII c1 = t1
    /\ lowerASCII c2 = t2 /\ lowerASCII c3 = t3.
Proof.
  intros -> H. unfold ext_like in H.
  destruct e as [| c0 [| c1 [| c2 [| c3 [| c4 e']]]]]; try discriminate H.
  cbn [map] in H. inversion H. exists c0, c1, c2, c3. auto.
Qed.

Lemma ToLower_Ext_like (p e : gostring) (t1 t2 t3 : byte) :
  isLowerASCII t1 = true -> isLowerASCII t2 = true -> isLowerASCII t3 = true ->
  ext_like ["."; t1; t2; t3] e ->
  ToLower unicodeToLower (Ext isPathSeparator (p ++ e)) = ["."; t1; t2; t3].
Proof.
  intros L1 L2 L3 He.
  destruct (ext_like_bytes _ e _ _ _ _ eq_refl He)
    as (c0 & c1 & c2 & c3 & -> & E0 & E1 & E2 & E3).
  destruct (Ext_three_letters p c0 c1 c2 c3) as [HE HA].
  - rewrite E0. reflexivity.
  - now rewrite E1.
  - now rewrite E2.
  - now rewrite E3.
  - rewrite HE, (ToLower_ascii _ HA). exact He.
Qed.

(** X16: a path that ends in [.srt] or [.vtt], in any mix of upper and lower
    case, has a valid file type, whatever precedes the extension; and
    [ParseCaptionFile] gives the file, once opened, to the parser of that
    format. *)
Theorem file_type_by_extension (p e : gostring) (file : reader) :
  (ext_like (str ".srt") e \/ ext_like (str ".vtt") e ->
   IsValidFileType isPathSeparator unicodeToLower (p ++ e) = true
   /\ isValidFileType isPathSeparator unicodeToLower (p ++ e) = true)
  /\ (ext_like (str ".srt") e -> open (p ++ e) = inl file ->
      ParseCaptionFile isPathSeparator unicodeToLower open (p ++ e)
      = parsed (ParseSRT (fst file) (snd file)))
  /\ (ext_like (str ".vtt") e -> open (p ++ e) = inl file ->
      ParseCaptionFile isPathSeparator unicodeToLower open (p ++ e)
      = parsed (ParseWebVTT (fst file) (snd file))).
Proof.
  assert (Hs : ext_like (str ".srt") e ->
               ToLower unicodeToLower (Ext isPathSeparator (p ++ e))
               = str ".srt")
    by (apply ToLower_Ext_like; reflexivity).
  assert (Hv : ext_like (str ".vtt") e ->
               ToLower unicodeToLower (Ext isPathSeparator (p ++ e))
               = str ".vtt")
    by (apply ToLower_Ext_like; reflexivity).
  split; [ | split ].
  - intros [H | H]; unfold IsValidFileType, isValidFileType.
    + rewrite (Hs H). split; reflexivity.
    + rewrite (Hv H). split; reflexivity.
  - intros H Hopen. unfold ParseCaptionFile. rewrite Hopen, (Hs H).
    reflexivity.
  - intros H Hopen. unfold ParseCaptionFile. rewrite Hopen, (Hv H).
    reflexivity.
Qed.

(** X17: a path whose last element has no dot has no valid file type: a dot
    in a directory name does not count. *)
Theorem file_type_needs_dot_in_last_element
    (dir name : gostring) (s : byte) :
  ~ In "."%byte name ->
  IsValidFileType isPathSeparator unicodeToLower name = false
  /\ (isPathSeparator s = true ->
      IsValidFileType isPathSeparator unicodeToLower (dir ++ s :: name)
      = false).
Proof.
  intros Hno.
  assert (Hrev : ~ In "."%byte (rev name))
    by (intros H; apply Hno; now apply in_rev).
  split.
  - unfold IsValidFileType, Ext.
    now rewrite (ext_scan_no_dot_at_all (rev name) [] Hrev).
  - intros Hs. unfold IsValidFileType, Ext.
    rewrite rev_app_distr. cbn [rev]. rewrite <- app_assoc. cbn [app].
    now rewrite (ext_scan_no_dot (rev name) (rev dir) [] s Hs Hrev).
Qed.

(** X18: [ParseCaptionFile] and [IsValidFileType] agree.  On a file that
    opens, [ParseCaptionFile] reports an unsupported file type exactly when
    [IsValidFileType] is false; so after the test [main] makes, that error
    cannot occur, and the result is that of one of the two parsers. *)
Theorem parse_caption_file_agrees_with_file_type
    (filePath : gostring) (file : reader) :
  open filePath = inl file ->
  (IsValidFileType isPathSeparator unicodeToLower filePath = false <->
   exists ext,
     ParseCaptionFile isPathSeparator unicodeToLower open filePath
     = ([], Some (ErrUnsupportedFileType ext)))
  /\ (isValidFileType isPathSeparator unicodeToLower filePath = true ->
      ParseCaptionFile isPathSeparator unicodeToLower open filePath
      = parsed (ParseSRT (fst file) (snd file))
      \/ ParseCaptionFile isPathSeparator unicodeToLower open filePath
         = parsed (ParseWebVTT (fst file) (snd file))).
Proof.
  intros Hopen. unfold IsValidFileType, isValidFileType, ParseCaptionFile.
  rewrite Hopen.
  set (ext := ToLower unicodeToLower (Ext isPathSeparator filePath)).
  destruct (eqString ext (str ".vtt")) eqn:Ev; cbn [orb].
  - split; [ | intros _; now right ].
    split; [ discriminate | ].
    intros [x Hx]. unfold parsed in Hx.
    rewrite (surjective_pairing (ParseWebVTT (fst file) (snd file))) in Hx.
    rewrite ParseWebVTT_error_is_scanner_error in Hx. cbn [fst snd] in Hx.
    inversion Hx as [[H1 H2]].
    destruct (snd file); discriminate.
  - destruct (eqString ext (str ".srt")) eqn:Es.
    + split; [ | intros _; now left ].
      split; [ discriminate | ].
      intros [x Hx]. unfold parsed in Hx.
      rewrite (surjective_pairing (ParseSRT (fst file) (snd file))) in Hx.
      rewrite ParseSRT_error_is_scanner_error in Hx. cbn [fst snd] in Hx.
      inversion Hx as [[H1 H2]].
      destruct (snd file); discriminate.
    + split; [ | discriminate ].
      split; [ intros _; now exists ext | reflexivity ].
Qed.

End FileTypeFacts.

(* ================================================================= *)
(** * The codec beyond the grammar of the timing patterns *)

Lemma decimal_from_ge (ds : gostring) :
  all_digits ds -> forall n, 0 <= n -> n <= decimal_from n ds.
Proof.
  unfold decimal_from.
  induction 1 as [| c t Hc Ht IH]; intros n Hn; cbn [fold_left]; [ lia | ].
  pose proof (perl_d_range c Hc).
  specialize (IH (n * 10 + digit_value c) ltac:(lia)). lia.
Qed.

Lemma decimal_from_bound (ds : gostring) :
  all_digits ds -> forall n, 0 <= n ->
  decimal_from n ds < (n + 1) * 10 ^ Z.of_nat (List.length ds).
Proof.
  unfold decimal_from.
  induction 1 as [| c t Hc Ht IH]; intros n Hn; cbn [fold_left List.length].
  - simpl. lia.
  - pose proof (perl_d_range c Hc).
    specialize (IH (n * 10 + digit_value c) ltac:(lia)).
    rewrite Nat2Z.inj_succ, Z.pow_succ_r by lia.
    assert (0 < 10 ^ Z.of_nat (List.length t)) by (apply Z.pow_pos_nonneg; lia).
    nia.
Qed.

Lemma atoi_digits_decimal (ds : gostring) :
  all_digits ds -> forall n, 0 <= n ->
  decimal_from n ds <= Int64.max_int ->
  atoi_digits ds n = Some (decimal_from n ds).
Proof.
  induction 1 as [| c t Hc Ht IH]; intros n Hn Hfit; [ reflexivity | ].
  cbn [atoi_digits]. rewrite (perl_d_digit_of_byte c Hc).
  pose proof (perl_d_range c Hc) as Hr.
  assert (Hstep : n * 10 + digit_value c <= Int64.max_int).
  { pose proof (decimal_from_ge t Ht (n * 10 + digit_value c) ltac:(lia)).
    unfold decimal_from in *. cbn [fold_left] in Hfit. lia. }
  unfold Int64.add, Int64.mul.
  rewrite (int64_wrap_small (n * 10))
    by (unfold Int64.in_range, Int64.min_int, Int64.max_int in *; lia).
  rewrite (int64_wrap_small (n * 10 + digit_value c))
    by (unfold Int64.in_range, Int64.min_int, Int64.max_int in *; lia).
  rewrite IH; [ reflexivity | lia | exact Hfit ].
Qed.

Lemma digit_string_range (ds : gostring) :
  digit_string ds -> 0 <= decimal ds < 1000000000000000000.
Proof.
  intros [Hd [Hl1 Hl2]]. unfold decimal. split.
  - now apply decimal_from_ge.
  - pose proof (decimal_from_bound ds Hd 0 ltac:(lia)) as Hb.
    assert (10 ^ Z.of_nat (List.length ds) <= 10 ^ 18)
      by (apply Z.pow_le_mono_r; lia).
    change (10 ^ 18) with 1000000000000000000 in *. lia.
Qed.

(** [Atoi] on 1 to 18 digits returns the number they denote. *)
Lemma Atoi_digit_string (ds : gostring) :
  digit_string ds -> Atoi ds = inl (decimal ds).
Proof.
  intros Hds. pose proof (digit_string_range ds Hds) as Hr.
  destruct Hds as [Hd [Hl1 Hl2]].
  unfold Atoi.
  assert (Hfast : (0 <? Z.of_nat (List.length ds))
                  && (Z.of_nat (List.length ds) <? 19) = true).
  { apply andb_true_intro. split; [ apply Z.ltb_lt | apply Z.ltb_lt ]; lia. }
  rewrite Hfast.
  destruct ds as [| c t]; [ simpl in Hl1; lia | ].
  inversion Hd as [| ? ? Hc Ht]; subst.
  rewrite (perl_d_neq c x2d Hc eq_refl), (perl_d_neq c x2b Hc eq_refl).
  cbn [orb andb].
  rewrite (atoi_digits_decimal (c :: t) Hd 0 ltac:(lia)); [ reflexivity | ].
  unfold decimal in Hr. unfold Int64.max_int. lia.
Qed.

Lemma all_digits_no_byte (ds : gostring) (k : byte) :
  all_digits ds -> perl_d k = false ->
  Forall (fun c => Byte.eqb c k = false) ds.
Proof.
  intros Hd Hk. eapply Forall_impl; [ | exact Hd ].
  intros c Hc. now apply perl_d_neq.
Qed.

Lemma parseClock_digit_strings (sep : byte) (H M S K : gostring) :
  perl_d sep = false -> Byte.eqb sep ":" = false ->
  digit_string H -> digit_string M -> digit_string S -> digit_string K ->
  (decimal H * 3600000 + decimal M * 60000 + decimal S * 1000 + decimal K)
  * 1000000 <= Int64.max_int ->
  parseClock sep (H ++ ":" :: M ++ ":" :: S ++ sep :: K)
  = inl ((decimal H * 3600000 + decimal M * 60000 + decimal S * 1000
          + decimal K) * Millisecond).
Proof.
  intros Hsep Hsc HH HM HS HK Hfit.
  pose proof (digit_string_range H HH). pose proof (digit_string_range M HM).
  pose proof (digit_string_range S HS). pose proof (digit_string_range K HK).
  unfold parseClock.
  rewrite (Split_at_sep H _ ":")
    by (apply all_digits_no_byte; [ apply HH | reflexivity ]).
  rewrite (Split_at_sep M _ ":")
    by (apply all_digits_no_byte; [ apply HM | reflexivity ]).
  assert (Hrest : Forall (fun c => Byte.eqb c ":" = false) (S ++ sep :: K)).
  { apply Forall_app. split.
    - apply all_digits_no_byte; [ apply HS | reflexivity ].
    - constructor; [ exact Hsc | ].
      apply all_digits_no_byte; [ apply HK | reflexivity ]. }
  rewrite (Split_no_sep _ ":" Hrest).
  cbn [List.length Nat.eqb negb index nth].
  unfold atoi. rewrite (Atoi_digit_string H HH), (Atoi_digit_string M HM).
  cbn [bind].
  rewrite (Split_at_sep S _ sep)
    by (apply all_digits_no_byte; [ apply HS | exact Hsep ]).
  rewrite (Split_no_sep K sep)
    by (apply all_digits_no_byte; [ apply HK | exact Hsep ]).
  cbn [List.length Nat.eqb negb index nth].
  rewrite (Atoi_digit_string S HS), (Atoi_digit_string K HK).
  cbn [bind].
  unfold ret, Int64.add, Int64.mul, Millisecond.
  unfold Int64.max_int in Hfit.
  repeat reduce_inner_wrap.
  reflexivity.
Qed.

(** X11: the codecs take more than the timing patterns capture.  Every field
    may have from 1 to 18 digits: for such fields [H], [M], [S] and [mmm]
    the codec returns [H*3600000 + M*60000 + S*1000 + mmm] milliseconds, as
    long as that duration fits [int64] nanoseconds; so hours above 99 and
    fields of one digit are accepted. *)
Theorem codec_accepts_any_digit_count (H M S K : gostring) :
  digit_string H -> digit_string M -> digit_string S -> digit_string K ->
  (decimal H * 3600000 + decimal M * 60000 + decimal S * 1000 + decimal K)
  * 1000000 <= Int64.max_int ->
  parseSRTTime (H ++ ":" :: M ++ ":" :: S ++ "," :: K)
  = inl ((decimal H * 3600000 + decimal M * 60000 + decimal S * 1000
          + decimal K) * Millisecond)
  /\ parseWebVTTTime (H ++ ":" :: M ++ ":" :: S ++ "." :: K)
     = inl ((decimal H * 3600000 + decimal M * 60000 + decimal S * 1000
             + decimal K) * Millisecond).
Proof.
  intros HH HM HS HK Hfit. split.
  - rewrite parseSRTTime_parseClock.
    now apply parseClock_digit_strings.
  - rewrite parseWebVTTTime_parseClock.
    now apply parseClock_digit_strings.
Qed.

Lemma codec_accepts_any_digit_count_witness :
  parseSRTTime (str "100:5:7,25") = inl (360307025 * Millisecond)
  /\ parseWebVTTTime (str "100:5:7.25") = inl (360307025 * Millisecond).
Proof.
  refine (codec_accepts_any_digit_count (str "100") (str "5") (str "7")
            (str "25") _ _ _ _ _).
  - split; [ repeat constructor | simpl; lia ].
  - split; [ repeat constructor | simpl; lia ].
  - split; [ repeat constructor | simpl; lia ].
  - split; [ repeat constructor | simpl; lia ].
  - vm_compute. congruence.
Defined.

(* ================================================================= *)
(** * Entries once put out are not touched again *)

Lemma srt_step_captions_grow (st st' : srt_state) (line : gostring) :
  srt_step st line st' -> exists more, captions st' = captions st ++ more.
Proof.
  intros Hstep. inversion Hstep; subst; cbn;
    solve [ eexists; reflexivity | exists []; now rewrite app_nil_r ].
Qed.

Lemma vtt_step_captions_grow (st st' : vtt_state) (line : gostring) :
  vtt_step st line st' ->
  exists more, vtt_captions st' = vtt_captions st ++ more.
Proof.
  assert (Hb : forall s s', vtt_block_step s line s' ->
                 exists more, vtt_captions s' = vtt_captions s ++ more).
  { intros s s' Hs. inversion Hs; subst; cbn;
      solve [ eexists; reflexivity | exists []; now rewrite app_nil_r ]. }
  intros Hstep. inversion Hstep; subst.
  - exists []. now rewrite app_nil_r.
  - match goal with H : vtt_block_step _ _ _ |- _ => apply Hb in H end.
    assumption.
  - now apply Hb.
Qed.

Lemma ParseSRT_loop_captions_grow (lines : list gostring) (st st' : srt_state) :
  ParseSRT_loop lines st = inl st' ->
  exists more, captions st' = captions st ++ more.
Proof.
  intros Hloop.
  apply (ParseSRT_loop_invariant
           (fun s => exists more, captions s = captions st ++ more) lines)
    with (st := st); [ | | exact Hloop ].
  - intros s t s' _ [more Hm] Hstep.
    destruct (srt_step_captions_grow s s' _ Hstep) as [more' Hm'].
    exists (more ++ more'). rewrite Hm', Hm. now rewrite app_assoc.
  - exists []. now rewrite app_nil_r.
Qed.

Lemma ParseWebVTT_loop_captions_grow (lines : list gostring)
    (st st' : vtt_state) :
  ParseWebVTT_loop lines st = inl st' ->
  exists more, vtt_captions st' = vtt_captions st ++ more.
Proof.
  intros Hloop.
  apply (ParseWebVTT_loop_invariant
           (fun s => exists more, vtt_captions s = vtt_captions st ++ more)
           lines)
    with (st := st); [ | | exact Hloop ].
  - intros s t s' _ [more Hm] Hstep.
    destruct (vtt_step_captions_grow s s' _ Hstep) as [more' Hm'].
    exists (more ++ more'). rewrite Hm', Hm. now rewrite app_assoc.
  - exists []. now rewrite app_nil_r.
Qed.

Lemma vtt_block_step_inHeader (st st' : vtt_state) (line : gostring) :
  vtt_block_step st line st' -> inHeader st' = inHeader st.
Proof. intros H. inversion H; subst; reflexivity. Qed.

(** As long as [ParseWebVTT] is in the header it has accumulated nothing. *)
Lemma ParseWebVTT_in_header (lines : list gostring) (st : vtt_state) :
  ParseWebVTT_loop lines vtt_init = inl st ->
  inHeader st = true -> vtt_textLines st = [].
Proof.
  intros Hloop.
  apply (ParseWebVTT_loop_invariant
           (fun s => inHeader s = true -> vtt_textLines s = []) lines)
    with (st := vtt_init); [ | | exact Hloop ].
  - intros s t s' _ Hs Hstep. inversion Hstep; subst.
    + exact Hs.
    + match goal with
      | H : vtt_block_step _ _ _ |- _ =>
          apply vtt_block_step_inHeader in H; cbn in H
      end.
      congruence.
    + match goal with
      | H : vtt_block_step _ _ _ |- _ => apply vtt_block_step_inHeader in H
      end.
      congruence.
  - reflexivity.
Qed.

(** X8: what follows a blank line does not change the entries before it: the
    entries of the lines up to a blank line are a prefix of the entries of
    any longer input. *)
Theorem parsers_keep_entries_of_closed_blocks
    (lines rest : list gostring) (b : gostring) (scanErr : option error) :
  blank_line b ->
  (exists more,
     fst (ParseSRT (lines ++ b :: rest) scanErr)
     = fst (ParseSRT lines scanErr) ++ more)
  /\ (exists more,
        fst (ParseWebVTT (lines ++ b :: rest) scanErr)
        = fst (ParseWebVTT lines scanErr) ++ more).
Proof.
  intros Hb. split.
  - destruct (ParseSRT_loop_total lines srt_init) as [st Hst].
    destruct (ParseSRT_line_blank st b Hb) as [st1 (H1 & [Ht _] & Hres)].
    destruct (ParseSRT_loop_total rest st1) as [st2 Hst2].
    destruct (ParseSRT_loop_captions_grow rest st1 st2 Hst2) as [more Hm].
    rewrite (ParseSRT_of_loop lines scanErr st Hst).
    rewrite (ParseSRT_of_loop (lines ++ b :: rest) scanErr st2).
    + cbn [fst]. rewrite <- Hres.
      unfold srt_result at 2. rewrite Ht.
      unfold srt_result. rewrite Hm.
      destruct (textLines st2).
      * now exists more.
      * eexists. now rewrite <- app_assoc.
    + rewrite ParseSRT_loop_app, Hst. cbn [bind ParseSRT_loop].
      rewrite H1. cbn [bind]. exact Hst2.
  - destruct (ParseWebVTT_loop_total lines vtt_init) as [st Hst].
    destruct (ParseWebVTT_line_blank st b Hb) as [st1 (H1 & Ht & Hh & Hres)].
    destruct (ParseWebVTT_loop_total rest st1) as [st2 Hst2].
    destruct (ParseWebVTT_loop_captions_grow rest st1 st2 Hst2) as [more Hm].
    rewrite (ParseWebVTT_of_loop lines scanErr st Hst).
    rewrite (ParseWebVTT_of_loop (lines ++ b :: rest) scanErr st2).
    + cbn [fst]. rewrite <- Hres.
      assert (Hc : vtt_result st1 = vtt_captions st1).
      { destruct (inHeader st) eqn:Eh.
        - unfold vtt_result.
          rewrite (ParseWebVTT_line_blank_closed st b Hb (or_introl Eh)) in H1.
          inversion H1; subst st1.
          now rewrite (ParseWebVTT_in_header lines st Hst Eh).
        - unfold vtt_result. now rewrite (Ht eq_refl). }
      rewrite Hc. unfold vtt_result. rewrite Hm.
      destruct (vtt_textLines st2).
      * now exists more.
      * eexists. now rewrite <- app_assoc.
    + rewrite ParseWebVTT_loop_app, Hst. cbn [bind ParseWebVTT_loop].
      rewrite H1. cbn [bind]. exact Hst2.
Qed.

Lemma parsers_keep_entries_of_closed_blocks_witness :
  exists more,
    fst (ParseSRT ([str "1"; str "a"] ++ [] :: [str "2"; str "b"]) None)
    = fst (ParseSRT [str "1"; str "a"] None) ++ more.
Proof.
  refine (proj1 (parsers_keep_entries_of_closed_blocks [str "1"; str "a"]
                   [str "2"; str "b"] [] None _)).
  reflexivity.
Defined.


(* ================================================================= *)
(** * The configuration and the window *)

Section FlagFacts.

Variable ParseDuration : gostring -> Duration + gostring.

(** A [time.Duration] is an [int64]. *)
Hypothesis ParseDuration_int64 :
  forall s d, ParseDuration s = inl d -> Int64.in_range d.

(** X19: a configuration that [ParseFlags] accepts names a file and an
    endpoint and has a window whose start lies before its end.  On such a
    window the evaluator's test for a degenerate range fires only when
    [end - start] exceeds 2^63 - 1 ns; it never does when the start is not
    negative. *)
Theorem parse_flags_window (filePath tStart tEnd : gostring) (coverage : float)
    (endpoint : gostring) (cfg : Config) :
  ParseFlags ParseDuration filePath tStart tEnd coverage endpoint = inl cfg ->
  FilePath cfg <> [] /\ Endpoint cfg <> []
  /\ ParseDuration tStart = inl (TStart cfg)
  /\ ParseDuration tEnd = inl (TEnd cfg)
  /\ TStart cfg < TEnd cfg
  /\ PrimFloat.ltb (Coverage cfg) 0 = false
  /\ PrimFloat.ltb 1 (Coverage cfg) = false
  /\ (Int64.sub (TEnd cfg) (TStart cfg) <= 0
      <-> Int64.max_int < TEnd cfg - TStart cfg)
  /\ (0 <= TStart cfg -> 0 < Int64.sub (TEnd cfg) (TStart cfg)).
Proof.
  unfold ParseFlags.
  destruct filePath as [| f0 f]; [ discriminate | ].
  destruct tEnd as [| e0 e]; [ discriminate | ].
  destruct endpoint as [| p0 p]; [ discriminate | ].
  cbn [isEmpty].
  destruct (ParseDuration tStart) as [startTime | err1] eqn:Es;
    [ | discriminate ].
  destruct (ParseDuration (e0 :: e)) as [endTime | err2] eqn:Ee;
    [ | discriminate ].
  destruct (Z.geb_spec startTime endTime) as [Hge | Hlt]; [ discriminate | ].
  destruct (PrimFloat.ltb coverage 0) eqn:E0; [ discriminate | ].
  destruct (PrimFloat.ltb 1 coverage) eqn:E1; [ discriminate | ].
  cbn [orb]. intros Heq. inversion Heq; subst cfg. cbn.
  pose proof (ParseDuration_int64 _ _ Es) as Rs.
  pose proof (ParseDuration_int64 _ _ Ee) as Re.
  split; [ discriminate | ]. split; [ discriminate | ].
  split; [ reflexivity | ]. split; [ reflexivity | ].
  split; [ exact Hlt | ]. split; [ exact E0 | ]. split; [ exact E1 | ].
  unfold Int64.sub, Int64.wrap, Int64.in_range, Int64.min_int, Int64.max_int,
    Int64.half_modulus, Int64.modulus in *.
  pose proof (Z.div_mod (endTime - startTime + 9223372036854775808)
                18446744073709551616 ltac:(lia)) as Ed.
  pose proof (Z.mod_pos_bound (endTime - startTime + 9223372036854775808)
                18446744073709551616 ltac:(lia)) as Bd.
  split; [ split; intros; lia | intros; lia ].
Qed.

End FlagFacts.

(* ================================================================= *)
(** * Instances *)

Lemma unix_separators (c : byte) :
  unixPathSeparator c = true -> c = x2f \/ c = x5c.
Proof. intros H. left. now apply Byte.byte_dec_bl. Qed.

Lemma sample_ParseDuration_int64 (s : gostring) (d : Duration) :
  sample_ParseDuration s = inl d -> Int64.in_range d.
Proof.
  unfold sample_ParseDuration.
  destruct (eqString s (str "0s")).
  - intros H. inversion H. split; vm_compute; congruence.
  - destruct (eqString s (str "10s")); [ | discriminate ].
    intros H. inversion H. split; vm_compute; congruence.
Qed.

Lemma coverage_of_parsed_file_is_exact_witness :
  coveredDuration
    (fst (ParseSRT [str "1"; str "00:00:01,000 --> 00:00:04,000"; str "Hello"]
            None)) 0 (10 * Second)
  = overlap_sum
      (fst (ParseSRT [str "1"; str "00:00:01,000 --> 00:00:04,000"; str "Hello"]
              None)) 0 (10 * Second).
Proof.
  refine (proj1 (coverage_of_parsed_file_is_exact
            [str "1"; str "00:00:01,000 --> 00:00:04,000"; str "Hello"] None
            0 (10 * Second) _ _ _) _).
  - split; vm_compute; congruence.
  - split; vm_compute; congruence.
  - vm_compute. reflexivity.
  - vm_compute. congruence.
Defined.

Lemma file_type_by_extension_witness :
  IsValidFileType unixPathSeparator (fun s => s)
    (str "/home/me/films.2024/Movie" ++ str ".SRT") = true
  /\ isValidFileType unixPathSeparator (fun s => s)
       (str "/home/me/films.2024/Movie" ++ str ".SRT") = true.
Proof.
  refine (proj1 (file_type_by_extension unixPathSeparator (fun s => s)
            sample_open unix_separators (str "/home/me/films.2024/Movie")
            (str ".SRT") sample_file) _).
  left. reflexivity.
Defined.

Lemma file_type_needs_dot_in_last_element_witness :
  IsValidFileType unixPathSeparator (fun s => s)
    (str "/home/me/captions.srt" ++ "/"%byte :: str "readme") = false.
Proof.
  refine (proj2 (file_type_needs_dot_in_last_element unixPathSeparator
            (fun s => s) (str "/home/me/captions.srt") (str "readme") "/" _) _).
  - vm_compute. intuition discriminate.
  - reflexivity.
Defined.

Lemma parse_caption_file_agrees_with_file_type_witness :
  ParseCaptionFile unixPathSeparator (fun s => s) sample_open (str "a.srt")
  = parsed (ParseSRT (fst sample_file) (snd sample_file))
  \/ ParseCaptionFile unixPathSeparator (fun s => s) sample_open (str "a.srt")
     = parsed (ParseWebVTT (fst sample_file) (snd sample_file)).
Proof.
  refine (proj2 (parse_caption_file_agrees_with_file_type unixPathSeparator
            (fun s => s) sample_open (str "a.srt") sample_file _) _).
  - reflexivity.
  - reflexivity.
Defined.

Lemma parse_flags_window_witness :
  0 < Int64.sub (TEnd (mkConfig (str "a.srt") 0 (10 * Second) 0.5%float
                         (str "http://localhost")))
        (TStart (mkConfig (str "a.srt") 0 (10 * Second) 0.5%float
                   (str "http://localhost"))).
Proof.
  refine (proj2 (proj2 (proj2 (proj2 (proj2 (proj2 (proj2 (proj2
            (parse_flags_window sample_ParseDuration sample_ParseDuration_int64
               (str "a.srt") (str "0s") (str "10s") 0.5%float
               (str "http://localhost")
               (mkConfig (str "a.srt") 0 (10 * Second) 0.5%float
                  (str "http://localhost")) _)))))))) _).
  - vm_compute. reflexivity.
  - vm_compute. congruence.
Defined.
